(** * Gemini Project Manager Pro: the data layer and its callers

    A shallow embedding of [storage.js] (the [GPMStorage] module) and of the
    parts of [content.js] that write to it: the orphan clean-up of
    [gpmRenderTree], the project branch of the row drop handler and the
    pending-assignment logic of [gpmObserveNewChats].

    [chrome.storage.local] is a finite map from keys to JSON values, the
    runtime messages sent so far are a list; every [async] function of the
    data layer is a computation over that world.  The single-threaded event
    loop runs one such computation at a time; interleavings of two
    overlapping operations are outside this model.

    A string is the sequence of the bytes of its UTF-8 encoding. *)

From Stdlib Require Import ZArith Lia.
From stdpp Require Import base option strings pretty list gmap fin_maps.

Local Open Scope string_scope.
Local Open Scope list_scope.
Local Open Scope Z_scope.
Set Warnings "-register-all,-clear-no-such-hyp".

(** ** JavaScript values held by the store *)

(** The values [chrome.storage.local] holds and [JSON.parse] returns.
    Numbers are the integers ([order], time stamps); an object is the list of
    its own properties in insertion order. *)
Inductive json : Type :=
  | JNull
  | JBool (b : bool)
  | JNum (n : Z)
  | JStr (s : string)
  | JArr (xs : list json)
  | JObj (fields : list (string * json)).

(** [ToBoolean]: what [if (v)], [!v] and [v || d] test. *)
Definition truthy (v : json) : bool :=
  match v with
  | JNull => false
  | JBool b => b
  | JNum n => negb (n =? 0)
  | JStr s => negb (String.eqb s "")
  | JArr _ => true
  | JObj _ => true
  end.

Definition falsy (v : json) : bool := negb (truthy v).

(** Own property of an object literal, [None] for [undefined]. *)
Fixpoint assoc (k : string) (fields : list (string * json)) : option json :=
  match fields with
  | [] => None
  | (k', v) :: rest => if String.eqb k k' then Some v else assoc k rest
  end.

(** [v || d] where [v] may be [undefined]. *)
Definition js_or (v : option json) (d : json) : json :=
  match v with
  | Some x => if truthy x then x else d
  | None => d
  end.

(** ** The world: local storage and the messages sent *)

Inductive Message : Type :=
  | GPM_STORAGE_UPDATED.

Record World : Type := mkWorld {
  storage : gmap string json;
  outbox : list Message
}.

(** State and failure: [None] is a rejected promise (a thrown exception). *)
Definition M (A : Type) : Type := World -> option (A * World).

Definition ret {A} (a : A) : M A := fun w => Some (a, w).

Definition bind {A B} (m : M A) (k : A -> M B) : M B :=
  fun w => match m w with
           | Some (a, w') => k a w'
           | None => None
           end.

Definition throw {A} : M A := fun _ => None.

Definition lift {A} (o : option A) : M A :=
  fun w => match o with Some a => Some (a, w) | None => None end.

Notation "'do' x <- m ; k" := (bind m (fun x => k))
  (at level 10, x name, m at level 99, k at level 200).
Notation "m ;; k" := (bind m (fun _ => k))
  (at level 100, k at level 200, right associativity).

Definition empty_world : World := mkWorld ∅ [].

(** ** storage.js: helpers *)

Definition _get (key : string) : M (option json) :=
  fun w => Some (storage w !! key, w).

(** [chrome.storage.local.set({...})] with one or more keys, no message. *)
Definition storage_set (kvs : list (string * json)) : M unit :=
  fun w => Some (tt, mkWorld (foldl (fun s kv => <[kv.1 := kv.2]> s) (storage w) kvs)
                             (outbox w)).

(** [chrome.runtime.sendMessage(msg)], taken to succeed; [_set] ignores its
    failure. *)
Definition sendMessage (msg : Message) : M unit :=
  fun w => Some (tt, mkWorld (storage w) (outbox w ++ [msg])).

Definition _set (key : string) (value : json) : M unit :=
  storage_set [(key, value)] ;;
  sendMessage GPM_STORAGE_UPDATED.

Definition getProjects : M json :=
  do r <- _get "gpm_projects"; ret (js_or r (JArr [])).

Definition saveProjects (projects : json) : M unit :=
  _set "gpm_projects" projects.

Definition getChatMap : M json :=
  do r <- _get "gpm_chatMap"; ret (js_or r (JObj [])).

Definition saveChatMap (map : json) : M unit :=
  _set "gpm_chatMap" map.

Definition getQuickPrompts : M json :=
  do r <- _get "gpm_quickPrompts"; ret (js_or r (JArr [])).

Definition default_settings : json :=
  JObj [("lang", JStr "en"); ("theme", JStr "auto")].

Definition getSettings : M json :=
  do r <- _get "gpm_settings"; ret (js_or r default_settings).

Definition saveSettings (settings : json) : M unit :=
  _set "gpm_settings" settings.

Definition clearAll : M unit :=
  storage_set [ ("gpm_projects", JArr []);
                ("gpm_chatMap", JObj []);
                ("gpm_quickPrompts", JArr []);
                ("gpm_settings", default_settings);
                ("gpm_pinnedChats", JObj []) ].

(** ** Import and export *)

(** [data.key] for a parsed blob: reading a property of [null] throws, any
    other value that is not an object has no such property. *)
Definition prop (key : string) (data : json) : M (option json) :=
  match data with
  | JNull => throw
  | JObj fields => ret (assoc key fields)
  | _ => ret None
  end.

(** [if (data.key) await _set(key, data.key)] *)
Definition import_key (key : string) (data : json) : M unit :=
  do v <- prop key data;
  match v with
  | Some x => if truthy x then _set key x else ret tt
  | None => ret tt
  end.

Section ImportExport.

(** [JSON.stringify] and [JSON.parse] are the host's; [None] is the
    [SyntaxError] of a malformed text. *)
Variable JSON_stringify : json -> string.
Variable JSON_parse : string -> option json.

Definition exportAll : M string :=
  do projects <- getProjects;
  do chatMap <- getChatMap;
  do quickPrompts <- getQuickPrompts;
  do settings <- getSettings;
  ret (JSON_stringify (JObj [ ("gpm_projects", projects);
                              ("gpm_chatMap", chatMap);
                              ("gpm_quickPrompts", quickPrompts);
                              ("gpm_settings", settings) ])).

Definition importAll (jsonString : string) : M unit :=
  do data <- lift (JSON_parse jsonString);
  import_key "gpm_projects" data ;;
  import_key "gpm_chatMap" data ;;
  import_key "gpm_quickPrompts" data ;;
  import_key "gpm_settings" data.

End ImportExport.

(** ** The data schema of storage.js, as records *)

(** [Project: { id, name, icon, color, parentId: null|string, children,
    chatIds, collapsed }], with the [order] key the drop handler adds. *)
Record Project : Type := mkProject {
  proj_id : string;
  proj_name : string;
  proj_icon : string;
  proj_color : string;
  proj_parentId : option string;
  proj_children : list string;
  proj_chatIds : list string;
  proj_collapsed : bool;
  proj_order : option Z
}.

(** [gpm_chatMap: { [chatId]: { projectId, alias, pinned } }] *)
Record ChatMapping : Type := mkMapping {
  map_projectId : string;
  map_alias : string;
  map_pinned : bool
}.

Definition of_strings (l : list string) : json := JArr (JStr <$> l).

Definition of_project (p : Project) : json :=
  JObj ([ ("id", JStr (proj_id p));
          ("name", JStr (proj_name p));
          ("icon", JStr (proj_icon p));
          ("color", JStr (proj_color p));
          ("parentId", from_option JStr JNull (proj_parentId p));
          ("children", of_strings (proj_children p));
          ("chatIds", of_strings (proj_chatIds p));
          ("collapsed", JBool (proj_collapsed p)) ]
        ++ from_option (fun n => [("order", JNum n)]) [] (proj_order p)).

Definition of_projects (ps : list Project) : json := JArr (of_project <$> ps).

Definition of_mapping (m : ChatMapping) : json :=
  JObj [ ("projectId", JStr (map_projectId m));
         ("alias", JStr (map_alias m));
         ("pinned", JBool (map_pinned m)) ].

Definition of_chatMap (cm : gmap string ChatMapping) : json :=
  JObj (prod_map id of_mapping <$> map_to_list cm).

Definition as_str (v : option json) : option string :=
  match v with Some (JStr s) => Some s | _ => None end.

Definition as_bool (v : option json) : option bool :=
  match v with Some (JBool b) => Some b | _ => None end.

(** [null] and [undefined] both read as no parent. *)
Definition as_parent (v : option json) : option (option string) :=
  match v with
  | Some (JStr s) => Some (Some s)
  | Some JNull | None => Some None
  | _ => None
  end.

Definition as_order (v : option json) : option (option Z) :=
  match v with
  | Some (JNum n) => Some (Some n)
  | None => Some None
  | _ => None
  end.

Definition as_strings (v : option json) : option (list string) :=
  match v with
  | Some (JArr xs) => mapM (fun x => as_str (Some x)) xs
  | _ => None
  end.

Definition as_project (v : json) : option Project :=
  match v with
  | JObj f =>
      i ← as_str (assoc "id" f);
      n ← as_str (assoc "name" f);
      ic ← as_str (assoc "icon" f);
      co ← as_str (assoc "color" f);
      pa ← as_parent (assoc "parentId" f);
      ch ← as_strings (assoc "children" f);
      cs ← as_strings (assoc "chatIds" f);
      cl ← as_bool (assoc "collapsed" f);
      o ← as_order (assoc "order" f);
      Some (mkProject i n ic co pa ch cs cl o)
  | _ => None
  end.

Definition as_projects (v : json) : option (list Project) :=
  match v with
  | JArr xs => mapM as_project xs
  | _ => None
  end.

Definition as_mapping (v : json) : option ChatMapping :=
  match v with
  | JObj f =>
      p ← as_str (assoc "projectId" f);
      a ← as_str (assoc "alias" f);
      pn ← as_bool (assoc "pinned" f);
      Some (mkMapping p a pn)
  | _ => None
  end.

Definition as_chatMap (v : json) : option (gmap string ChatMapping) :=
  match v with
  | JObj f =>
      l ← mapM (fun kv => m ← as_mapping kv.2; Some (kv.1, m)) f;
      Some (list_to_map l)
  | _ => None
  end.

(** [getProjects()] and [getChatMap()] read at the types of the schema; a
    store that does not follow the schema makes the caller fail. *)
Definition readProjects : M (list Project) :=
  do v <- getProjects; lift (as_projects v).

Definition readChatMap : M (gmap string ChatMapping) :=
  do v <- getChatMap; lift (as_chatMap v).

Definition writeProjects (ps : list Project) : M unit :=
  saveProjects (of_projects ps).

Definition writeChatMap (cm : gmap string ChatMapping) : M unit :=
  saveChatMap (of_chatMap cm).

(** ** JavaScript idioms on arrays of projects *)

(** [if (s)] on [null|string]: [null] and the empty string are falsy. *)
Definition truthy_id (s : option string) : bool :=
  match s with
  | Some x => negb (String.eqb x "")
  | None => false
  end.

Definition has_id (pid : string) (p : Project) : bool :=
  bool_decide (proj_id p = pid).

(** [projects.find(p => p.id === pid)] *)
Definition find_project (pid : string) (ps : list Project) : option Project :=
  List.find (has_id pid) ps.

(** [const x = projects.find(p => p.id === pid); if (x) x.field = ...]: the
    found element is an object of the array, which the assignment changes in
    place. *)
Fixpoint modify_first (pid : string) (f : Project -> Project)
    (ps : list Project) : list Project :=
  match ps with
  | [] => []
  | p :: rest =>
      if has_id pid p then f p :: rest else p :: modify_first pid f rest
  end.

Definition set_children (cs : list string) (p : Project) : Project :=
  mkProject (proj_id p) (proj_name p) (proj_icon p) (proj_color p)
    (proj_parentId p) cs (proj_chatIds p) (proj_collapsed p) (proj_order p).

Definition set_chatIds (cs : list string) (p : Project) : Project :=
  mkProject (proj_id p) (proj_name p) (proj_icon p) (proj_color p)
    (proj_parentId p) (proj_children p) cs (proj_collapsed p) (proj_order p).

Definition set_parentId (pa : option string) (p : Project) : Project :=
  mkProject (proj_id p) (proj_name p) (proj_icon p) (proj_color p)
    pa (proj_children p) (proj_chatIds p) (proj_collapsed p) (proj_order p).

(** [l.filter(c => c !== x)] *)
Definition without (x : string) (l : list string) : list string :=
  filter (fun c => c ≠ x) l.

(** [l.includes(x)] *)
Definition includes (x : string) (l : list string) : bool :=
  bool_decide (x ∈ l).

(** [p.children.push(c)] *)
Definition push_child (c : string) (p : Project) : Project :=
  set_children (proj_children p ++ [c]) p.

(** [p.children = p.children.filter(c => c !== x)] *)
Definition drop_child (x : string) (p : Project) : Project :=
  set_children (without x (proj_children p)) p.

(** [p.chatIds = p.chatIds.filter(c => c !== x)] *)
Definition drop_chat (x : string) (p : Project) : Project :=
  set_chatIds (without x (proj_chatIds p)) p.

(** [if (!p.chatIds.includes(c)) p.chatIds.push(c)] *)
Definition add_chat (c : string) (p : Project) : Project :=
  if includes c (proj_chatIds p) then p
  else set_chatIds (proj_chatIds p ++ [c]) p.

(** ** storage.js: projects *)

(** [id] is the value [uid()] returns for this call. *)
Definition createProject (id name icon color : string)
    (parentId : option string) : M Project :=
  do projects <- readProjects;
  let project := mkProject id name icon color parentId [] [] false None in
  let projects := projects ++ [project] in
  let projects :=
    if truthy_id parentId
    then modify_first (default "" parentId) (push_child id) projects
    else projects in
  writeProjects projects ;;
  ret (default project (last projects)).

(** The [updates] object of [updateProject]: the keys it carries. *)
Record ProjectUpdates : Type := mkUpdates {
  upd_id : option string;
  upd_name : option string;
  upd_icon : option string;
  upd_color : option string;
  upd_parentId : option (option string);
  upd_children : option (list string);
  upd_chatIds : option (list string);
  upd_collapsed : option bool;
  upd_order : option Z
}.

(** [Object.assign(p, updates)] *)
Definition assign (u : ProjectUpdates) (p : Project) : Project :=
  mkProject (default (proj_id p) (upd_id u))
            (default (proj_name p) (upd_name u))
            (default (proj_icon p) (upd_icon u))
            (default (proj_color p) (upd_color u))
            (default (proj_parentId p) (upd_parentId u))
            (default (proj_children p) (upd_children u))
            (default (proj_chatIds p) (upd_chatIds u))
            (default (proj_collapsed p) (upd_collapsed u))
            (match upd_order u with Some n => Some n | None => proj_order p end).

Definition updateProject (id : string) (updates : ProjectUpdates)
    : M (option Project) :=
  do projects <- readProjects;
  match find_project id projects with
  | None => ret None
  | Some p =>
      writeProjects (modify_first id (assign updates) projects) ;;
      ret (Some (assign updates p))
  end.

(** The recursion of [collectDescendants] follows the [children] arrays and
    has no bound of its own; [fuel] is the depth the call stack allows, and
    [None] is its overflow. *)
Fixpoint collectDescendants (fuel : nat) (projects : list Project)
    (pid : string) : option (list string) :=
  match fuel with
  | O => None
  | S fuel' =>
      match find_project pid projects with
      | None => Some [pid]
      | Some node =>
          (fix loop (cs : list string) (ids : list string) {struct cs} :=
             match cs with
             | [] => Some ids
             | childId :: cs' =>
                 match collectDescendants fuel' projects childId with
                 | Some d => loop cs' (ids ++ d)
                 | None => None
                 end
             end) (proj_children node) [pid]
      end
  end.

Definition deleteProject (fuel : nat) (id : string) : M unit :=
  do projects <- readProjects;
  do chatMap <- readChatMap;
  do ids <- lift (collectDescendants fuel projects id);
  let toDelete : gset string := list_to_set ids in
  let chatMap :=
    filter (fun kv => map_projectId kv.2 ∉ toDelete) chatMap in
  let projects :=
    match find_project id projects with
    | Some target =>
        if truthy_id (proj_parentId target)
        then modify_first (default "" (proj_parentId target)) (drop_child id) projects
        else projects
    | None => projects
    end in
  let projects := filter (fun p => proj_id p ∉ toDelete) projects in
  writeProjects projects ;;
  writeChatMap chatMap.

Definition getRootProjects (projects : list Project) : list Project :=
  filter (fun p => truthy_id (proj_parentId p) = false) projects.

Definition getChildren (projects : list Project) (parentId : option string)
    : list Project :=
  filter (fun p => proj_parentId p = parentId) projects.

(** ** storage.js: chat map

    [chatMap] is a plain object, held here as the map of its own entries.
    A plain object also has the properties it inherits from
    [Object.prototype], under the names below.  For such a name without an
    entry, [chatMap[k]] is the inherited value: it is truthy, and it has no
    [projectId]; it has no [alias] and no [pinned] either until the program
    writes one to it, and the operations below take it as it is before
    that.  The
    assignment [chatMap["__proto__"] = v], when the map has no entry of
    that name, goes to the inherited setter: it stores no entry. *)

Definition prototype_keys : list string :=
  [ "constructor"; "__defineGetter__"; "__defineSetter__"; "hasOwnProperty";
    "__lookupGetter__"; "__lookupSetter__"; "isPrototypeOf";
    "propertyIsEnumerable"; "toString"; "valueOf"; "__proto__";
    "toLocaleString" ].

(** [k] names a property every plain object inherits. *)
Definition inherited (k : string) : bool :=
  bool_decide (k ∈ prototype_keys).

(** [chatMap[chatId] = v] *)
Definition set_entry (chatId : string) (v : ChatMapping)
    (chatMap : gmap string ChatMapping) : gmap string ChatMapping :=
  match chatMap !! chatId with
  | Some _ => <[chatId := v]> chatMap
  | None =>
      if String.eqb chatId "__proto__" then chatMap
      else <[chatId := v]> chatMap
  end.

Definition assignChat (chatId projectId : string) : M unit :=
  do chatMap <- readChatMap;
  do projects <- readProjects;
  let old := chatMap !! chatId in
  let projects :=
    match old with
    | Some m => modify_first (map_projectId m) (drop_chat chatId) projects
    | None => projects
    end in
  let chatMap :=
    set_entry chatId (mkMapping projectId (from_option map_alias "" old)
                                (from_option map_pinned false old)) chatMap in
  let projects := modify_first projectId (add_chat chatId) projects in
  writeProjects projects ;;
  writeChatMap chatMap.

Definition unassignChat (chatId : string) : M unit :=
  do chatMap <- readChatMap;
  do projects <- readProjects;
  let projects :=
    match chatMap !! chatId with
    | Some m => modify_first (map_projectId m) (drop_chat chatId) projects
    | None => projects
    end in
  let chatMap := delete chatId chatMap in
  writeProjects projects ;;
  writeChatMap chatMap.

(** For an inherited name without an entry the alias is written to the
    inherited value, and the map is saved as it is. *)
Definition setChatAlias (chatId alias : string) : M unit :=
  do chatMap <- readChatMap;
  match chatMap !! chatId with
  | Some m =>
      writeChatMap (<[chatId := mkMapping (map_projectId m) alias (map_pinned m)]> chatMap)
  | None => if inherited chatId then writeChatMap chatMap else ret tt
  end.

(** For an inherited name without an entry the pin is written to the
    inherited value ([!undefined] is [true]), and the map is saved as it
    is. *)
Definition togglePinChat (chatId : string) : M bool :=
  do chatMap <- readChatMap;
  match chatMap !! chatId with
  | Some m =>
      let pinned := negb (map_pinned m) in
      writeChatMap (<[chatId := mkMapping (map_projectId m) (map_alias m) pinned]> chatMap) ;;
      ret pinned
  | None =>
      if inherited chatId then writeChatMap chatMap ;; ret true
      else ret false
  end.

(** ** storage.js: quick prompts

    Quick prompts are handled as the stored values they are; a stored value
    that is not an array makes the array method throw. *)

(** [p.id === id] for a [p] that is not [null]: a value that is not an
    object has no [id]. *)
Definition has_prop_id (id : string) (p : json) : bool :=
  match p with
  | JObj f => match assoc "id" f with
              | Some (JStr s) => String.eqb s id
              | _ => false
              end
  | _ => false
  end.

(** [p.id === id] for an element of the stored array: reading a property
    of [null] throws a [TypeError]. *)
Definition id_is (id : string) (p : json) : option bool :=
  match p with
  | JNull => None
  | _ => Some (has_prop_id id p)
  end.

(** [target[k] = v] on the own properties of an object: the value of an
    existing key is replaced in place, a new key comes last. *)
Fixpoint set_prop (k : string) (v : json) (f : list (string * json))
    : list (string * json) :=
  match f with
  | [] => [(k, v)]
  | (k', v') :: rest =>
      if String.eqb k k' then (k, v) :: rest else (k', v') :: set_prop k v rest
  end.

(** [target[k] = v] as an assignment: under the key [__proto__], where the
    object has no property of its own, it goes to the inherited setter and
    adds no property. *)
Definition assign_prop (k : string) (v : json) (f : list (string * json))
    : list (string * json) :=
  match assoc k f with
  | Some _ => set_prop k v f
  | None => if String.eqb k "__proto__" then f else set_prop k v f
  end.

(** [Object.assign(target, updates)], where [updates] is an object, given
    by its own properties: they overwrite or extend those of [target]. *)
Definition object_assign (target : json) (updates : list (string * json))
    : json :=
  match target with
  | JObj f => JObj (foldl (fun acc kv => assign_prop kv.1 kv.2 acc) f updates)
  | _ => target
  end.

(** [const idx = prompts.findIndex(p => p.id === id);
    if (idx !== -1) Object.assign(prompts[idx], updates)]: the search reads
    the elements up to the first one with the id. *)
Fixpoint assign_first (id : string) (updates : list (string * json))
    (xs : list json) : option (list json) :=
  match xs with
  | [] => Some []
  | p :: rest =>
      b ← id_is id p;
      if (b : bool) then Some (object_assign p updates :: rest)
      else ys ← assign_first id updates rest; Some (p :: ys)
  end.

(** [prompts.filter(p => p.id !== id)]: the filter reads every element. *)
Fixpoint filter_out (id : string) (xs : list json) : option (list json) :=
  match xs with
  | [] => Some []
  | p :: rest =>
      b ← id_is id p;
      ys ← filter_out id rest;
      Some (if (b : bool) then ys else p :: ys)
  end.

(** [id] is the value [uid()] returns for this call. *)
Definition saveQuickPrompt (id title content category : string) : M unit :=
  do prompts <- getQuickPrompts;
  match prompts with
  | JArr xs =>
      _set "gpm_quickPrompts"
        (JArr (xs ++ [JObj [ ("id", JStr id); ("title", JStr title);
                             ("content", JStr content);
                             ("category", JStr category) ]]))
  | _ => throw
  end.

Definition deleteQuickPrompt (id : string) : M unit :=
  do prompts <- getQuickPrompts;
  match prompts with
  | JArr xs =>
      do prompts <- lift (filter_out id xs);
      _set "gpm_quickPrompts" (JArr prompts)
  | _ => throw
  end.

(** [updates] is the object the caller passes, given by its own
    properties. *)
Definition updateQuickPrompt (id : string) (updates : list (string * json))
    : M unit :=
  do prompts <- getQuickPrompts;
  match prompts with
  | JArr xs =>
      do prompts <- lift (assign_first id updates xs);
      _set "gpm_quickPrompts" (JArr prompts)
  | _ => throw
  end.

(** ** content.js: what [gpmRenderTree] writes

    The part of a render pass that touches the store: alias backfill and
    orphan clean-up, up to the last [saveChatMap].  What follows in the
    source builds DOM nodes from [projects] and [chatMap] and writes
    nothing. *)

(** A sidebar anchor matched by [a[href^="/app/"]]. *)
Record Link : Type := mkLink {
  href : string;
  textContent : string
}.

Definition code (a : Ascii.ascii) : Z := Z.of_N (Ascii.N_of_ascii a).

(** The class [[a-zA-Z0-9_-]]. *)
Definition is_id_char (a : Ascii.ascii) : bool :=
  let n := code a in
  ((97 <=? n) && (n <=? 122)) || ((65 <=? n) && (n <=? 90))
  || ((48 <=? n) && (n <=? 57)) || (n =? 95) || (n =? 45).

Fixpoint take_id (s : string) : string :=
  match s with
  | String a rest => if is_id_char a then String a (take_id rest) else ""
  | EmptyString => ""
  end.

Fixpoint strip_prefix (pre s : string) : option string :=
  match pre with
  | EmptyString => Some s
  | String a pre' =>
      match s with
      | String b s' => if Ascii.eqb a b then strip_prefix pre' s' else None
      | EmptyString => None
      end
  end.

(** [href.match(/^\/app\/([a-zA-Z0-9_-]+)/)], the captured group. *)
Definition match_app_id (h : string) : option string :=
  match strip_prefix "/app/" h with
  | Some rest =>
      let cid := take_id rest in
      if String.eqb cid "" then None else Some cid
  | None => None
  end.

(** The white space and the line terminators [String.prototype.trim]
    strips.  In one byte: U+0009 to U+000D and U+0020. *)
Definition is_space (a : Ascii.ascii) : bool :=
  let n := code a in
  ((9 <=? n) && (n <=? 13)) || (n =? 32).

(** In two bytes: U+00A0. *)
Definition is_space2 (a b : Ascii.ascii) : bool :=
  (code a =? 194) && (code b =? 160).

(** In three bytes: U+1680, U+2000 to U+200A, U+2028, U+2029, U+202F,
    U+205F, U+3000 and U+FEFF. *)
Definition is_space3 (a b c : Ascii.ascii) : bool :=
  ((code a =? 225) && (code b =? 154) && (code c =? 128))
  || ((code a =? 226) && (code b =? 128)
      && (((128 <=? code c) && (code c <=? 138))
          || (code c =? 168) || (code c =? 169) || (code c =? 175)))
  || ((code a =? 226) && (code b =? 129) && (code c =? 159))
  || ((code a =? 227) && (code b =? 128) && (code c =? 128))
  || ((code a =? 239) && (code b =? 187) && (code c =? 191)).

Fixpoint trim_start (s : string) : string :=
  match s with
  | String a rest =>
      if is_space a then trim_start rest
      else
        match rest with
        | String b rest2 =>
            if is_space2 a b then trim_start rest2
            else
              match rest2 with
              | String c rest3 =>
                  if is_space3 a b c then trim_start rest3 else s
              | EmptyString => s
              end
        | EmptyString => s
        end
  | EmptyString => ""
  end.

(** The white space that starts at the first byte of [s] is dropped when
    nothing but white space follows it. *)
Fixpoint trim_end (s : string) : string :=
  match s with
  | String a rest =>
      let keep := String a (trim_end rest) in
      if is_space a
      then if String.eqb (trim_end rest) "" then "" else keep
      else
        match rest with
        | String b rest2 =>
            if is_space2 a b
            then if String.eqb (trim_end rest2) "" then "" else keep
            else
              match rest2 with
              | String c rest3 =>
                  if is_space3 a b c
                  then if String.eqb (trim_end rest3) "" then "" else keep
                  else keep
              | EmptyString => keep
              end
        | EmptyString => keep
        end
  | EmptyString => ""
  end.

Definition trim (s : string) : string := trim_end (trim_start s).

(** The loop over [sidebarLinks]: one link. *)
Definition backfill_link
    (st : gmap string ChatMapping * gset string * bool) (link : Link)
    : gmap string ChatMapping * gset string * bool :=
  let '(chatMap, activeChatIds, aliasUpdated) := st in
  match match_app_id (href link) with
  | None => st
  | Some cid =>
      let activeChatIds := {[cid]} ∪ activeChatIds in
      match chatMap !! cid with
      | Some m =>
          let title := trim (textContent link) in
          if String.eqb (map_alias m) ""
             && negb (String.eqb title "") && negb (String.eqb title cid)
          then (<[cid := mkMapping (map_projectId m) title (map_pinned m)]> chatMap,
                activeChatIds, true)
          else (chatMap, activeChatIds, aliasUpdated)
      | None => (chatMap, activeChatIds, aliasUpdated)
      end
  end.

(** The loop over [Object.entries(chatMap)]: one entry. *)
Definition cleanup_entry (activeChatIds : gset string)
    (st : list Project * gmap string ChatMapping * bool)
    (entry : string * ChatMapping)
    : list Project * gmap string ChatMapping * bool :=
  let '(projects, chatMap, cleanupNeeded) := st in
  let '(cid, mapping) := entry in
  if bool_decide (cid ∈ activeChatIds) then st
  else (modify_first (map_projectId mapping) (drop_chat cid) projects,
        delete cid chatMap, true).

Definition gpmRenderTree (gpmContainer : bool) (sidebarLinks : list Link)
    : M unit :=
  if negb gpmContainer then ret tt else
  do projects <- readProjects;
  do chatMap <- readChatMap;
  let '(chatMap, activeChatIds, aliasUpdated) :=
    foldl backfill_link (chatMap, ∅, false) sidebarLinks in
  if bool_decide (activeChatIds ≠ ∅) then
    let '(projects, chatMap, cleanupNeeded) :=
      foldl (cleanup_entry activeChatIds) (projects, chatMap, false)
            (map_to_list chatMap) in
    if cleanupNeeded then
      writeProjects projects ;;
      writeChatMap chatMap
    else if aliasUpdated then writeChatMap chatMap else ret tt
  else if aliasUpdated then writeChatMap chatMap else ret tt.

(** ** content.js: a project dropped on a project row

    The [drop] listener of [gpmCreateProjectRow], for a drag that carries a
    project id, in the [center] zone.  [project] and [allProjects] are the
    objects the row was rendered from: the listener closes over them, and
    they are not the objects a later [getProjects()] returns. *)

(** The upward walk along [parentId]; it has no bound of its own, [fuel] is
    the depth the call stack allows. *)
Fixpoint isDescendant (fuel : nat) (allProjects : list Project)
    (parentId childId : string) : option bool :=
  match fuel with
  | O => None
  | S fuel' =>
      match find_project childId allProjects with
      | None => Some false
      | Some p =>
          if bool_decide (proj_parentId p = Some parentId) then Some true
          else if truthy_id (proj_parentId p)
          then isDescendant fuel' allProjects parentId (default "" (proj_parentId p))
          else Some false
      end
  end.

(** Returns the row's own [project] object as the listener leaves it. *)
Definition dropProjectCenter (fuel : nat) (allProjects : list Project)
    (project : Project) (droppedProjectId : string) : M Project :=
  if negb (String.eqb droppedProjectId "")
     && negb (String.eqb droppedProjectId (proj_id project))
  then
    do inside <- lift (isDescendant fuel allProjects droppedProjectId (proj_id project));
    if (inside : bool) then ret project else
    do projects <- readProjects;
    match find_project droppedProjectId projects with
    | None => ret project
    | Some droppedProject =>
        let projects :=
          if truthy_id (proj_parentId droppedProject)
          then modify_first (default "" (proj_parentId droppedProject))
                            (drop_child droppedProjectId) projects
          else projects in
        let projects :=
          modify_first droppedProjectId (set_parentId (Some (proj_id project)))
                       projects in
        let project :=
          if includes droppedProjectId (proj_children project) then project
          else push_child droppedProjectId project in
        writeProjects projects ;;
        ret project
    end
  else ret project.

(** ** content.js: the pending assignment of [gpmObserveNewChats] *)

Record Pending : Type := mkPending {
  pend_projectId : string;
  pend_ts : Z
}.

(** [gpmPendingChatAssignment] and the [lastChatId] of the poller. *)
Record Observer : Type := mkObserver {
  gpmPendingChatAssignment : option Pending;
  lastChatId : option string
}.

(** What a tick asks of the rest of the program. *)
Inductive Effect : Type :=
  | AutoAssign (chatId projectId : string)
  | Render.

(** The context-menu action "new chat in project", at time [now]. *)
Definition newChatInProject (projectId : string) (now : Z) (o : Observer)
    : Observer :=
  mkObserver (Some (mkPending projectId now)) (lastChatId o).

(** One run of the 500 ms poller; [id] is [gpmGetCurrentChatId()]. *)
Definition pollTick (id : option string) (o : Observer)
    : Observer * list Effect :=
  let '(o, effects) :=
    if truthy_id id && negb (bool_decide (id = lastChatId o)) then
      match gpmPendingChatAssignment o with
      | Some pending =>
          (mkObserver None id,
           [AutoAssign (default "" id) (pend_projectId pending)])
      | None => (mkObserver None id, [Render])
      end
    else (o, []) in
  if negb (truthy_id id) && truthy_id (lastChatId o)
  then (mkObserver (gpmPendingChatAssignment o) None, effects)
  else (o, effects).

(** One run of the 5000 ms sweeper at time [now] ([Date.now()]). *)
Definition sweepTick (now : Z) (o : Observer) : Observer :=
  match gpmPendingChatAssignment o with
  | Some pending =>
      if negb (pend_ts pending =? 0) && (120000 <? now - pend_ts pending)
      then mkObserver None (lastChatId o)
      else o
  | None => o
  end.

(** Timer events, each with the time it fires at. *)
Inductive Event : Type :=
  | Poll (now : Z) (id : option string)
  | Sweep (now : Z).

Definition step (o : Observer) (e : Event) : Observer * list Effect :=
  match e with
  | Poll _ id => pollTick id o
  | Sweep now => (sweepTick now o, [])
  end.

Fixpoint run (o : Observer) (events : list Event) : Observer * list Effect :=
  match events with
  | [] => (o, [])
  | e :: rest =>
      let '(o1, effects1) := step o e in
      let '(o2, effects2) := run o1 rest in
      (o2, effects1 ++ effects2)
  end.

(** ** Reading a world at the types of the schema *)

Definition projects_of (w : World) : option (list Project) :=
  as_projects (js_or (storage w !! "gpm_projects") (JArr [])).

Definition chatMap_of (w : World) : option (gmap string ChatMapping) :=
  as_chatMap (js_or (storage w !! "gpm_chatMap") (JObj [])).

(** The world after one [_set]. *)
Definition put (key : string) (value : json) (w : World) : World :=
  mkWorld (<[key := value]> (storage w)) (outbox w ++ [GPM_STORAGE_UPDATED]).

(** The value a getter returns in a world. *)
Definition value_of {A} (m : M A) (w : World) : option A :=
  match m w with Some (a, _) => Some a | None => None end.

(** The object [exportAll] hands to [JSON.stringify]. *)
Definition export_blob (w : World) : json :=
  JObj [ ("gpm_projects", js_or (storage w !! "gpm_projects") (JArr []));
         ("gpm_chatMap", js_or (storage w !! "gpm_chatMap") (JObj []));
         ("gpm_quickPrompts", js_or (storage w !! "gpm_quickPrompts") (JArr []));
         ("gpm_settings", js_or (storage w !! "gpm_settings") default_settings) ].

Definition import_keys : list string :=
  ["gpm_projects"; "gpm_chatMap"; "gpm_quickPrompts"; "gpm_settings"].

(** The store holds nothing under [key], or a falsy value: the getter of
    the key returns its default. *)
Definition unset (key : string) (w : World) : Prop :=
  match storage w !! key with
  | Some v => truthy v = false
  | None => True
  end.

(** ** The chat-assignment invariant *)

Definition occurrences (c : string) (l : list string) : nat :=
  length (filter (fun x => x = c) l).

(** [pid] resolves, the way [projects.find] resolves it, to a project that
    lists [c] exactly once, and no project at another place lists [c]. *)
Definition owned_by (ps : list Project) (c pid : string) : Prop :=
  exists l1 p l2,
    ps = l1 ++ p :: l2 /\
    find_project pid l1 = None /\
    proj_id p = pid /\
    occurrences c (proj_chatIds p) = 1%nat /\
    (forall q, q ∈ l1 ++ l2 -> c ∉ proj_chatIds q).

Definition chat_invariant (ps : list Project)
    (cm : gmap string ChatMapping) : Prop :=
  forall c m, cm !! c = Some m -> owned_by ps c (map_projectId m).

Definition invariant (w : World) : Prop :=
  exists ps cm,
    projects_of w = Some ps /\ chatMap_of w = Some cm /\ chat_invariant ps cm.

(** Every chat id a project lists has an entry in [chatMap]. *)
Definition no_stray_chats (ps : list Project)
    (cm : gmap string ChatMapping) : Prop :=
  forall q c, q ∈ ps -> c ∈ proj_chatIds q -> is_Some (cm !! c).

(** The invariant together with its converse. *)
Definition consistent (w : World) : Prop :=
  exists ps cm,
    projects_of w = Some ps /\ chatMap_of w = Some cm /\
    chat_invariant ps cm /\ no_stray_chats ps cm.

(** [p] is the id of a stored project. *)
Definition has_project (p : string) (w : World) : Prop :=
  exists ps q, projects_of w = Some ps /\ find_project p ps = Some q.

(** An operation returns and leaves a consistent world. *)
Definition keeps_consistent {A} (m : M A) (w : World) : Prop :=
  exists a w', m w = Some (a, w') /\ consistent w'.

(** Two records with the same id that list the chat [c] equally often. *)
Definition agree_on (c : string) (x y : Project) : Prop :=
  proj_id y = proj_id x /\
  occurrences c (proj_chatIds y) = occurrences c (proj_chatIds x).

(** ** The project tree *)

(** [b] is listed in the [children] of the project [a] resolves to. *)
Definition child_of (ps : list Project) (a b : string) : Prop :=
  exists p, find_project a ps = Some p /\ b ∈ proj_children p.

(** [a] itself and everything below it along [children]. *)
Inductive descendant (ps : list Project) : string -> string -> Prop :=
  | descendant_self a : descendant ps a a
  | descendant_child a b c :
      child_of ps a b -> descendant ps b c -> descendant ps a c.

(** A collection that forms a tree: ids are distinct and, as [uid()] makes
    them, not empty; [children] lists exactly the projects whose [parentId]
    is this id; no project is below one of its own children. *)
Record is_tree (ps : list Project) : Prop := mk_is_tree {
  tree_ids_distinct : NoDup (proj_id <$> ps);
  tree_ids_nonempty : forall p, p ∈ ps -> proj_id p <> "";
  tree_children :
    forall p c, p ∈ ps ->
      (c ∈ proj_children p <->
       exists q, q ∈ ps /\ proj_id q = c /\ proj_parentId q = Some (proj_id p));
  tree_acyclic : forall a b, child_of ps a b -> ~ descendant ps b a
}.

(** What the renderer reaches: the roots, and below a reached project the
    projects [gpmCreateProjectRow] filters by [parentId]. *)
Inductive rendered (ps : list Project) : Project -> Prop :=
  | rendered_root p : p ∈ getRootProjects ps -> rendered ps p
  | rendered_child q p :
      rendered ps q -> p ∈ getChildren ps (Some (proj_id q)) -> rendered ps p.

(** The chat ids visible in the sidebar: [activeChatIds] after the loop. *)
Definition visible_chat_ids (sidebarLinks : list Link) : gset string :=
  list_to_set (omap (fun l => match_app_id (href l)) sidebarLinks).

(** No [AutoAssign] among the effects. *)
Definition is_auto_assign (e : Effect) : bool :=
  match e with AutoAssign _ _ => true | Render => false end.

(** ** What the operations compute on a well-formed store *)

(** The first step of [assignChat] and [unassignChat]: take the chat out of
    the project its mapping names. *)
Definition unlink_chat (c : string) (cm : gmap string ChatMapping)
    (ps : list Project) : list Project :=
  match cm !! c with
  | Some m => modify_first (map_projectId m) (drop_chat c) ps
  | None => ps
  end.

Definition assignChat_projects (c p : string) (ps : list Project)
    (cm : gmap string ChatMapping) : list Project :=
  modify_first p (add_chat c) (unlink_chat c cm ps).

Definition assignChat_chatMap (c p : string) (cm : gmap string ChatMapping)
    : gmap string ChatMapping :=
  set_entry c (mkMapping p (from_option map_alias "" (cm !! c))
                         (from_option map_pinned false (cm !! c))) cm.

Definition createProject_projects (id name icon color : string)
    (parentId : option string) (ps : list Project) : list Project :=
  let ps' := ps ++ [mkProject id name icon color parentId [] [] false None] in
  if truthy_id parentId
  then modify_first (default "" parentId) (push_child id) ps'
  else ps'.

(** The detaching step of [deleteProject]. *)
Definition detach (id : string) (ps : list Project) : list Project :=
  match find_project id ps with
  | Some target =>
      if truthy_id (proj_parentId target)
      then modify_first (default "" (proj_parentId target)) (drop_child id) ps
      else ps
  | None => ps
  end.

Definition deleteProject_projects (ids : list string) (id : string)
    (ps : list Project) : list Project :=
  filter (fun p => proj_id p ∉ (list_to_set ids : gset string)) (detach id ps).

Definition deleteProject_chatMap (ids : list string)
    (cm : gmap string ChatMapping) : gmap string ChatMapping :=
  filter (fun kv => map_projectId kv.2 ∉ (list_to_set ids : gset string)) cm.

(** The world [importAll] leaves for one key of a parsed object. *)
Definition imported (key : string) (fields : list (string * json))
    (w : World) : World :=
  match assoc key fields with
  | Some x => if truthy x then put key x w else w
  | None => w
  end.

(** After an operation, either nothing is written or a message is sent. *)
Definition notified (w w' : World) : Prop :=
  w' = w \/ exists rest, outbox w' = outbox w ++ GPM_STORAGE_UPDATED :: rest.

Definition notifying {A} (m : M A) : Prop :=
  forall w a w', m w = Some (a, w') -> notified w w'.

(** ** A JSON text format

    The text [JSON.stringify(v, null, 2)] gives for a stored value, and a
    reader of JSON texts: one pair of [JSON_stringify] and [JSON_parse], to
    run [exportAll] and [importAll] on concrete stores.  The numbers of
    [json] are the integers: a text with a number that is not an integer,
    or with the escape of a surrogate that has no partner, denotes no value
    of [json], and the reader gives nothing for it. *)

Definition dquote : Ascii.ascii := Ascii.ascii_of_N 34.
Definition bslash : Ascii.ascii := Ascii.ascii_of_N 92.
Definition byte (n : Z) : Ascii.ascii := Ascii.ascii_of_N (Z.to_N n).
Definition newline : string := String (byte 10) "".

Definition hex_char (n : Z) : Ascii.ascii :=
  byte (if n <? 10 then 48 + n else 87 + n).

(** [QuoteJSONString], for one character: the quote, the backslash and the
    control characters are escaped. *)
Definition escape_char (a : Ascii.ascii) : string :=
  let n := code a in
  if n =? 34 then String bslash (String dquote "")
  else if n =? 92 then String bslash (String bslash "")
  else if n =? 8 then String bslash "b"
  else if n =? 9 then String bslash "t"
  else if n =? 10 then String bslash "n"
  else if n =? 12 then String bslash "f"
  else if n =? 13 then String bslash "r"
  else if n <? 32
  then String bslash
         ("u00" +:+ String (hex_char (n / 16)) (String (hex_char (n mod 16)) ""))
  else String a "".

Fixpoint escape (s : string) : string :=
  match s with
  | EmptyString => ""
  | String a rest => escape_char a +:+ escape rest
  end.

Definition print_str (s : string) : string :=
  String dquote (escape s +:+ String dquote "").

(** [ind] is the indentation of the line the value starts on. *)
Fixpoint print_value (ind : string) (v : json) : string :=
  match v with
  | JNull => "null"
  | JBool true => "true"
  | JBool false => "false"
  | JNum n => pretty n
  | JStr s => print_str s
  | JArr xs =>
      match xs with
      | [] => "[]"
      | _ =>
          "[" +:+ newline +:+
          (fix elems (l : list json) : string :=
             match l with
             | [] => ""
             | x :: rest =>
                 ind +:+ "  " +:+ print_value (ind +:+ "  ") x +:+
                 match rest with
                 | [] => ""
                 | _ => "," +:+ newline +:+ elems rest
                 end
             end) xs +:+ newline +:+ ind +:+ "]"
      end
  | JObj fs =>
      match fs with
      | [] => "{}"
      | _ =>
          "{" +:+ newline +:+
          (fix members (l : list (string * json)) : string :=
             match l with
             | [] => ""
             | (k, x) :: rest =>
                 ind +:+ "  " +:+ print_str k +:+ ": " +:+
                 print_value (ind +:+ "  ") x +:+
                 match rest with
                 | [] => ""
                 | _ => "," +:+ newline +:+ members rest
                 end
             end) fs +:+ newline +:+ ind +:+ "}"
      end
  end.

Definition json_print (v : json) : string := print_value "" v.

(** The white space of a JSON text. *)
Definition is_ws (a : Ascii.ascii) : bool :=
  let n := code a in
  (n =? 32) || (n =? 9) || (n =? 10) || (n =? 13).

Fixpoint skip_ws (s : string) : string :=
  match s with
  | String a rest => if is_ws a then skip_ws rest else s
  | EmptyString => ""
  end.

Definition starts_with (c : Z) (s : string) : option string :=
  match s with
  | String a rest => if code a =? c then Some rest else None
  | EmptyString => None
  end.

Definition hex_val (a : Ascii.ascii) : option Z :=
  let n := code a in
  if (48 <=? n) && (n <=? 57) then Some (n - 48)
  else if (97 <=? n) && (n <=? 102) then Some (n - 87)
  else if (65 <=? n) && (n <=? 70) then Some (n - 55)
  else None.

Definition hex4 (s : string) : option (Z * string) :=
  match s with
  | String a (String b (String c (String d rest))) =>
      x ← hex_val a; y ← hex_val b; z ← hex_val c; t ← hex_val d;
      Some (((x * 16 + y) * 16 + z) * 16 + t, rest)
  | _ => None
  end.

(** The UTF-8 encoding of a code point. *)
Definition utf8 (cp : Z) : string :=
  if cp <? 128 then String (byte cp) ""
  else if cp <? 2048
  then String (byte (192 + cp / 64)) (String (byte (128 + cp mod 64)) "")
  else if cp <? 65536
  then String (byte (224 + cp / 4096))
         (String (byte (128 + (cp / 64) mod 64))
            (String (byte (128 + cp mod 64)) ""))
  else String (byte (240 + cp / 262144))
         (String (byte (128 + (cp / 4096) mod 64))
            (String (byte (128 + (cp / 64) mod 64))
               (String (byte (128 + cp mod 64)) ""))).

(** The characters an escape sequence stands for; [s] is what follows the
    backslash. *)
Definition parse_escape (s : string) : option (string * string) :=
  match s with
  | String a rest =>
      let n := code a in
      if n =? 34 then Some (String dquote "", rest)
      else if n =? 92 then Some (String bslash "", rest)
      else if n =? 47 then Some ("/", rest)
      else if n =? 98 then Some (String (byte 8) "", rest)
      else if n =? 102 then Some (String (byte 12) "", rest)
      else if n =? 110 then Some (String (byte 10) "", rest)
      else if n =? 114 then Some (String (byte 13) "", rest)
      else if n =? 116 then Some (String (byte 9) "", rest)
      else if n =? 117 then
        '(hi, r) ← hex4 rest;
        if (55296 <=? hi) && (hi <=? 56319) then
          r1 ← starts_with 92 r;
          r2 ← starts_with 117 r1;
          '(lo, r3) ← hex4 r2;
          if (56320 <=? lo) && (lo <=? 57343)
          then Some (utf8 (65536 + (hi - 55296) * 1024 + (lo - 56320)), r3)
          else None
        else if (56320 <=? hi) && (hi <=? 57343) then None
        else Some (utf8 hi, r)
      else None
  | EmptyString => None
  end.

(** The characters of a string literal up to its closing quote. *)
Fixpoint parse_str_body (fuel : nat) (s : string) : option (string * string) :=
  match fuel with
  | O => None
  | S fuel' =>
      match s with
      | EmptyString => None
      | String a rest =>
          if code a =? 34 then Some ("", rest)
          else if code a <? 32 then None
          else if code a =? 92 then
            '(x, r) ← parse_escape rest;
            '(y, r') ← parse_str_body fuel' r;
            Some (x +:+ y, r')
          else '(y, r') ← parse_str_body fuel' rest; Some (String a y, r')
      end
  end.

Definition parse_string (s : string) : option (string * string) :=
  parse_str_body (S (String.length s)) s.

Definition is_digit (a : Ascii.ascii) : bool :=
  (48 <=? code a) && (code a <=? 57).

(** The value of the digits [s] starts with, appended to [acc], and their
    number. *)
Fixpoint parse_digits (acc : Z) (count : nat) (s : string)
    : Z * nat * string :=
  match s with
  | String a rest =>
      if is_digit a
      then parse_digits (10 * acc + (code a - 48)) (S count) rest
      else (acc, count, s)
  | EmptyString => (acc, count, s)
  end.

(** [-? int frac? exp?], where it denotes an integer. *)
Definition parse_number (s : string) : option (Z * string) :=
  let '(negative, s) :=
    match starts_with 45 s with
    | Some r => (true, r)
    | None => (false, s)
    end in
  '(int, s) ←
    match s with
    | String a rest =>
        if code a =? 48 then Some (0, rest)
        else if is_digit a
        then let '(n, _, r) := parse_digits 0 0 s in Some (n, r)
        else None
    | EmptyString => None
    end;
  '(mantissa, decimals, s) ←
    match starts_with 46 s with
    | Some r =>
        let '(n, count, r') := parse_digits int 0 r in
        match count with
        | O => None
        | _ => Some (n, count, r')
        end
    | None => Some (int, O, s)
    end;
  '(exponent, s) ←
    match s with
    | String a rest =>
        if (code a =? 101) || (code a =? 69) then
          let '(sign, r) :=
            match rest with
            | String b r' =>
                if code b =? 45 then (-1, r')
                else if code b =? 43 then (1, r')
                else (1, rest)
            | EmptyString => (1, rest)
            end in
          let '(n, count, r') := parse_digits 0 0 r in
          match count with
          | O => None
          | _ => Some (sign * n, r')
          end
        else Some (0, s)
    | EmptyString => Some (0, s)
    end;
  let shift := exponent - Z.of_nat decimals in
  v ← (if 0 <=? shift then Some (mantissa * 10 ^ shift)
       else if mantissa mod 10 ^ (- shift) =? 0
       then Some (mantissa / 10 ^ (- shift))
       else None);
  Some (if (negative : bool) then - v else v, s).

(** A later member with the name of an earlier one replaces its value. *)
Fixpoint parse_value (fuel : nat) (s : string) {struct fuel}
    : option (json * string) :=
  match fuel with
  | O => None
  | S fuel' =>
      match skip_ws s with
      | EmptyString => None
      | String a rest =>
          if code a =? 110 then r ← strip_prefix "ull" rest; Some (JNull, r)
          else if code a =? 116 then r ← strip_prefix "rue" rest; Some (JBool true, r)
          else if code a =? 102 then r ← strip_prefix "alse" rest; Some (JBool false, r)
          else if code a =? 34 then '(x, r) ← parse_string rest; Some (JStr x, r)
          else if code a =? 91 then
            match starts_with 93 (skip_ws rest) with
            | Some r => Some (JArr [], r)
            | None => '(xs, r) ← parse_elems fuel' rest; Some (JArr xs, r)
            end
          else if code a =? 123 then
            match starts_with 125 (skip_ws rest) with
            | Some r => Some (JObj [], r)
            | None => '(fs, r) ← parse_members fuel' [] rest; Some (JObj fs, r)
            end
          else '(n, r) ← parse_number (String a rest); Some (JNum n, r)
      end
  end
with parse_elems (fuel : nat) (s : string) {struct fuel}
    : option (list json * string) :=
  match fuel with
  | O => None
  | S fuel' =>
      '(x, r) ← parse_value fuel' s;
      match starts_with 44 (skip_ws r) with
      | Some r' => '(xs, r'') ← parse_elems fuel' r'; Some (x :: xs, r'')
      | None => r' ← starts_with 93 (skip_ws r); Some ([x], r')
      end
  end
with parse_members (fuel : nat) (acc : list (string * json)) (s : string)
    {struct fuel} : option (list (string * json) * string) :=
  match fuel with
  | O => None
  | S fuel' =>
      r0 ← starts_with 34 (skip_ws s);
      '(k, r1) ← parse_string r0;
      r2 ← starts_with 58 (skip_ws r1);
      '(x, r3) ← parse_value fuel' r2;
      match starts_with 44 (skip_ws r3) with
      | Some r' => parse_members fuel' (set_prop k x acc) r'
      | None =>
          r' ← starts_with 125 (skip_ws r3);
          Some (set_prop k x acc, r')
      end
  end.

Definition json_parse (s : string) : option json :=
  match parse_value (S (String.length s)) s with
  | Some (v, r) =>
      match skip_ws r with
      | EmptyString => Some v
      | _ => None
      end
  | None => None
  end.

(** ** A sample store

    The scenario of a root project "Research" with the subfolder "Papers",
    which holds the chat [abc123]. *)

Definition research : Project :=
  mkProject "p1" "Research" "R" "#8ab4f8" None ["p2"] [] false None.

Definition papers : Project :=
  mkProject "p2" "Papers" "P" "#8ab4f8" (Some "p1") [] ["abc123"] false None.

Definition sample_projects : list Project := [research; papers].

Definition sample_chatMap : gmap string ChatMapping :=
  {[ "abc123" := mkMapping "p2" "" false ]}.

Definition sample_world : World :=
  put "gpm_chatMap" (of_chatMap sample_chatMap)
      (put "gpm_projects" (of_projects sample_projects) empty_world).

(** A three-level fixture: root, child and grandchild, each with a chat. *)

Definition nested_projects : list Project :=
  [ mkProject "root" "Root" "R" "#fff" None ["child"] ["chat1"] false None;
    mkProject "child" "Child" "C" "#fff" (Some "root") ["grand"] ["chat2"] false None;
    mkProject "grand" "Grandchild" "G" "#fff" (Some "child") [] ["chat3"] false None ].

Definition nested_chatMap : gmap string ChatMapping :=
  {[ "chat1" := mkMapping "root" "" false;
     "chat2" := mkMapping "child" "" false;
     "chat3" := mkMapping "grand" "" true ]}.

Definition nested_world : World :=
  put "gpm_chatMap" (of_chatMap nested_chatMap)
      (put "gpm_projects" (of_projects nested_projects) empty_world).

(** The depth of the fixture's projects. *)
Definition nested_depth (id : string) : nat :=
  if String.eqb id "root" then 0
  else if String.eqb id "child" then 1
  else 2.

(** ** The parent relation, along [parentId] *)

(** The project [x] resolves to has the parent id [y]. *)
Definition parent_edge (ps : list Project) (x y : string) : Prop :=
  exists p, find_project x ps = Some p /\ proj_parentId p = Some y /\ y <> "".

(** [y] is reached from [x] by one or more steps to the parent. *)
Inductive ancestor (ps : list Project) : string -> string -> Prop :=
  | ancestor_parent x y : parent_edge ps x y -> ancestor ps x y
  | ancestor_step x y z :
      parent_edge ps x y -> ancestor ps y z -> ancestor ps x z.

Definition acyclic_parents (ps : list Project) : Prop :=
  forall x, ~ ancestor ps x x.

(** The same project with no child added. *)
Definition children_within (x y : Project) : Prop :=
  proj_id y = proj_id x /\
  forall c, c ∈ proj_children y -> c ∈ proj_children x.

From stdpp Require sorting.

(** ** Further notions for the project tree *)

(** Every non-empty [parentId] is the id of a stored project. *)
Definition parents_resolve (ps : list Project) : Prop :=
  forall p, p ∈ ps -> truthy_id (proj_parentId p) = true ->
    exists q, q ∈ ps /\ proj_parentId p = Some (proj_id q).

(** ** What a render pass may change in a mapping *)

(** The mapping [m1] is [m] with, at most, an empty alias filled in. *)
Definition alias_filled (m m1 : ChatMapping) : Prop :=
  map_projectId m1 = map_projectId m /\
  map_pinned m1 = map_pinned m /\
  (map_alias m1 = map_alias m \/ (map_alias m = "" /\ map_alias m1 <> "")).

(** The same chats are mapped, each with at most its alias filled in. *)
Definition backfilled (cm cm1 : gmap string ChatMapping) : Prop :=
  forall c, option_Forall2 alias_filled (cm !! c) (cm1 !! c).


(** ** A store with a quick prompt *)

Definition translate_prompt : json :=
  JObj [ ("id", JStr "q0"); ("title", JStr "Translate");
         ("content", JStr "Translate this to English");
         ("category", JStr "General") ].

Definition prompt_world : World :=
  put "gpm_quickPrompts" (JArr [translate_prompt]) sample_world.

(** ** Timer events that leave a pending assignment waiting *)

(** With a pending assignment recorded at [T]: a run of the poller on a
    page with no chat id, or a run of the sweeper no later than 120000 ms
    after [T]. *)
Definition quiet (T : Z) (e : Event) : bool :=
  match e with
  | Poll _ id => negb (truthy_id id)
  | Sweep now => now - T <=? 120000
  end.

(** ** content.js: reading a chat id from a path or from dragged text *)

(** Every character is of the class [[a-zA-Z0-9_-]]. *)
Fixpoint all_id_chars (s : string) : bool :=
  match s with
  | String a rest => is_id_char a && all_id_chars rest
  | EmptyString => true
  end.

(** The group [([a-zA-Z0-9_-]+)] at the start of [s]. *)
Definition capture_id (s : string) : option string :=
  let cid := take_id s in
  if String.eqb cid "" then None else Some cid.

(** [/\/(?:chat|c)\/([a-zA-Z0-9_-]+)/] tried at the start of [s]. *)
Definition legacy_at (s : string) : option string :=
  match
    match strip_prefix "/chat/" s with
    | Some rest => capture_id rest
    | None => None
    end
  with
  | Some cid => Some cid
  | None =>
      match strip_prefix "/c/" s with
      | Some rest => capture_id rest
      | None => None
      end
  end.

(** A pattern with no [^], tried at every position from the left. *)
Fixpoint search (at_start : string -> option string) (s : string)
    : option string :=
  match at_start s with
  | Some cid => Some cid
  | None =>
      match s with
      | String _ rest => search at_start rest
      | EmptyString => None
      end
  end.

(** [path] is [window.location.pathname]. *)
Definition gpmGetCurrentChatId (path : string) : option string :=
  match match_app_id path with
  | Some cid => Some cid
  | None => search legacy_at path
  end.

(** What [dataTransfer.getData] returns for the types the drop handlers
    read; a type that was not set reads as the empty string. *)
Record DragData : Type := mkDrag {
  gpm_chat_id : string;
  gpm_chat_title : string;
  text_plain : string;
  text_uri_list : string
}.

Definition truthy_str (s : string) : bool := negb (String.eqb s "").

(** [s.startsWith(pre)] *)
Definition startsWith (pre s : string) : bool :=
  match strip_prefix pre s with Some _ => true | None => false end.

(** The chat id the [drop] listener of a project row settles on. *)
Definition dragged_chat_id (d : DragData) : string :=
  let chatId := gpm_chat_id d in
  let chatId :=
    if truthy_str chatId then chatId
    else
      let plain := text_plain d in
      if truthy_str plain then
        match search match_app_id plain with
        | Some cid => cid
        | None =>
            match search legacy_at plain with
            | Some cid => cid
            | None => plain
            end
        end
      else chatId in
  if truthy_str chatId then chatId
  else
    let uri := text_uri_list d in
    if truthy_str uri then
      match search match_app_id uri with
      | Some cid => cid
      | None =>
          match search legacy_at uri with
          | Some cid => cid
          | None => chatId
          end
      end
    else chatId.

(** The [drop] listener of a project row, for a drag that carries no
    project id. *)
Definition dropChatOnProject (projectId : string) (d : DragData) : M unit :=
  let chatId := dragged_chat_id d in
  if truthy_str chatId && truthy_str (trim chatId)
     && negb (startsWith "http" chatId)
  then
    let cleanId := trim chatId in
    assignChat cleanId projectId ;;
    if truthy_str (gpm_chat_title d) then
      do cm <- readChatMap;
      if truthy_str (from_option map_alias "" (cm !! cleanId)) then ret tt
      else setChatAlias cleanId (gpm_chat_title d)
    else ret tt
  else ret tt.

(** ** content.js: a chat dropped on a chat row *)

(** [row.dataset.dropZone] *)
Inductive Zone : Type := top | bottom | center.

(** [l.indexOf(x)] *)
Fixpoint indexOf (x : string) (l : list string) : Z :=
  match l with
  | [] => -1
  | y :: rest =>
      if String.eqb y x then 0
      else let i := indexOf x rest in if i <? 0 then -1 else i + 1
  end.

(** Where [splice(start, ...)] begins in an array of length [len]. *)
Definition splice_start (start : Z) (len : nat) : nat :=
  Z.to_nat (if start <? 0 then Z.max (Z.of_nat len + start) 0
            else Z.min start (Z.of_nat len)).

(** [l.splice(start, 1)] *)
Definition splice_remove {A} (start : Z) (l : list A) : list A :=
  let s := splice_start start (length l) in
  take s l ++ drop (S s) l.

(** [l.splice(start, 0, x)] *)
Definition splice_insert {A} (start : Z) (x : A) (l : list A) : list A :=
  let s := splice_start start (length l) in
  take s l ++ x :: drop s l.

(** The [drop] listener of the row of [chatId] in the project [projectId]. *)
Definition dropChatOnChat (projectId chatId : string) (zone : Zone)
    (droppedChatId : string) : M unit :=
  if negb (truthy_str droppedChatId) || String.eqb droppedChatId chatId
  then ret tt else
  do projects <- readProjects;
  match find_project projectId projects with
  | None => ret tt
  | Some proj =>
      let ids := proj_chatIds proj in
      let fromIdx := indexOf droppedChatId ids in
      if fromIdx =? -1 then assignChat droppedChatId projectId
      else
        let ids := splice_remove fromIdx ids in
        let newIdx := indexOf chatId ids in
        let ids :=
          splice_insert (match zone with top => newIdx | _ => newIdx + 1 end)
                        droppedChatId ids in
        writeProjects (modify_first projectId (set_chatIds ids) projects)
  end.

(** ** content.js: the order of the rows

    [[...l].sort(cmp)] is a stable sort; for a comparator that compares
    keys its result is that of inserting each element, from the right,
    before the first element it does not come after. *)

Fixpoint insert_by {A} (cmp : A -> A -> Z) (x : A) (l : list A) : list A :=
  match l with
  | [] => [x]
  | y :: rest => if cmp x y <=? 0 then x :: l else y :: insert_by cmp x rest
  end.

Definition js_sort {A} (cmp : A -> A -> Z) (l : list A) : list A :=
  foldr (insert_by cmp) [] l.

(** [chatMap[c]?.pinned ? 1 : 0] *)
Definition pin_rank (chatMap : gmap string ChatMapping) (c : string) : Z :=
  if from_option map_pinned false (chatMap !! c) then 1 else 0.

(** The chat rows of a project, in the order [gpmCreateProjectRow] appends
    them. *)
Definition sorted_chats (chatMap : gmap string ChatMapping)
    (chatIds : list string) : list string :=
  js_sort (fun a b => pin_rank chatMap b - pin_rank chatMap a) chatIds.

(** [p.order ?? 0] *)
Definition order_or_0 (p : Project) : Z := default 0 (proj_order p).

(** The root rows, in the order [gpmRenderTree] appends them. *)
Definition sortedRootProjects (projects : list Project) : list Project :=
  js_sort (fun a b => order_or_0 a - order_or_0 b) (getRootProjects projects).

(** ** content.js: a project dropped on the edge of a project row

    The [drop] listener of [gpmCreateProjectRow], for a drag that carries a
    project id, in the [top] or the [bottom] zone: the dropped project
    becomes a sibling of the row's project. *)

Definition set_order (o : option Z) (p : Project) : Project :=
  mkProject (proj_id p) (proj_name p) (proj_icon p) (proj_color p)
    (proj_parentId p) (proj_children p) (proj_chatIds p) (proj_collapsed p) o.

(** The place, in [projects], of the object [projects.find(p => p.id === pid)]
    returns. *)
Fixpoint position_of (pid : string) (projects : list Project) : option nat :=
  match projects with
  | [] => None
  | p :: rest =>
      if has_id pid p then Some 0%nat else S <$> position_of pid rest
  end.

(** [projects.filter(p => !p.parentId)]: the array holds objects of
    [projects], given here by their places, counted from [n]. *)
Fixpoint places_from (n : nat) (projects : list Project) : list nat :=
  match projects with
  | [] => []
  | p :: rest =>
      if truthy_id (proj_parentId p) then places_from (S n) rest
      else n :: places_from (S n) rest
  end.

Definition root_places (projects : list Project) : list nat :=
  places_from 0 projects.

(** [rootProjects.findIndex(p => p.id === pid)] *)
Fixpoint findIndex_id (projects : list Project) (pid : string)
    (places : list nat) : Z :=
  match places with
  | [] => -1
  | i :: rest =>
      if match projects !! i with
         | Some p => has_id pid p
         | None => false
         end
      then 0
      else let k := findIndex_id projects pid rest in
           if k <? 0 then -1 else k + 1
  end.

(** [rootProjects.forEach((p, i) => { p.order = i; })], from index [k] on. *)
Fixpoint number_from (k : Z) (places : list nat) (projects : list Project)
    : list Project :=
  match places with
  | [] => projects
  | i :: rest =>
      number_from (k + 1) rest (alter (set_order (Some k)) i projects)
  end.

(** The sibling branch: the parent's [children] with the dropped id put
    next to the row's project. *)
Definition place_child (projectId droppedProjectId : string) (zone : Zone)
    (parent : Project) : Project :=
  let children := without droppedProjectId (proj_children parent) in
  let targetIdx := indexOf projectId children in
  let insertIdx := match zone with top => targetIdx | _ => targetIdx + 1 end in
  set_children (splice_insert (Z.max 0 insertIdx) droppedProjectId children)
               parent.

(** The root branch: the [order] of every root project, renumbered. *)
Definition reorder_roots (projectId droppedProjectId : string) (zone : Zone)
    (projects : list Project) : list Project :=
  let rootProjects := root_places projects in
  let targetIdx := findIndex_id projects projectId rootProjects in
  let insertIdx := match zone with top => targetIdx | _ => targetIdx + 1 end in
  let rootProjects :=
    splice_remove (findIndex_id projects droppedProjectId rootProjects)
                  rootProjects in
  match position_of droppedProjectId projects with
  | Some droppedProject =>
      number_from 0
        (splice_insert (Z.max 0 insertIdx) droppedProject rootProjects)
        projects
  | None => projects
  end.

Definition dropProjectEdge (fuel : nat) (allProjects : list Project)
    (project : Project) (zone : Zone) (droppedProjectId : string) : M unit :=
  if negb (String.eqb droppedProjectId "")
     && negb (String.eqb droppedProjectId (proj_id project))
  then
    do inside <- lift (isDescendant fuel allProjects droppedProjectId (proj_id project));
    if (inside : bool) then ret tt else
    do projects <- readProjects;
    match find_project droppedProjectId projects with
    | None => ret tt
    | Some droppedProject =>
        let sameParentId :=
          if truthy_id (proj_parentId project) then proj_parentId project
          else None in
        let projects :=
          if truthy_id (proj_parentId droppedProject)
          then modify_first (default "" (proj_parentId droppedProject))
                            (drop_child droppedProjectId) projects
          else projects in
        let projects :=
          modify_first droppedProjectId (set_parentId sameParentId) projects in
        let projects :=
          if truthy_id sameParentId
          then modify_first (default "" sameParentId)
                 (place_child (proj_id project) droppedProjectId zone) projects
          else reorder_roots (proj_id project) droppedProjectId zone projects in
        writeProjects projects
    end
  else ret tt.

(** The ids of the objects at [places]. *)
Definition ids_at (projects : list Project) (places : list nat)
    : list string :=
  (fun i => from_option proj_id "" (projects !! i)) <$> places.

(** The same project, whatever the [order]. *)
Definition same_but_order (p q : Project) : Prop :=
  set_order None q = set_order None p.

(** Three root projects, stored in the order they were created. *)
Definition three_roots : list Project :=
  [ mkProject "a" "Alpha" "A" "#fff" None [] [] false None;
    mkProject "b" "Beta" "B" "#fff" None [] [] false None;
    mkProject "c" "Gamma" "C" "#fff" None [] [] false None ].

Definition three_roots_world : World :=
  put "gpm_projects" (of_projects three_roots) empty_world.

(** The projects an edge drop among siblings saves. *)
Definition edge_drop_siblings (projectId parentId droppedProjectId : string)
    (zone : Zone) (droppedProject : Project) (projects : list Project)
    : list Project :=
  modify_first parentId (place_child projectId droppedProjectId zone)
    (modify_first droppedProjectId (set_parentId (Some parentId))
       (if truthy_id (proj_parentId droppedProject)
        then modify_first (default "" (proj_parentId droppedProject))
                          (drop_child droppedProjectId) projects
        else projects)).

(** * Properties *)

(** ** The records and their stored form *)

Lemma as_strings_of l : as_strings (Some (of_strings l)) = Some l.
Proof. unfold as_strings, of_strings. by apply mapM_fmap_Some. Qed.

Lemma as_project_of p : as_project (of_project p) = Some p.
Proof.
  destruct p as [i n ic co pa ch cs cl o].
  unfold as_project, of_project.
  cbn [proj_id proj_name proj_icon proj_color proj_parentId proj_children
       proj_chatIds proj_collapsed proj_order].
  destruct pa, o; cbn -[as_strings of_strings]; rewrite !as_strings_of; done.
Qed.

Lemma as_projects_of ps : as_projects (of_projects ps) = Some ps.
Proof. unfold as_projects, of_projects. apply mapM_fmap_Some, as_project_of. Qed.

Lemma as_mapping_of m : as_mapping (of_mapping m) = Some m.
Proof. by destruct m. Qed.

Lemma as_chatMap_of cm : as_chatMap (of_chatMap cm) = Some cm.
Proof.
  unfold as_chatMap, of_chatMap.
  rewrite mapM_fmap_Some.
  - simpl. by rewrite list_to_map_to_list.
  - intros [k m]. unfold prod_map. cbn [fst snd]. by rewrite as_mapping_of.
Qed.

(** ** Running the helpers *)

Lemma _set_run key v w : _set key v w = Some (tt, put key v w).
Proof. reflexivity. Qed.

Lemma readProjects_run w ps :
  projects_of w = Some ps -> readProjects w = Some (ps, w).
Proof.
  unfold projects_of, readProjects, getProjects, bind, _get, ret, lift.
  by intros ->.
Qed.

Lemma readChatMap_run w cm :
  chatMap_of w = Some cm -> readChatMap w = Some (cm, w).
Proof.
  unfold chatMap_of, readChatMap, getChatMap, bind, _get, ret, lift.
  by intros ->.
Qed.

Lemma writeProjects_run ps w :
  writeProjects ps w = Some (tt, put "gpm_projects" (of_projects ps) w).
Proof. reflexivity. Qed.

Lemma writeChatMap_run cm w :
  writeChatMap cm w = Some (tt, put "gpm_chatMap" (of_chatMap cm) w).
Proof. reflexivity. Qed.

Lemma projects_of_put_projects ps w :
  projects_of (put "gpm_projects" (of_projects ps) w) = Some ps.
Proof.
  unfold projects_of, put. cbn [storage]. rewrite lookup_insert_eq.
  apply as_projects_of.
Qed.

Lemma projects_of_put_other k v w :
  k <> "gpm_projects" -> projects_of (put k v w) = projects_of w.
Proof.
  intros Hk. unfold projects_of, put. cbn [storage].
  by rewrite lookup_insert_ne.
Qed.

Lemma chatMap_of_put_chatMap cm w :
  chatMap_of (put "gpm_chatMap" (of_chatMap cm) w) = Some cm.
Proof.
  unfold chatMap_of, put. cbn [storage]. rewrite lookup_insert_eq.
  apply as_chatMap_of.
Qed.

Lemma chatMap_of_put_other k v w :
  k <> "gpm_chatMap" -> chatMap_of (put k v w) = chatMap_of w.
Proof.
  intros Hk. unfold chatMap_of, put. cbn [storage].
  by rewrite lookup_insert_ne.
Qed.

(** The world after a write of both collections. *)
Lemma views_after_writes ps cm w :
  let w' := put "gpm_chatMap" (of_chatMap cm)
              (put "gpm_projects" (of_projects ps) w) in
  projects_of w' = Some ps /\ chatMap_of w' = Some cm.
Proof.
  split.
  - rewrite projects_of_put_other by done. apply projects_of_put_projects.
  - apply chatMap_of_put_chatMap.
Qed.

(** ** Running the operations on a store that follows the schema *)

Section Runs.
Variables (w : World) (ps : list Project) (cm : gmap string ChatMapping).
Hypothesis Hps : projects_of w = Some ps.
Hypothesis Hcm : chatMap_of w = Some cm.

Lemma createProject_run id name icon color parentId :
  exists project,
    createProject id name icon color parentId w =
      Some (project,
            put "gpm_projects"
                (of_projects (createProject_projects id name icon color parentId ps)) w).
Proof.
  unfold createProject, bind. rewrite (readProjects_run _ _ Hps).
  eexists. reflexivity.
Qed.

Lemma assignChat_run c p :
  assignChat c p w =
    Some (tt, put "gpm_chatMap" (of_chatMap (assignChat_chatMap c p cm))
                (put "gpm_projects" (of_projects (assignChat_projects c p ps cm)) w)).
Proof.
  unfold assignChat, bind.
  rewrite (readChatMap_run _ _ Hcm), (readProjects_run _ _ Hps).
  reflexivity.
Qed.

Lemma unassignChat_run c :
  unassignChat c w =
    Some (tt, put "gpm_chatMap" (of_chatMap (delete c cm))
                (put "gpm_projects" (of_projects (unlink_chat c cm ps)) w)).
Proof.
  unfold unassignChat, bind.
  rewrite (readChatMap_run _ _ Hcm), (readProjects_run _ _ Hps).
  reflexivity.
Qed.

Lemma deleteProject_run fuel id ids :
  collectDescendants fuel ps id = Some ids ->
  deleteProject fuel id w =
    Some (tt, put "gpm_chatMap" (of_chatMap (deleteProject_chatMap ids cm))
                (put "gpm_projects" (of_projects (deleteProject_projects ids id ps)) w)).
Proof.
  intros Hids. unfold deleteProject, bind.
  rewrite (readProjects_run _ _ Hps), (readChatMap_run _ _ Hcm).
  unfold lift. rewrite Hids. reflexivity.
Qed.

Lemma deleteProject_run_inv fuel id a w' :
  deleteProject fuel id w = Some (a, w') ->
  exists ids, collectDescendants fuel ps id = Some ids /\
    w' = put "gpm_chatMap" (of_chatMap (deleteProject_chatMap ids cm))
           (put "gpm_projects" (of_projects (deleteProject_projects ids id ps)) w).
Proof.
  destruct (collectDescendants fuel ps id) as [ids|] eqn:Hids.
  - rewrite (deleteProject_run _ _ _ Hids). intros [= _ <-]. eauto.
  - unfold deleteProject, bind.
    rewrite (readProjects_run _ _ Hps), (readChatMap_run _ _ Hcm).
    unfold lift. by rewrite Hids.
Qed.

End Runs.

(** ** Notification of the other views *)

Lemma notified_refl w : notified w w.
Proof. by left. Qed.

Lemma notified_trans w1 w2 w3 :
  notified w1 w2 -> notified w2 w3 -> notified w1 w3.
Proof.
  intros [-> | [r1 H1]] [-> | [r2 H2]]; try (by left); right.
  - by exists r2.
  - by exists r1.
  - exists (r1 ++ GPM_STORAGE_UPDATED :: r2).
    rewrite H2, H1. by rewrite <- app_assoc.
Qed.

Lemma notifying_ret {A} (a : A) : notifying (ret a).
Proof. intros w a' w' [= _ <-]. apply notified_refl. Qed.

Lemma notifying_throw {A} : notifying (@throw A).
Proof. by intros w a w'. Qed.

Lemma notifying_lift {A} (o : option A) : notifying (lift o).
Proof. intros w a w'. destruct o; [intros [= _ <-]; apply notified_refl | done]. Qed.

Lemma notifying_get key : notifying (_get key).
Proof. intros w a w' [= _ <-]. apply notified_refl. Qed.

Lemma notifying_set key v : notifying (_set key v).
Proof. intros w a w' [= _ <-]. right. by exists []. Qed.

Lemma notifying_bind {A B} (m : M A) (k : A -> M B) :
  notifying m -> (forall a, notifying (k a)) -> notifying (bind m k).
Proof.
  intros Hm Hk w b w'. unfold bind.
  destruct (m w) as [[a w1]|] eqn:E; [|done].
  intros Hb. eapply notified_trans; [eapply Hm, E | eapply Hk, Hb].
Qed.

Create HintDb notify.
#[local] Hint Resolve notifying_ret notifying_throw notifying_lift
  notifying_get notifying_set : notify.

Ltac notify_step :=
  match goal with
  | |- notifying (bind _ _) => apply notifying_bind; [| intros ?]
  | |- notifying (match ?x with _ => _ end) => destruct x
  | |- notifying (let '(_, _) := ?x in _) => destruct x
  | |- notifying _ => solve [auto with notify]
  end.

Ltac notify := repeat notify_step.

Lemma notifying_readProjects : notifying readProjects.
Proof. unfold readProjects, getProjects. notify. Qed.

Lemma notifying_readChatMap : notifying readChatMap.
Proof. unfold readChatMap, getChatMap. notify. Qed.

#[local] Hint Resolve notifying_readProjects notifying_readChatMap : notify.

(** Every write of the other mutating operations goes through [_set]. *)
Lemma mutators_notify :
  (forall id name icon color parentId,
      notifying (createProject id name icon color parentId)) /\
  (forall id updates, notifying (updateProject id updates)) /\
  (forall fuel id, notifying (deleteProject fuel id)) /\
  (forall c p, notifying (assignChat c p)) /\
  (forall c, notifying (unassignChat c)) /\
  (forall c alias, notifying (setChatAlias c alias)) /\
  (forall c, notifying (togglePinChat c)) /\
  (forall id title content category,
      notifying (saveQuickPrompt id title content category)) /\
  (forall id, notifying (deleteQuickPrompt id)) /\
  (forall id updates, notifying (updateQuickPrompt id updates)) /\
  (forall settings, notifying (saveSettings settings)) /\
  (forall parse s, notifying (importAll parse s)).
Proof.
  repeat split; intros;
    unfold createProject, updateProject, deleteProject, assignChat,
      unassignChat, setChatAlias, togglePinChat, saveQuickPrompt,
      deleteQuickPrompt, updateQuickPrompt, saveSettings, importAll,
      import_key, prop, getQuickPrompts, writeProjects, writeChatMap,
      saveProjects, saveChatMap;
    notify.
Qed.

(** C5: [clearAll] writes the five keys with [chrome.storage.local.set]
    itself and sends no [GPM_STORAGE_UPDATED]: the views of other tabs are
    not told, unlike after every write that goes through [_set]. *)
Theorem clearAll_sends_no_message (w : World) :
  exists w',
    clearAll w = Some (tt, w') /\
    storage w' !! "gpm_projects" = Some (JArr []) /\
    storage w' !! "gpm_chatMap" = Some (JObj []) /\
    storage w' !! "gpm_quickPrompts" = Some (JArr []) /\
    storage w' !! "gpm_settings" = Some default_settings /\
    outbox w' = outbox w /\
    (storage w !! "gpm_projects" <> Some (JArr []) -> ~ notified w w').
Proof.
  eexists. split; [reflexivity|]. cbn [storage outbox foldl fst snd].
  repeat split; try by simplify_map_eq.
  intros Hne [Heq | [rest Hout]].
  - apply Hne. rewrite <- Heq at 1. cbn [storage]. by simplify_map_eq.
  - cbn [outbox] in Hout. apply (f_equal length) in Hout.
    rewrite length_app in Hout. simpl in Hout. lia.
Qed.

(** ** Import and export *)

Lemma import_key_run key fields w :
  import_key key (JObj fields) w = Some (tt, imported key fields w).
Proof.
  unfold import_key, imported, bind, prop, ret.
  destruct (assoc key fields) as [x|]; [|done]. by destruct (truthy x).
Qed.

Lemma importAll_run parse s fields w :
  parse s = Some (JObj fields) ->
  importAll parse s w =
    Some (tt, imported "gpm_settings" fields
                (imported "gpm_quickPrompts" fields
                   (imported "gpm_chatMap" fields
                      (imported "gpm_projects" fields w)))).
Proof.
  intros Hp. unfold importAll, bind, lift. rewrite Hp.
  by rewrite !import_key_run.
Qed.

Lemma storage_imported key fields w k :
  storage (imported key fields w) !! k =
    if decide (k = key)
    then match assoc key fields with
         | Some x => if truthy x then Some x else storage w !! k
         | None => storage w !! k
         end
    else storage w !! k.
Proof.
  unfold imported.
  destruct (assoc key fields) as [x|]; [destruct (truthy x)|];
    case_decide; subst; cbn [put storage]; by simplify_map_eq.
Qed.

(** What [importAll] leaves under every key of the store. *)
Lemma importAll_storage parse s fields w w' k :
  parse s = Some (JObj fields) ->
  importAll parse s w = Some (tt, w') ->
  storage w' !! k =
    match (if bool_decide (k ∈ import_keys) then assoc k fields else None) with
    | Some x => if truthy x then Some x else storage w !! k
    | None => storage w !! k
    end.
Proof.
  intros Hp. rewrite (importAll_run _ _ _ _ Hp). intros [= <-].
  rewrite !storage_imported. unfold import_keys.
  case_bool_decide as Hin.
  - rewrite !elem_of_cons, elem_of_nil in Hin.
    destruct Hin as [->|[->|[->|[->|[]]]]]; repeat case_decide; done.
  - rewrite !elem_of_cons in Hin.
    repeat case_decide; subst; try done; exfalso; apply Hin; tauto.
Qed.

(** Two parsed objects that agree where [importAll] looks and writes. *)
Lemma imported_ext key f1 f2 w :
  match assoc key f1 with Some x => if truthy x then Some x else None | None => None end =
  match assoc key f2 with Some x => if truthy x then Some x else None | None => None end ->
  imported key f1 w = imported key f2 w.
Proof.
  unfold imported.
  destruct (assoc key f1) as [x|], (assoc key f2) as [y|];
    try destruct (truthy x); try destruct (truthy y); congruence.
Qed.

(** C10: a key of the blob bound to a falsy value is not written: the key
    keeps its stored value, the import leaves the same world as the import
    of a blob without the key, and a key is written exactly when the blob
    binds it to a truthy value. *)
Theorem importAll_skips_falsy_key
    (JSON_parse : string -> option json) (jsonString : string)
    (fields : list (string * json)) (key : string) (v : json) (w : World) :
  JSON_parse jsonString = Some (JObj fields) ->
  key ∈ import_keys ->
  assoc key fields = Some v ->
  falsy v = true ->
  exists w',
    importAll JSON_parse jsonString w = Some (tt, w') /\
    storage w' !! key = storage w !! key /\
    (forall jsonString2 fields2,
        JSON_parse jsonString2 = Some (JObj fields2) ->
        assoc key fields2 = None ->
        (forall k, k <> key -> assoc k fields2 = assoc k fields) ->
        importAll JSON_parse jsonString2 w = Some (tt, w')) /\
    (forall k,
        storage w' !! k =
          match (if bool_decide (k ∈ import_keys) then assoc k fields else None) with
          | Some x => if truthy x then Some x else storage w !! k
          | None => storage w !! k
          end).
Proof.
  intros Hp Hkey Hv Hf. apply negb_true_iff in Hf.
  eexists. split; [by apply importAll_run|].
  assert (Hall : forall k, storage (imported "gpm_settings" fields
                (imported "gpm_quickPrompts" fields
                   (imported "gpm_chatMap" fields
                      (imported "gpm_projects" fields w)))) !! k =
          match (if bool_decide (k ∈ import_keys) then assoc k fields else None) with
          | Some x => if truthy x then Some x else storage w !! k
          | None => storage w !! k
          end).
  { intros k. eapply importAll_storage; [exact Hp|by apply importAll_run]. }
  split; [|split; [|exact Hall]].
  - rewrite Hall. rewrite bool_decide_eq_true_2 by done. by rewrite Hv, Hf.
  - intros s2 f2 Hp2 Hnone Hsame.
    rewrite (importAll_run _ _ _ _ Hp2). do 2 f_equal.
    assert (Hext : forall k w0, imported k f2 w0 = imported k fields w0).
    { intros k w0. apply imported_ext.
      destruct (decide (k = key)) as [->|Hne].
      - by rewrite Hnone, Hv, Hf.
      - by rewrite Hsame. }
    by rewrite !Hext.
Qed.

Lemma exportAll_run stringify w :
  exportAll stringify w = Some (stringify (export_blob w), w).
Proof. reflexivity. Qed.

Lemma js_or_truthy v d : truthy d = true -> truthy (js_or v d) = true.
Proof. intros Hd. destruct v as [x|]; simpl; [|done]. by destruct (truthy x) eqn:E. Qed.

Lemma js_or_stored v d : truthy v = true -> js_or (Some v) d = v.
Proof. intros Hv. simpl. by rewrite Hv. Qed.

Lemma js_or_unset key w d :
  unset key w -> js_or (storage w !! key) d = d.
Proof.
  unfold unset. destruct (storage w !! key) as [v|]; [|done].
  intros Hv. simpl. by rewrite Hv.
Qed.

(** What the empty store holds after the import of the exported object. *)
Lemma roundtrip_storage parse s w w' :
  parse s = Some (export_blob w) ->
  importAll parse s empty_world = Some (tt, w') ->
  storage w' !! "gpm_projects"
    = Some (js_or (storage w !! "gpm_projects") (JArr [])) /\
  storage w' !! "gpm_chatMap"
    = Some (js_or (storage w !! "gpm_chatMap") (JObj [])) /\
  storage w' !! "gpm_quickPrompts"
    = Some (js_or (storage w !! "gpm_quickPrompts") (JArr [])) /\
  storage w' !! "gpm_settings"
    = Some (js_or (storage w !! "gpm_settings") default_settings) /\
  (forall k, k ∉ import_keys -> storage w' !! k = None).
Proof.
  intros Hp Hrun.
  pose proof (fun k => importAll_storage parse s _ empty_world w' k Hp Hrun) as Hk.
  repeat split.
  - rewrite (Hk "gpm_projects"), bool_decide_eq_true_2
      by (unfold import_keys; set_solver).
    cbn -[js_or truthy lookup]. by rewrite js_or_truthy.
  - rewrite (Hk "gpm_chatMap"), bool_decide_eq_true_2
      by (unfold import_keys; set_solver).
    cbn -[js_or truthy lookup]. by rewrite js_or_truthy.
  - rewrite (Hk "gpm_quickPrompts"), bool_decide_eq_true_2
      by (unfold import_keys; set_solver).
    cbn -[js_or truthy lookup]. by rewrite js_or_truthy.
  - rewrite (Hk "gpm_settings"), bool_decide_eq_true_2
      by (unfold import_keys; set_solver).
    cbn -[js_or truthy lookup]. by rewrite js_or_truthy.
  - intros k Hout. rewrite (Hk k). by rewrite bool_decide_eq_false_2.
Qed.

(** C6: when [JSON.parse] gives back the object [JSON.stringify] was given,
    importing the export of a store into an empty store returns and leaves a
    store that holds, under each of the four keys, the value the original
    holds there, or the default of the key's getter where the original holds
    nothing or a falsy value; it holds no other key, and the four getters
    return on it what they return on the original. *)
Theorem export_import_roundtrip
    (JSON_stringify : json -> string) (JSON_parse : string -> option json)
    (w : World) :
  JSON_parse (JSON_stringify (export_blob w)) = Some (export_blob w) ->
  exists s w',
    exportAll JSON_stringify w = Some (s, w) /\
    importAll JSON_parse s empty_world = Some (tt, w') /\
    (forall k v, k ∈ import_keys ->
       storage w !! k = Some v -> truthy v = true ->
       storage w' !! k = Some v) /\
    (unset "gpm_projects" w -> storage w' !! "gpm_projects" = Some (JArr [])) /\
    (unset "gpm_chatMap" w -> storage w' !! "gpm_chatMap" = Some (JObj [])) /\
    (unset "gpm_quickPrompts" w ->
       storage w' !! "gpm_quickPrompts" = Some (JArr [])) /\
    (unset "gpm_settings" w ->
       storage w' !! "gpm_settings" = Some default_settings) /\
    (forall k, k ∉ import_keys -> storage w' !! k = None) /\
    value_of getProjects w' = value_of getProjects w /\
    value_of getChatMap w' = value_of getChatMap w /\
    value_of getQuickPrompts w' = value_of getQuickPrompts w /\
    value_of getSettings w' = value_of getSettings w.
Proof.
  intros Hrt.
  destruct (importAll JSON_parse (JSON_stringify (export_blob w)) empty_world)
    as [[[] w']|] eqn:Hrun; cycle 1.
  { unfold export_blob in Hrt. by rewrite (importAll_run _ _ _ _ Hrt) in Hrun. }
  destruct (roundtrip_storage _ _ _ _ Hrt Hrun) as (H1 & H2 & H3 & H4 & Hout).
  exists (JSON_stringify (export_blob w)), w'.
  split; [apply exportAll_run|].
  split; [exact Hrun|].
  split.
  { intros k v Hin Hv Htrue. unfold import_keys in Hin.
    rewrite !elem_of_cons, elem_of_nil in Hin.
    destruct Hin as [->|[->|[->|[->|[]]]]].
    - by rewrite H1, Hv, js_or_stored.
    - by rewrite H2, Hv, js_or_stored.
    - by rewrite H3, Hv, js_or_stored.
    - by rewrite H4, Hv, js_or_stored. }
  split; [intros Hu; by rewrite H1, js_or_unset|].
  split; [intros Hu; by rewrite H2, js_or_unset|].
  split; [intros Hu; by rewrite H3, js_or_unset|].
  split; [intros Hu; by rewrite H4, js_or_unset|].
  split; [exact Hout|].
  unfold value_of, getProjects, getChatMap, getQuickPrompts, getSettings,
    bind, _get, ret.
  rewrite H1, H2, H3, H4.
  repeat split; f_equal; simpl; by rewrite js_or_truthy.
Qed.

Lemma importAll_skips_falsy_key_witness :
  let fields := [("gpm_projects", JNull);
                 ("gpm_settings", JObj [("lang", JStr "tr"); ("theme", JStr "dark")])] in
  exists w',
    importAll json_parse (json_print (JObj fields)) sample_world = Some (tt, w') /\
    storage w' !! "gpm_projects" = storage sample_world !! "gpm_projects".
Proof.
  intros fields.
  destruct (importAll_skips_falsy_key json_parse (json_print (JObj fields))
              fields "gpm_projects" JNull sample_world)
    as (w' & Hrun & Hkey & _).
  - vm_compute. reflexivity.
  - apply list_elem_of_here.
  - reflexivity.
  - reflexivity.
  - exists w'. split; [exact Hrun | exact Hkey].
Defined.

Lemma export_import_roundtrip_witness :
  exists s w',
    exportAll json_print sample_world = Some (s, sample_world) /\
    importAll json_parse s empty_world = Some (tt, w') /\
    (forall k v, k ∈ import_keys ->
       storage sample_world !! k = Some v -> truthy v = true ->
       storage w' !! k = Some v) /\
    (unset "gpm_projects" sample_world ->
       storage w' !! "gpm_projects" = Some (JArr [])) /\
    (unset "gpm_chatMap" sample_world ->
       storage w' !! "gpm_chatMap" = Some (JObj [])) /\
    (unset "gpm_quickPrompts" sample_world ->
       storage w' !! "gpm_quickPrompts" = Some (JArr [])) /\
    (unset "gpm_settings" sample_world ->
       storage w' !! "gpm_settings" = Some default_settings) /\
    (forall k, k ∉ import_keys -> storage w' !! k = None) /\
    value_of getProjects w' = value_of getProjects sample_world /\
    value_of getChatMap w' = value_of getChatMap sample_world /\
    value_of getQuickPrompts w' = value_of getQuickPrompts sample_world /\
    value_of getSettings w' = value_of getSettings sample_world.
Proof.
  apply (export_import_roundtrip json_print json_parse sample_world).
  vm_compute. reflexivity.
Defined.

(** ** The render pass *)

(** [activeChatIds] after the loop is the set of visible chat ids. *)
Lemma backfill_active links cm act upd :
  (foldl backfill_link (cm, act, upd) links).1.2 = visible_chat_ids links ∪ act.
Proof.
  revert cm act upd.
  induction links as [|l links IH]; intros cm act upd.
  - unfold visible_chat_ids. simpl. set_solver.
  - cbn [foldl]. unfold visible_chat_ids. cbn [omap list_omap].
    unfold backfill_link at 2.
    destruct (match_app_id (href l)) as [cid|] eqn:Hm.
    + destruct (cm !! cid) as [m|];
        [destruct (_ && _)|]; rewrite IH; unfold visible_chat_ids;
        cbn [list_to_set]; set_solver.
    + rewrite IH. done.
Qed.

Lemma backfill_no_visible links cm act upd :
  visible_chat_ids links = ∅ ->
  foldl backfill_link (cm, act, upd) links = (cm, act, upd).
Proof.
  induction links as [|l links IH]; [done|].
  unfold visible_chat_ids. cbn [omap list_omap foldl].
  unfold backfill_link at 2.
  destruct (match_app_id (href l)) as [cid|] eqn:Hm.
  - cbn [list_to_set]. intros Hempty. exfalso.
    assert (Hin : cid ∈ ({[cid]} ∪ list_to_set (omap (fun l0 => match_app_id (href l0)) links) : gset string))
      by set_solver.
    rewrite Hempty in Hin. set_solver.
  - exact IH.
Qed.

(** C8: with no chat id visible in the sidebar a render pass writes nothing:
    it returns and leaves the store, every mapping and every [chatIds]
    included, as it was. *)
Theorem render_without_visible_chats
    (w : World) (ps : list Project) (cm : gmap string ChatMapping)
    (gpmContainer : bool) (sidebarLinks : list Link) :
  projects_of w = Some ps ->
  chatMap_of w = Some cm ->
  visible_chat_ids sidebarLinks = ∅ ->
  gpmRenderTree gpmContainer sidebarLinks w = Some (tt, w).
Proof.
  intros Hps Hcm Hvis. unfold gpmRenderTree.
  destruct gpmContainer; [|done]. cbn [negb]. unfold bind.
  rewrite (readProjects_run _ _ Hps), (readChatMap_run _ _ Hcm).
  rewrite (backfill_no_visible _ _ _ _ Hvis).
  rewrite bool_decide_eq_false_2 by (intros H; by apply H).
  reflexivity.
Qed.

Lemma render_without_visible_chats_witness :
  gpmRenderTree true [mkLink "/app/?hl=en" "New chat"] sample_world
  = Some (tt, sample_world).
Proof.
  apply (render_without_visible_chats sample_world sample_projects sample_chatMap).
  - vm_compute. reflexivity.
  - vm_compute. reflexivity.
  - vm_compute. reflexivity.
Defined.

(** ** The pending assignment *)

Lemma pollTick_without_pending id o :
  gpmPendingChatAssignment o = None ->
  gpmPendingChatAssignment (pollTick id o).1 = None /\
  Forall (fun e => is_auto_assign e = false) (pollTick id o).2.
Proof.
  intros Hp. unfold pollTick. rewrite Hp.
  destruct (truthy_id id && negb (bool_decide (id = lastChatId o)));
    cbn [lastChatId gpmPendingChatAssignment];
    destruct (negb (truthy_id id) && _); cbn; rewrite ?Hp;
    split; try done; repeat constructor.
Qed.

Lemma sweepTick_without_pending now o :
  gpmPendingChatAssignment o = None ->
  gpmPendingChatAssignment (sweepTick now o) = None.
Proof. intros Hp. unfold sweepTick. by rewrite Hp. Qed.

Lemma run_without_pending events : forall o,
  gpmPendingChatAssignment o = None ->
  gpmPendingChatAssignment (run o events).1 = None /\
  Forall (fun e => is_auto_assign e = false) (run o events).2.
Proof.
  induction events as [|e events IH]; intros o Hp; [by split|].
  cbn [run]. destruct (step o e) as [o1 eff1] eqn:Hstep.
  assert (H1 : gpmPendingChatAssignment o1 = None /\
               Forall (fun e => is_auto_assign e = false) eff1).
  { destruct e as [t id|t]; cbn [step] in Hstep.
    - pose proof (pollTick_without_pending id o Hp) as H.
      by rewrite Hstep in H.
    - injection Hstep as <- <-. split; [by apply sweepTick_without_pending|done]. }
  destruct H1 as [Hp1 Hf1].
  destruct (IH o1 Hp1) as [Hp2 Hf2].
  destruct (run o1 events) as [o2 eff2]. cbn [fst snd] in *.
  split; [done|]. by apply Forall_app.
Qed.

(** C4, as the sweeper implements it: at a run of the sweeper more than
    120000 ms after the pending assignment was recorded it is cleared, and
    whatever the poller observes from then on is not auto-assigned. *)
Theorem pending_cleared_by_sweep
    (o : Observer) (p1 : string) (T now : Z) (events : list Event) :
  gpmPendingChatAssignment o = Some (mkPending p1 T) ->
  T <> 0 ->
  120000 < now - T ->
  gpmPendingChatAssignment (sweepTick now o) = None /\
  Forall (fun e => is_auto_assign e = false) (run o (Sweep now :: events)).2.
Proof.
  intros Hp HT Hlate.
  assert (Hs : gpmPendingChatAssignment (sweepTick now o) = None).
  { unfold sweepTick. rewrite Hp. cbn [pend_ts].
    destruct (Z.eqb_spec T 0) as [?|_]; [done|].
    destruct (Z.ltb_spec 120000 (now - T)); [done|lia]. }
  split; [exact Hs|].
  cbn [run step].
  destruct (run_without_pending events _ Hs) as [_ Hf].
  destruct (run (sweepTick now o) events) as [o2 eff2]. exact Hf.
Qed.

Lemma pending_cleared_by_sweep_witness :
  let o := newChatInProject "p1" 1000 (mkObserver None None) in
  gpmPendingChatAssignment (sweepTick 126000 o) = None /\
  Forall (fun e => is_auto_assign e = false)
         (run o [Sweep 126000; Poll 126500 (Some "x")]).2.
Proof.
  apply (pending_cleared_by_sweep _ "p1" 1000 126000 [Poll 126500 (Some "x")]).
  - reflexivity.
  - lia.
  - lia.
Defined.

(** C4, counterexample: the sweeper that runs exactly 120000 ms after the
    assignment was recorded keeps it, and the chat id the poller sees after
    that is assigned to the project. *)
Lemma pending_survives_deadline :
  let o := newChatInProject "p1" 1000 (mkObserver None None) in
  gpmPendingChatAssignment (sweepTick (1000 + 120000) o) = Some (mkPending "p1" 1000) /\
  run o [Poll 60000 None; Sweep (1000 + 120000); Poll (1000 + 120500) (Some "x")]
  = (mkObserver None (Some "x"), [AutoAssign "x" "p1"]).
Proof. split; reflexivity. Qed.

(** ** Arrays of projects *)

Lemma find_project_cons pid p ps :
  find_project pid (p :: ps) =
    if decide (proj_id p = pid) then Some p else find_project pid ps.
Proof.
  unfold find_project, has_id. cbn [List.find].
  case_bool_decide; by case_decide.
Qed.

Lemma find_project_app pid l1 l2 :
  find_project pid (l1 ++ l2) =
    match find_project pid l1 with
    | Some p => Some p
    | None => find_project pid l2
    end.
Proof.
  induction l1 as [|x l1 IH]; [done|].
  rewrite <- app_comm_cons, !find_project_cons. by case_decide.
Qed.

Lemma find_project_None pid ps :
  find_project pid ps = None <-> forall p, p ∈ ps -> proj_id p <> pid.
Proof.
  induction ps as [|x ps IH].
  - split; [intros _ p Hp; by apply elem_of_nil in Hp|done].
  - rewrite find_project_cons. case_decide as Hx.
    + split; [done|]. intros H. exfalso. eapply H; [apply list_elem_of_here|done].
    + rewrite IH. split.
      * intros H p [->|Hp]%elem_of_cons; [done|by apply H].
      * intros H p Hp. apply H. by apply list_elem_of_further.
Qed.

Lemma find_project_split pid ps p :
  find_project pid ps = Some p ->
  exists l1 l2, ps = l1 ++ p :: l2 /\ find_project pid l1 = None /\ proj_id p = pid.
Proof.
  induction ps as [|x ps IH]; [done|].
  rewrite find_project_cons. case_decide as Hx.
  - intros [= ->]. by exists [], ps.
  - intros (l1 & l2 & -> & Hn & Hid)%IH.
    exists (x :: l1), l2. split; [done|]. split; [|done].
    rewrite find_project_cons. by case_decide.
Qed.

Lemma find_project_Some pid ps p :
  find_project pid ps = Some p -> proj_id p = pid /\ p ∈ ps.
Proof.
  intros (l1 & l2 & -> & _ & Hid)%find_project_split. split; [done|].
  apply elem_of_app. right. apply list_elem_of_here.
Qed.

Lemma modify_first_cons pid f p ps :
  modify_first pid f (p :: ps) =
    if decide (proj_id p = pid) then f p :: ps else p :: modify_first pid f ps.
Proof.
  cbn [modify_first]. unfold has_id. case_bool_decide; by case_decide.
Qed.

Lemma modify_first_None pid f ps :
  find_project pid ps = None -> modify_first pid f ps = ps.
Proof.
  induction ps as [|x ps IH]; [done|].
  rewrite find_project_cons, modify_first_cons.
  case_decide; [done|]. intros Hn. by rewrite IH.
Qed.

Lemma modify_first_split pid f l1 p l2 :
  find_project pid l1 = None -> proj_id p = pid ->
  modify_first pid f (l1 ++ p :: l2) = l1 ++ f p :: l2.
Proof.
  intros Hn Hid. induction l1 as [|x l1 IH].
  - cbn [app]. rewrite modify_first_cons. by case_decide.
  - rewrite find_project_cons in Hn. case_decide as Hx; [done|].
    rewrite <- !app_comm_cons, modify_first_cons.
    case_decide; [done|]. by rewrite IH.
Qed.

(** ** createProject with a parent id that resolves to no project *)

Lemma getRootProjects_elem ps p :
  p ∈ getRootProjects ps <-> p ∈ ps /\ truthy_id (proj_parentId p) = false.
Proof. unfold getRootProjects. rewrite list_elem_of_filter. tauto. Qed.

Lemma getChildren_elem ps parentId p :
  p ∈ getChildren ps parentId <-> p ∈ ps /\ proj_parentId p = parentId.
Proof. unfold getChildren. rewrite list_elem_of_filter. tauto. Qed.

Lemma rendered_parent ps p :
  rendered ps p ->
  truthy_id (proj_parentId p) = false \/
  exists q, q ∈ ps /\ proj_parentId p = Some (proj_id q).
Proof.
  intros [p' Hroot | q p' Hq Hchild].
  - left. by apply getRootProjects_elem in Hroot as [_ ?].
  - right. apply getChildren_elem in Hchild as [_ Hpar].
    exists q. split; [|done].
    destruct Hq as [q' Hr | q0 q' _ Hc].
    + by apply getRootProjects_elem in Hr as [? _].
    + by apply getChildren_elem in Hc as [? _].
Qed.

(** C9, for a parent id that is not the empty string: the new record is
    appended with that parent id, the records already stored stay as they
    are, and the new record is no root, no child of any project and not
    reached by the renderer. [id] is the fresh id [uid()] returned. *)
Theorem createProject_unresolved_parent
    (w : World) (ps : list Project) (id name icon color parentId : string) :
  projects_of w = Some ps ->
  parentId <> "" ->
  find_project parentId ps = None ->
  id <> parentId ->
  let project := mkProject id name icon color (Some parentId) [] [] false None in
  exists w',
    createProject id name icon color (Some parentId) w = Some (project, w') /\
    projects_of w' = Some (ps ++ [project]) /\
    (project ∉ getRootProjects (ps ++ [project])) /\
    (forall q, q ∈ ps ++ [project] ->
       project ∉ getChildren (ps ++ [project]) (Some (proj_id q))) /\
    ~ rendered (ps ++ [project]) project.
Proof.
  intros Hps Hne Hnone Hfresh project.
  assert (Htruthy : truthy_id (Some parentId) = true).
  { cbn. destruct (String.eqb_spec parentId ""); [done|reflexivity]. }
  assert (Hfind : find_project parentId (ps ++ [project]) = None).
  { rewrite find_project_app, Hnone, find_project_cons.
    case_decide as Hid; [by cbn in Hid|done]. }
  assert (Hnoparent : forall q, q ∈ ps ++ [project] -> proj_id q <> parentId).
  { by apply find_project_None. }
  assert (Hrun : createProject id name icon color (Some parentId) w =
                 Some (project, put "gpm_projects" (of_projects (ps ++ [project])) w)).
  { unfold createProject, bind. rewrite (readProjects_run _ _ Hps).
    rewrite Htruthy. cbn [default].
    rewrite (modify_first_None _ _ _ Hfind).
    rewrite writeProjects_run. unfold ret. by rewrite last_snoc. }
  eexists. split; [exact Hrun|].
  split; [apply projects_of_put_projects|].
  split; [|split].
  - intros [_ Hroot]%getRootProjects_elem. cbn [project proj_parentId] in Hroot.
    by rewrite Htruthy in Hroot.
  - intros q Hq [_ Hpar]%getChildren_elem. cbn [project proj_parentId] in Hpar.
    injection Hpar as Hpar. by apply (Hnoparent q Hq).
  - intros [Hroot | (q & Hq & Hpar)]%rendered_parent.
    + cbn [project proj_parentId] in Hroot. by rewrite Htruthy in Hroot.
    + cbn [project proj_parentId] in Hpar. injection Hpar as Hpar.
      by apply (Hnoparent q Hq).
Qed.

Lemma createProject_unresolved_parent_witness :
  let project := mkProject "p3" "Notes" "N" "#fff" (Some "gone") [] [] false None in
  exists w',
    createProject "p3" "Notes" "N" "#fff" (Some "gone") sample_world
      = Some (project, w') /\
    projects_of w' = Some (sample_projects ++ [project]) /\
    (project ∉ getRootProjects (sample_projects ++ [project])) /\
    (forall q, q ∈ sample_projects ++ [project] ->
       project ∉ getChildren (sample_projects ++ [project]) (Some (proj_id q))) /\
    ~ rendered (sample_projects ++ [project]) project.
Proof.
  apply (createProject_unresolved_parent sample_world sample_projects
           "p3" "Notes" "N" "#fff" "gone").
  - vm_compute. reflexivity.
  - discriminate.
  - reflexivity.
  - discriminate.
Defined.

(** C9, counterexample: the empty string matches no project and is not
    [null], yet [!p.parentId] holds for it: the new record is a root. *)
Lemma createProject_empty_parent_is_root :
  let project := mkProject "p3" "Notes" "N" "#fff" (Some "") [] [] false None in
  find_project "" sample_projects = None /\
  exists w',
    createProject "p3" "Notes" "N" "#fff" (Some "") sample_world
      = Some (project, w') /\
    projects_of w' = Some (sample_projects ++ [project]) /\
    proj_parentId project <> None /\
    project ∈ getRootProjects (sample_projects ++ [project]) /\
    rendered (sample_projects ++ [project]) project.
Proof.
  intros project. split; [reflexivity|].
  assert (Hroot : project ∈ getRootProjects (sample_projects ++ [project])).
  { apply getRootProjects_elem. split; [|reflexivity].
    apply elem_of_app. right. apply list_elem_of_here. }
  eexists. split; [vm_compute; reflexivity|].
  split; [vm_compute; reflexivity|].
  split; [discriminate|]. split; [exact Hroot|].
  by apply rendered_root.
Qed.

(** ** Lists of chat ids *)

Lemma occurrences_app c l1 l2 :
  occurrences c (l1 ++ l2) = (occurrences c l1 + occurrences c l2)%nat.
Proof. unfold occurrences. by rewrite filter_app, length_app. Qed.

Lemma occurrences_cons c x l :
  occurrences c (x :: l) =
    ((if decide (x = c) then 1 else 0) + occurrences c l)%nat.
Proof.
  unfold occurrences. rewrite filter_cons. by case_decide.
Qed.

Lemma occurrences_zero c l : occurrences c l = 0%nat <-> c ∉ l.
Proof.
  induction l as [|x l IH].
  - split; [intros _; apply not_elem_of_nil|done].
  - rewrite occurrences_cons, not_elem_of_cons. case_decide as Hx.
    + subst. split; [done|]. by intros [? _].
    + cbn [Nat.add]. rewrite IH. split; [by intros ?; split|tauto].
Qed.

Lemma without_elem c x l : x ∈ without c l <-> x ∈ l /\ x <> c.
Proof. unfold without. rewrite list_elem_of_filter. tauto. Qed.

Lemma without_not_elem c l : c ∉ l -> without c l = l.
Proof.
  induction l as [|x l IH]; [done|].
  rewrite not_elem_of_cons. intros [Hx Hl].
  unfold without in *. rewrite filter_cons.
  case_decide; [|congruence]. by rewrite IH.
Qed.

Lemma without_app c l1 l2 : without c (l1 ++ l2) = without c l1 ++ without c l2.
Proof. unfold without. apply filter_app. Qed.

Lemma without_single c : without c [c] = [].
Proof. unfold without. rewrite filter_cons. by case_decide. Qed.

Lemma occurrences_without_same c l : occurrences c (without c l) = 0%nat.
Proof. apply occurrences_zero. rewrite without_elem. by intros [_ ?]. Qed.

Lemma occurrences_without_other c c' l :
  c' <> c -> occurrences c' (without c l) = occurrences c' l.
Proof.
  intros Hne. induction l as [|x l IH]; [done|].
  unfold without in *. rewrite filter_cons. case_decide as Hx.
  - by rewrite !occurrences_cons, IH.
  - subst. rewrite IH, occurrences_cons. by case_decide.
Qed.

Lemma includes_true c l : includes c l = true <-> c ∈ l.
Proof. unfold includes. apply bool_decide_eq_true. Qed.

Lemma includes_false c l : includes c l = false <-> c ∉ l.
Proof. unfold includes. apply bool_decide_eq_false. Qed.

Lemma add_chat_fresh c q :
  c ∉ proj_chatIds q -> add_chat c q = set_chatIds (proj_chatIds q ++ [c]) q.
Proof. intros H. unfold add_chat. by rewrite (proj2 (includes_false _ _) H). Qed.

(** Dropping the chat and adding it again ends with the chat last. *)
Lemma add_drop_add c q :
  c ∉ proj_chatIds q ->
  add_chat c (drop_chat c (add_chat c q)) = add_chat c q.
Proof.
  intros Hc. rewrite (add_chat_fresh _ _ Hc).
  unfold drop_chat. cbn [set_chatIds proj_chatIds proj_id proj_name proj_icon
    proj_color proj_parentId proj_children proj_collapsed proj_order].
  rewrite without_app, without_single, app_nil_r, (without_not_elem _ _ Hc).
  rewrite add_chat_fresh by done. reflexivity.
Qed.

Lemma find_modify_first x pid g ps :
  (forall p, proj_id (g p) = proj_id p) ->
  find_project x (modify_first pid g ps) =
    if decide (x = pid) then g <$> find_project x ps else find_project x ps.
Proof.
  intros Hg. induction ps as [|p ps IH].
  - by case_decide.
  - rewrite modify_first_cons.
    destruct (decide (proj_id p = pid)) as [Hp|Hp].
    + rewrite !find_project_cons, Hg.
      destruct (decide (x = pid)), (decide (proj_id p = x)); cbn; congruence.
    + rewrite !find_project_cons, IH.
      destruct (decide (x = pid)), (decide (proj_id p = x)); cbn; congruence.
Qed.

Lemma modify_first_compose pid f g ps :
  (forall p, proj_id (g p) = proj_id p) ->
  modify_first pid f (modify_first pid g ps) = modify_first pid (f ∘ g) ps.
Proof.
  intros Hg. induction ps as [|p ps IH]; [done|].
  rewrite !modify_first_cons. case_decide as Hp.
  - rewrite modify_first_cons, Hg. by case_decide.
  - rewrite modify_first_cons. case_decide; [done|]. by rewrite IH.
Qed.

Lemma modify_first_ext pid f g ps q :
  find_project pid ps = Some q -> f q = g q ->
  modify_first pid f ps = modify_first pid g ps.
Proof.
  intros (l1 & l2 & -> & Hn & Hid)%find_project_split Hfg.
  by rewrite !modify_first_split, Hfg.
Qed.

Lemma drop_chat_id c p : proj_id (drop_chat c p) = proj_id p.
Proof. reflexivity. Qed.

Lemma add_chat_id c p : proj_id (add_chat c p) = proj_id p.
Proof. unfold add_chat. by destruct (includes _ _). Qed.

(** Under the precondition, the project [p] resolves to after the first
    step of [assignChat] does not list the chat. *)
Lemma find_unlink_fresh c cm ps p q :
  find_project p ps = Some q ->
  (exists m, cm !! c = Some m /\ map_projectId m = p) \/ c ∉ proj_chatIds q ->
  exists q0, find_project p (unlink_chat c cm ps) = Some q0 /\
             c ∉ proj_chatIds q0.
Proof.
  intros Hq Hpre. unfold unlink_chat. destruct (cm !! c) as [m|] eqn:Hm.
  - rewrite find_modify_first by apply drop_chat_id.
    case_decide as Hold; rewrite Hq; cbn.
    + eexists. split; [done|]. cbn. rewrite without_elem. by intros [_ ?].
    + exists q. split; [done|].
      destruct Hpre as [(m' & [= <-] & Hp)|?]; [congruence|done].
  - exists q. split; [done|]. by destruct Hpre as [(m' & [=] & _)|?].
Qed.

(** ** Writing an entry of the chat map *)

Lemma set_entry_insert c v cm :
  c <> "__proto__" -> set_entry c v cm = <[c := v]> cm.
Proof.
  intros Hc. unfold set_entry. destruct (cm !! c); [done|].
  by destruct (String.eqb_spec c "__proto__").
Qed.

Lemma set_entry_stored c v cm m :
  cm !! c = Some m -> set_entry c v cm = <[c := v]> cm.
Proof. intros Hm. unfold set_entry. by rewrite Hm. Qed.

Lemma set_entry_proto v cm :
  cm !! "__proto__" = None -> set_entry "__proto__" v cm = cm.
Proof. intros Hnone. unfold set_entry. by rewrite Hnone. Qed.

Lemma assignChat_chatMap_insert c p cm :
  c <> "__proto__" ->
  assignChat_chatMap c p cm =
    <[c := mkMapping p (from_option map_alias "" (cm !! c))
                      (from_option map_pinned false (cm !! c))]> cm.
Proof. intros Hc. unfold assignChat_chatMap. by apply set_entry_insert. Qed.

(** The entry is written, or the id is [__proto__], without an entry, and
    the map is left as it is. *)
Lemma assignChat_chatMap_cases c p cm :
  assignChat_chatMap c p cm =
    <[c := mkMapping p (from_option map_alias "" (cm !! c))
                      (from_option map_pinned false (cm !! c))]> cm
  \/ (c = "__proto__" /\ cm !! c = None /\ assignChat_chatMap c p cm = cm).
Proof.
  destruct (decide (c = "__proto__")) as [->|Hc].
  - destruct (cm !! "__proto__") as [m|] eqn:Hm.
    + left. unfold assignChat_chatMap.
      by rewrite (set_entry_stored _ _ _ _ Hm), Hm.
    + right. unfold assignChat_chatMap. by rewrite set_entry_proto.
  - left. by apply assignChat_chatMap_insert.
Qed.

(** ** assignChat twice *)

Lemma add_chat_twice c q : add_chat c (add_chat c q) = add_chat c q.
Proof.
  destruct (decide (c ∈ proj_chatIds q)) as [Hin|Hout].
  - unfold add_chat. by rewrite !(proj2 (includes_true _ _) Hin).
  - rewrite (add_chat_fresh _ _ Hout). unfold add_chat.
    cbn [set_chatIds proj_chatIds].
    rewrite (proj2 (includes_true c (proj_chatIds q ++ [c]))); [done|].
    apply elem_of_app. right. apply list_elem_of_here.
Qed.

Lemma assignChat_chatMap_twice c p cm :
  assignChat_chatMap c p (assignChat_chatMap c p cm) = assignChat_chatMap c p cm.
Proof.
  destruct (assignChat_chatMap_cases c p cm) as [E|(-> & Hnone & E)].
  - rewrite E. unfold assignChat_chatMap at 1.
    rewrite (set_entry_stored _ _ _ _ (lookup_insert_eq _ _ _)).
    rewrite !lookup_insert_eq. cbn. apply insert_insert_eq.
  - by rewrite !E.
Qed.

Lemma assignChat_projects_twice c p ps cm q :
  find_project p ps = Some q ->
  (exists m, cm !! c = Some m /\ map_projectId m = p) \/ c ∉ proj_chatIds q ->
  assignChat_projects c p (assignChat_projects c p ps cm) (assignChat_chatMap c p cm)
  = assignChat_projects c p ps cm.
Proof.
  intros Hq Hpre.
  destruct (assignChat_chatMap_cases c p cm) as [E|(-> & Hnone & E)].
  - unfold assignChat_projects at 1. unfold unlink_chat at 1. rewrite E.
    rewrite lookup_insert_eq. cbn [map_projectId].
    unfold assignChat_projects.
    destruct (find_unlink_fresh c cm ps p q Hq Hpre) as (q0 & Hq0 & Hc).
    rewrite !modify_first_compose by (intros; apply drop_chat_id || apply add_chat_id).
    apply (modify_first_ext _ _ _ _ q0 Hq0). cbn. by apply add_drop_add.
  - unfold assignChat_projects, unlink_chat. rewrite E, Hnone.
    rewrite modify_first_compose by apply add_chat_id.
    apply (modify_first_ext _ _ _ _ q Hq). cbn. apply add_chat_twice.
Qed.

(** C7, for a chat that is listed in the project only if its mapping names
    that project: the second [assignChat] leaves the stored collections of
    the first, with the chat last in the project's [chatIds], once.  A
    mapping the chat had keeps its alias and its pin; a chat that had none
    is mapped to the project, with the empty alias and no pin where its id
    is not an inherited name -- but under the id [__proto__] no mapping is
    stored. *)
Theorem assignChat_twice
    (w : World) (ps : list Project) (cm : gmap string ChatMapping)
    (c p : string) (q : Project) :
  projects_of w = Some ps ->
  chatMap_of w = Some cm ->
  find_project p ps = Some q ->
  (exists m, cm !! c = Some m /\ map_projectId m = p) \/ c ∉ proj_chatIds q ->
  exists w1 w2 ps1 cm1 q1 rest,
    assignChat c p w = Some (tt, w1) /\
    assignChat c p w1 = Some (tt, w2) /\
    storage w2 = storage w1 /\
    projects_of w1 = Some ps1 /\ projects_of w2 = Some ps1 /\
    chatMap_of w1 = Some cm1 /\ chatMap_of w2 = Some cm1 /\
    find_project p ps1 = Some q1 /\
    proj_chatIds q1 = rest ++ [c] /\ (c ∉ rest) /\
    (forall m, cm !! c = Some m ->
       cm1 !! c = Some (mkMapping p (map_alias m) (map_pinned m))) /\
    (cm !! c = None -> c <> "__proto__" ->
       exists m1, cm1 !! c = Some m1 /\ map_projectId m1 = p /\
                  (inherited c = false -> m1 = mkMapping p "" false)) /\
    (cm !! c = None -> c = "__proto__" -> cm1 !! c = None).
Proof.
  intros Hps Hcm Hq Hpre.
  set (ps1 := assignChat_projects c p ps cm).
  set (cm1 := assignChat_chatMap c p cm).
  set (w1 := put "gpm_chatMap" (of_chatMap cm1)
               (put "gpm_projects" (of_projects ps1) w)).
  destruct (views_after_writes ps1 cm1 w) as [Hps1 Hcm1]. fold w1 in Hps1, Hcm1.
  destruct (find_unlink_fresh c cm ps p q Hq Hpre) as (q0 & Hq0 & Hc).
  assert (Hq1 : find_project p ps1 = Some (add_chat c q0)).
  { unfold ps1, assignChat_projects.
    rewrite find_modify_first by apply add_chat_id.
    case_decide; [|done]. by rewrite Hq0. }
  assert (Hrun2 : assignChat c p w1 =
            Some (tt, put "gpm_chatMap" (of_chatMap cm1)
                        (put "gpm_projects" (of_projects ps1) w1))).
  { rewrite (assignChat_run w1 ps1 cm1 Hps1 Hcm1).
    pose proof (assignChat_projects_twice c p ps cm q Hq Hpre) as E1.
    pose proof (assignChat_chatMap_twice c p cm) as E2.
    fold ps1 cm1 in E1, E2. by rewrite E1, E2. }
  destruct (views_after_writes ps1 cm1 w1) as [Hps2 Hcm2].
  exists w1, (put "gpm_chatMap" (of_chatMap cm1)
                (put "gpm_projects" (of_projects ps1) w1)),
         ps1, cm1, (add_chat c q0), (proj_chatIds q0).
  split; [by apply assignChat_run|].
  split; [exact Hrun2|].
  split.
  { unfold w1, put. cbn [storage].
    apply map_eq. intros k.
    destruct (decide (k = "gpm_chatMap")) as [->|Hk1]; [by simplify_map_eq|].
    destruct (decide (k = "gpm_projects")) as [->|Hk2]; by simplify_map_eq. }
  repeat (split; [done|]).
  split; [by rewrite add_chat_fresh|].
  split; [done|].
  split; [|split].
  - intros m Hm. unfold cm1, assignChat_chatMap.
    rewrite (set_entry_stored _ _ _ _ Hm), lookup_insert_eq. by rewrite Hm.
  - intros Hnone Hproto. unfold cm1.
    rewrite assignChat_chatMap_insert by done. rewrite lookup_insert_eq, Hnone.
    eexists. split; [reflexivity|]. by split.
  - intros Hnone ->. unfold cm1, assignChat_chatMap.
    by rewrite set_entry_proto.
Qed.

Lemma assignChat_twice_witness :
  exists w1 w2 ps1 cm1 q1 rest,
    assignChat "abc123" "p2" sample_world = Some (tt, w1) /\
    assignChat "abc123" "p2" w1 = Some (tt, w2) /\
    storage w2 = storage w1 /\
    projects_of w1 = Some ps1 /\ projects_of w2 = Some ps1 /\
    chatMap_of w1 = Some cm1 /\ chatMap_of w2 = Some cm1 /\
    find_project "p2" ps1 = Some q1 /\
    proj_chatIds q1 = rest ++ ["abc123"] /\ ("abc123" ∉ rest) /\
    (forall m, sample_chatMap !! "abc123" = Some m ->
       cm1 !! "abc123" = Some (mkMapping "p2" (map_alias m) (map_pinned m))) /\
    (sample_chatMap !! "abc123" = None -> "abc123" <> "__proto__" ->
       exists m1, cm1 !! "abc123" = Some m1 /\ map_projectId m1 = "p2" /\
                  (inherited "abc123" = false -> m1 = mkMapping "p2" "" false)) /\
    (sample_chatMap !! "abc123" = None -> "abc123" = "__proto__" ->
       cm1 !! "abc123" = None).
Proof.
  apply (assignChat_twice sample_world sample_projects sample_chatMap
           "abc123" "p2" papers).
  - vm_compute. reflexivity.
  - vm_compute. reflexivity.
  - reflexivity.
  - left. exists (mkMapping "p2" "" false). split; reflexivity.
Defined.

(** C7, counterexample: a project that lists the chat first while the chat
    has no mapping.  The first call finds the chat listed and leaves the
    list as it is; the second call, now with a mapping, moves the chat to
    the end. *)
Lemma assignChat_twice_moves_chat :
  let p0 := mkProject "p1" "Research" "R" "#8ab4f8" None [] ["c"; "d"] false None in
  let w := put "gpm_projects" (of_projects [p0]) empty_world in
  exists w1 w2,
    find_project "p1" [p0] = Some p0 /\
    assignChat "c" "p1" w = Some (tt, w1) /\
    assignChat "c" "p1" w1 = Some (tt, w2) /\
    projects_of w1 = Some [p0] /\
    projects_of w2 = Some [set_chatIds ["d"; "c"] p0] /\
    storage w2 <> storage w1.
Proof.
  intros p0 w. eexists. eexists.
  split; [reflexivity|].
  split; [vm_compute; reflexivity|].
  split; [vm_compute; reflexivity|].
  assert (H1 : forall s1 s2 : gmap string json,
             s1 = s2 ->
             as_projects (js_or (s1 !! "gpm_projects") (JArr [])) =
             as_projects (js_or (s2 !! "gpm_projects") (JArr []))) by (by intros ? ? ->).
  split; [vm_compute; reflexivity|].
  split; [vm_compute; reflexivity|].
  intros Heq. apply H1 in Heq. vm_compute in Heq. discriminate Heq.
Qed.

(** ** The chat-assignment invariant *)

Lemma agree_on_refl c x : agree_on c x x.
Proof. by split. Qed.

Lemma agree_on_trans c x y z : agree_on c x y -> agree_on c y z -> agree_on c x z.
Proof. intros [? ?] [? ?]. split; congruence. Qed.

Lemma agree_on_elem c x y :
  agree_on c x y -> (c ∈ proj_chatIds y <-> c ∈ proj_chatIds x).
Proof.
  intros [_ Ho].
  destruct (decide (c ∈ proj_chatIds x)) as [Hx|Hx],
           (decide (c ∈ proj_chatIds y)) as [Hy|Hy]; try tauto.
  - apply occurrences_zero in Hy. rewrite Hy in Ho. symmetry in Ho.
    by apply occurrences_zero in Ho.
  - apply occurrences_zero in Hx. rewrite Hx in Ho.
    by apply occurrences_zero in Ho.
Qed.

Lemma agree_modify_first c pid f ps :
  (forall x, agree_on c x (f x)) ->
  Forall2 (agree_on c) ps (modify_first pid f ps).
Proof.
  intros Hf. induction ps as [|x ps IH]; [constructor|].
  rewrite modify_first_cons. case_decide.
  - constructor; [apply Hf|]. apply Forall_Forall2_diag, Forall_forall.
    intros; apply agree_on_refl.
  - constructor; [apply agree_on_refl|done].
Qed.

Lemma agree_refl_list c ps : Forall2 (agree_on c) ps ps.
Proof. apply Forall_Forall2_diag, Forall_forall. intros; apply agree_on_refl. Qed.

Lemma agree_trans_list c l1 l2 l3 :
  Forall2 (agree_on c) l1 l2 -> Forall2 (agree_on c) l2 l3 ->
  Forall2 (agree_on c) l1 l3.
Proof.
  intros H12. revert l3. induction H12 as [|x y l1 l2 Hxy _ IH]; intros l3 H23.
  - by inversion H23.
  - inversion H23 as [|y' z l2' l3' Hyz H23']; subst.
    constructor; [by eapply agree_on_trans|by apply IH].
Qed.

Lemma agree_find_None c pid l l' :
  Forall2 (agree_on c) l l' ->
  find_project pid l = None -> find_project pid l' = None.
Proof.
  induction 1 as [|x y l l' [Hid _] _ IH]; [done|].
  rewrite !find_project_cons, Hid. case_decide; [done|exact IH].
Qed.

Lemma agree_elem_r c l l' y :
  Forall2 (agree_on c) l l' -> y ∈ l' -> exists x, x ∈ l /\ agree_on c x y.
Proof.
  induction 1 as [|x0 y0 l l' Hxy _ IH]; [by intros ?%elem_of_nil|].
  intros [->|Hy]%elem_of_cons.
  - exists x0. split; [apply list_elem_of_here|done].
  - destruct (IH Hy) as (x & Hx & Hag). exists x.
    split; [by apply list_elem_of_further|done].
Qed.

(** Ownership looks at ids and at how often the chat is listed. *)
Lemma owned_by_agree c pid ps ps' :
  Forall2 (agree_on c) ps ps' -> owned_by ps c pid -> owned_by ps' c pid.
Proof.
  intros Hag (l1 & p & l2 & -> & Hn & Hid & Hocc & Hothers).
  apply Forall2_app_inv_l in Hag as (l1' & r' & H1 & Hr & ->).
  apply Forall2_cons_inv_l in Hr as (p' & l2' & Hp & H2 & ->).
  exists l1', p', l2'. split; [done|].
  split; [by eapply agree_find_None|].
  destruct Hp as [Hid' Hocc'].
  split; [congruence|]. split; [congruence|].
  intros y Hy Hc.
  assert (Hag' : Forall2 (agree_on c) (l1 ++ l2) (l1' ++ l2')) by by apply Forall2_app.
  destruct (agree_elem_r _ _ _ _ Hag' Hy) as (x & Hx & Hxy).
  apply (Hothers x Hx). by apply (agree_on_elem _ _ _ Hxy).
Qed.

Lemma drop_chat_agree c c' x : c' <> c -> agree_on c' x (drop_chat c x).
Proof.
  intros Hne. split; [reflexivity|]. cbn. by apply occurrences_without_other.
Qed.

Lemma add_chat_agree c c' x : c' <> c -> agree_on c' x (add_chat c x).
Proof.
  intros Hne. unfold add_chat. destruct (includes _ _); [apply agree_on_refl|].
  split; [reflexivity|]. unfold set_chatIds. cbn [proj_chatIds].
  rewrite occurrences_app, (occurrences_cons c' c []).
  case_decide; [congruence|]. cbn. lia.
Qed.

Lemma unlink_agree c c' cm ps :
  c' <> c -> Forall2 (agree_on c') ps (unlink_chat c cm ps).
Proof.
  intros Hne. unfold unlink_chat. destruct (cm !! c); [|apply agree_refl_list].
  apply agree_modify_first. intros x. by apply drop_chat_agree.
Qed.

Lemma find_unlink_chat_exists c cm ps p q :
  find_project p ps = Some q ->
  exists q0, find_project p (unlink_chat c cm ps) = Some q0.
Proof.
  intros Hq. unfold unlink_chat. destruct (cm !! c) as [m|]; [|eauto].
  rewrite find_modify_first by apply drop_chat_id.
  case_decide; rewrite Hq; cbn; eauto.
Qed.

(** After the first step of [assignChat] no project lists the chat. *)
Lemma unlink_clean c cm ps :
  chat_invariant ps cm -> no_stray_chats ps cm ->
  forall x, x ∈ unlink_chat c cm ps -> c ∉ proj_chatIds x.
Proof.
  intros Ha Hb x. unfold unlink_chat.
  destruct (cm !! c) as [m|] eqn:Hm.
  - destruct (Ha c m Hm) as (l1 & p & l2 & -> & Hn & Hid & _ & Hothers).
    rewrite modify_first_split by done.
    rewrite elem_of_app, elem_of_cons.
    intros [Hx|[->|Hx]].
    + apply Hothers, elem_of_app. by left.
    + cbn. rewrite without_elem. by intros [_ ?].
    + apply Hothers, elem_of_app. by right.
  - intros Hx Hc. destruct (Hb x c Hx Hc) as [m Hm']. congruence.
Qed.

Lemma owned_by_add c p ps q :
  find_project p ps = Some q ->
  (forall x, x ∈ ps -> c ∉ proj_chatIds x) ->
  owned_by (modify_first p (add_chat c) ps) c p.
Proof.
  intros (l1 & l2 & -> & Hn & Hid)%find_project_split Hclean.
  rewrite modify_first_split by done.
  assert (Hq : c ∉ proj_chatIds q).
  { apply Hclean, elem_of_app. right. apply list_elem_of_here. }
  exists l1, (add_chat c q), l2. split; [done|]. split; [done|].
  split; [by rewrite add_chat_id|].
  split.
  - rewrite add_chat_fresh by done. unfold set_chatIds. cbn [proj_chatIds].
    rewrite occurrences_app.
    rewrite (proj2 (occurrences_zero _ _) Hq), occurrences_cons.
    by case_decide.
  - intros x Hx. apply Hclean. rewrite elem_of_app, elem_of_cons.
    apply elem_of_app in Hx. tauto.
Qed.

Lemma assignChat_agree c p ps cm c' :
  c' <> c -> Forall2 (agree_on c') ps (assignChat_projects c p ps cm).
Proof.
  intros Hne. eapply agree_trans_list; [by apply unlink_agree|].
  apply agree_modify_first. intros x. by apply add_chat_agree.
Qed.

Lemma assignChat_consistent c p ps cm q :
  c <> "__proto__" ->
  chat_invariant ps cm -> no_stray_chats ps cm ->
  find_project p ps = Some q ->
  chat_invariant (assignChat_projects c p ps cm) (assignChat_chatMap c p cm) /\
  no_stray_chats (assignChat_projects c p ps cm) (assignChat_chatMap c p cm).
Proof.
  intros Hproto Ha Hb Hq.
  assert (Hagree : forall c', c' <> c ->
            Forall2 (agree_on c') ps (assignChat_projects c p ps cm))
    by (intros c'; apply assignChat_agree).
  rewrite assignChat_chatMap_insert by done.
  split.
  - intros c' m'.
    destruct (decide (c' = c)) as [->|Hne].
    + rewrite lookup_insert_eq. intros [= <-]. cbn [map_projectId].
      destruct (find_unlink_chat_exists c cm ps p q Hq) as (q0 & Hq0).
      eapply owned_by_add; [exact Hq0|]. by apply unlink_clean.
    + rewrite lookup_insert_ne by done. intros Hm.
      eapply owned_by_agree; [by apply Hagree|by apply Ha].
  - intros y c' Hy Hc'.
    destruct (decide (c' = c)) as [->|Hne].
    + rewrite lookup_insert_eq. by eexists.
    + rewrite lookup_insert_ne by done.
      destruct (agree_elem_r _ _ _ _ (Hagree c' Hne) Hy) as (x & Hx & Hxy).
      apply (Hb x c' Hx). by apply (agree_on_elem _ _ _ Hxy).
Qed.

(** [assignChat] with a project id that does not resolve: the mapping is
    recorded, the chat is listed nowhere, and nothing changes for the other
    chats. *)
Lemma assignChat_dangling c p ps cm :
  c <> "__proto__" ->
  chat_invariant ps cm -> no_stray_chats ps cm ->
  find_project p ps = None ->
  (exists m', assignChat_chatMap c p cm !! c = Some m' /\ map_projectId m' = p) /\
  (forall x, x ∈ assignChat_projects c p ps cm -> c ∉ proj_chatIds x) /\
  (forall c' m, c' <> c -> assignChat_chatMap c p cm !! c' = Some m ->
     owned_by (assignChat_projects c p ps cm) c' (map_projectId m)) /\
  no_stray_chats (assignChat_projects c p ps cm) (assignChat_chatMap c p cm).
Proof.
  intros Hproto Ha Hb Hnone.
  assert (Hagree : forall c', c' <> c ->
            Forall2 (agree_on c') ps (assignChat_projects c p ps cm))
    by (intros c'; apply assignChat_agree).
  assert (Hsame : assignChat_projects c p ps cm = unlink_chat c cm ps).
  { unfold assignChat_projects. apply modify_first_None.
    unfold unlink_chat. destruct (cm !! c) as [m|]; [|done].
    rewrite find_modify_first by apply drop_chat_id.
    case_decide as Hold; [|done]. subst p. by rewrite Hnone. }
  rewrite assignChat_chatMap_insert by done.
  split; [|split; [|split]].
  - eexists. split; [apply lookup_insert_eq|done].
  - rewrite Hsame. by apply unlink_clean.
  - intros c' m Hne. rewrite lookup_insert_ne by done. intros Hm.
    eapply owned_by_agree; [by apply Hagree|by apply Ha].
  - intros y c' Hy Hc'.
    destruct (decide (c' = c)) as [->|Hne].
    + rewrite lookup_insert_eq. by eexists.
    + rewrite lookup_insert_ne by done.
      destruct (agree_elem_r _ _ _ _ (Hagree c' Hne) Hy) as (x & Hx & Hxy).
      apply (Hb x c' Hx). by apply (agree_on_elem _ _ _ Hxy).
Qed.

Lemma unassignChat_consistent c ps cm :
  chat_invariant ps cm -> no_stray_chats ps cm ->
  chat_invariant (unlink_chat c cm ps) (delete c cm) /\
  no_stray_chats (unlink_chat c cm ps) (delete c cm).
Proof.
  intros Ha Hb. split.
  - intros c' m [Hne Hm]%lookup_delete_Some.
    eapply owned_by_agree; [by apply unlink_agree|by apply Ha].
  - intros y c' Hy Hc'.
    destruct (decide (c' = c)) as [->|Hne].
    + exfalso. by apply (unlink_clean c cm ps Ha Hb y Hy).
    + rewrite lookup_delete_ne by done.
      destruct (agree_elem_r _ _ _ _ (unlink_agree c c' cm ps Hne) Hy)
        as (x & Hx & Hxy).
      apply (Hb x c' Hx). by apply (agree_on_elem _ _ _ Hxy).
Qed.

(** Changing the alias or the pin of a mapping. *)
Lemma remap_consistent c m m' ps cm :
  chat_invariant ps cm -> no_stray_chats ps cm ->
  cm !! c = Some m -> map_projectId m' = map_projectId m ->
  chat_invariant ps (<[c := m']> cm) /\ no_stray_chats ps (<[c := m']> cm).
Proof.
  intros Ha Hb Hm Hsame. split.
  - intros c' m0. destruct (decide (c' = c)) as [->|Hne].
    + rewrite lookup_insert_eq. intros [= <-]. rewrite Hsame. by apply Ha.
    + rewrite lookup_insert_ne by done. apply Ha.
  - intros y c' Hy Hc'. destruct (decide (c' = c)) as [->|Hne].
    + rewrite lookup_insert_eq. by eexists.
    + rewrite lookup_insert_ne by done. by apply (Hb y).
Qed.

(** Changes to projects that keep ids and chat lists. *)
Lemma consistent_agree ps ps' cm :
  (forall c, Forall2 (agree_on c) ps ps') ->
  chat_invariant ps cm -> no_stray_chats ps cm ->
  chat_invariant ps' cm /\ no_stray_chats ps' cm.
Proof.
  intros Hag Ha Hb. split.
  - intros c m Hm. eapply owned_by_agree; [apply Hag|by apply Ha].
  - intros y c Hy Hc.
    destruct (agree_elem_r _ _ _ _ (Hag c) Hy) as (x & Hx & Hxy).
    apply (Hb x c Hx). by apply (agree_on_elem _ _ _ Hxy).
Qed.

Lemma snoc_consistent new ps cm :
  proj_chatIds new = [] ->
  chat_invariant ps cm -> no_stray_chats ps cm ->
  chat_invariant (ps ++ [new]) cm /\ no_stray_chats (ps ++ [new]) cm.
Proof.
  intros Hnew Ha Hb. split.
  - intros c m Hm.
    destruct (Ha c m Hm) as (l1 & p & l2 & -> & Hn & Hid & Hocc & Hothers).
    exists l1, p, (l2 ++ [new]).
    split; [by rewrite <- app_assoc|]. repeat (split; [done|]).
    intros x. rewrite !elem_of_app, list_elem_of_singleton.
    intros [Hx|[Hx| ->]].
    + apply Hothers, elem_of_app. by left.
    + apply Hothers, elem_of_app. by right.
    + rewrite Hnew. apply not_elem_of_nil.
  - intros y c. rewrite elem_of_app, list_elem_of_singleton.
    intros [Hy| ->] Hc; [by apply (Hb y)|].
    rewrite Hnew in Hc. by apply elem_of_nil in Hc.
Qed.

Lemma createProject_consistent id name icon color parentId ps cm :
  chat_invariant ps cm -> no_stray_chats ps cm ->
  chat_invariant (createProject_projects id name icon color parentId ps) cm /\
  no_stray_chats (createProject_projects id name icon color parentId ps) cm.
Proof.
  intros Ha Hb. unfold createProject_projects.
  destruct (snoc_consistent
              (mkProject id name icon color parentId [] [] false None)
              ps cm eq_refl Ha Hb) as [Ha' Hb'].
  destruct (truthy_id parentId); [|done].
  eapply consistent_agree; [|exact Ha'|exact Hb'].
  intros c. apply agree_modify_first. intros x. by split.
Qed.

Lemma detach_agree c id ps : Forall2 (agree_on c) ps (detach id ps).
Proof.
  unfold detach. destruct (find_project id ps) as [target|];
    [|apply agree_refl_list].
  destruct (truthy_id _); [|apply agree_refl_list].
  apply agree_modify_first. intros x. by split.
Qed.

Lemma filter_consistent (S : gset string) ps cm :
  chat_invariant ps cm -> no_stray_chats ps cm ->
  chat_invariant (filter (fun p => proj_id p ∉ S) ps)
                 (filter (fun kv => map_projectId kv.2 ∉ S) cm) /\
  no_stray_chats (filter (fun p => proj_id p ∉ S) ps)
                 (filter (fun kv => map_projectId kv.2 ∉ S) cm).
Proof.
  intros Ha Hb. split.
  - intros c m [Hm Hkeep]%map_lookup_filter_Some. cbn in Hkeep.
    destruct (Ha c m Hm) as (l1 & p & l2 & -> & Hn & Hid & Hocc & Hothers).
    exists (filter (fun p => proj_id p ∉ S) l1), p,
           (filter (fun p => proj_id p ∉ S) l2).
    split.
    { rewrite filter_app, filter_cons_True; [done|]. by rewrite Hid. }
    split.
    { apply find_project_None. intros x [_ Hx]%list_elem_of_filter.
      by apply (proj1 (find_project_None _ _) Hn). }
    repeat (split; [done|]).
    intros x Hx. apply Hothers.
    rewrite elem_of_app in *. rewrite !list_elem_of_filter in Hx. tauto.
  - intros y c [Hkeep Hy]%list_elem_of_filter Hc.
    destruct (Hb y c Hy Hc) as [m Hm]. exists m.
    apply map_lookup_filter_Some. split; [done|]. cbn.
    destruct (Ha c m Hm) as (l1 & p & l2 & -> & Hn & Hid & Hocc & Hothers).
    rewrite elem_of_app, elem_of_cons in Hy.
    assert (Hyp : y = p).
    { destruct Hy as [Hy|[->|Hy]]; [|done|];
        exfalso; apply (Hothers y); [apply elem_of_app; tauto|done
                                    |apply elem_of_app; tauto|done]. }
    subst y. by rewrite <- Hid.
Qed.

Lemma deleteProject_consistent ids id ps cm :
  chat_invariant ps cm -> no_stray_chats ps cm ->
  chat_invariant (deleteProject_projects ids id ps) (deleteProject_chatMap ids cm) /\
  no_stray_chats (deleteProject_projects ids id ps) (deleteProject_chatMap ids cm).
Proof.
  intros Ha Hb. unfold deleteProject_projects, deleteProject_chatMap.
  apply filter_consistent; eapply consistent_agree; try done;
    intros c; apply detach_agree.
Qed.

Lemma assign_agree c u x :
  upd_id u = None -> upd_chatIds u = None -> agree_on c x (assign u x).
Proof. intros Hi Hc. unfold assign, agree_on. cbn. by rewrite Hi, Hc. Qed.

Lemma consistent_invariant w : consistent w -> invariant w.
Proof. intros (ps & cm & ? & ? & ? & _). by exists ps, cm. Qed.

Lemma consistent_intro w ps cm :
  projects_of w = Some ps -> chatMap_of w = Some cm ->
  chat_invariant ps cm -> no_stray_chats ps cm -> consistent w.
Proof. intros. by exists ps, cm. Qed.

Lemma consistent_after_writes ps cm w :
  chat_invariant ps cm /\ no_stray_chats ps cm ->
  consistent (put "gpm_chatMap" (of_chatMap cm)
                (put "gpm_projects" (of_projects ps) w)).
Proof.
  intros [Ha Hb]. destruct (views_after_writes ps cm w) as [Hps Hcm].
  by eapply consistent_intro.
Qed.

Lemma consistent_put_other k v w :
  k <> "gpm_projects" -> k <> "gpm_chatMap" ->
  consistent w -> consistent (put k v w).
Proof.
  intros Hk1 Hk2 (ps & cm & Hps & Hcm & Ha & Hb).
  exists ps, cm. by rewrite projects_of_put_other, chatMap_of_put_other.
Qed.

Section Runs2.
Variables (w : World) (ps : list Project) (cm : gmap string ChatMapping).
Hypothesis Hps : projects_of w = Some ps.
Hypothesis Hcm : chatMap_of w = Some cm.

Lemma setChatAlias_run c alias :
  setChatAlias c alias w =
    Some (tt, match cm !! c with
              | Some m => put "gpm_chatMap"
                            (of_chatMap (<[c := mkMapping (map_projectId m) alias (map_pinned m)]> cm)) w
              | None =>
                  if inherited c then put "gpm_chatMap" (of_chatMap cm) w
                  else w
              end).
Proof.
  unfold setChatAlias, bind. rewrite (readChatMap_run _ _ Hcm).
  destruct (cm !! c); [done|]. by destruct (inherited c).
Qed.

Lemma togglePinChat_run c :
  exists b,
  togglePinChat c w =
    Some (b, match cm !! c with
             | Some m => put "gpm_chatMap"
                           (of_chatMap (<[c := mkMapping (map_projectId m) (map_alias m)
                                                         (negb (map_pinned m))]> cm)) w
             | None =>
                 if inherited c then put "gpm_chatMap" (of_chatMap cm) w
                 else w
             end).
Proof.
  unfold togglePinChat, bind. rewrite (readChatMap_run _ _ Hcm).
  destruct (cm !! c); [eexists; reflexivity|].
  destruct (inherited c); eexists; reflexivity.
Qed.

Lemma updateProject_run id updates :
  exists r,
  updateProject id updates w =
    Some (r, match find_project id ps with
             | Some _ => put "gpm_projects"
                           (of_projects (modify_first id (assign updates) ps)) w
             | None => w
             end).
Proof.
  unfold updateProject, bind. rewrite (readProjects_run _ _ Hps).
  destruct (find_project id ps); eexists; reflexivity.
Qed.

End Runs2.

Lemma consistent_put_chatMap w ps cm' :
  projects_of w = Some ps ->
  chat_invariant ps cm' /\ no_stray_chats ps cm' ->
  consistent (put "gpm_chatMap" (of_chatMap cm') w).
Proof.
  intros Hps [Ha Hb]. exists ps, cm'.
  rewrite projects_of_put_other by done. by rewrite chatMap_of_put_chatMap.
Qed.

Lemma consistent_put_projects w ps' cm :
  chatMap_of w = Some cm ->
  chat_invariant ps' cm /\ no_stray_chats ps' cm ->
  consistent (put "gpm_projects" (of_projects ps') w).
Proof.
  intros Hcm [Ha Hb]. exists ps', cm.
  rewrite chatMap_of_put_other by done. by rewrite projects_of_put_projects.
Qed.

(** ** Quick prompts leave projects and chats alone *)

Lemma prompts_run w xs :
  value_of getQuickPrompts w = Some (JArr xs) ->
  getQuickPrompts w = Some (JArr xs, w).
Proof.
  unfold value_of, getQuickPrompts, bind, _get, ret. by intros [= ->].
Qed.

Lemma id_is_Some id p : p <> JNull -> id_is id p = Some (has_prop_id id p).
Proof. by destruct p. Qed.

Lemma filter_out_total id xs : JNull ∉ xs -> is_Some (filter_out id xs).
Proof.
  induction xs as [|x xs IH]; intros Hn; [by eexists|].
  apply not_elem_of_cons in Hn as [Hx Hxs]. destruct (IH Hxs) as [ys Hys].
  cbn [filter_out]. rewrite id_is_Some, Hys by done. by eexists.
Qed.

Lemma assign_first_total id updates xs :
  JNull ∉ xs -> is_Some (assign_first id updates xs).
Proof.
  induction xs as [|x xs IH]; intros Hn; [by eexists|].
  apply not_elem_of_cons in Hn as [Hx Hxs]. destruct (IH Hxs) as [ys Hys].
  cbn [assign_first]. rewrite id_is_Some by done. cbn.
  destruct (has_prop_id id x); [by eexists|]. rewrite Hys. by eexists.
Qed.

(** The three operations on quick prompts write the key of the quick
    prompts and nothing else. *)
Lemma quick_prompts_write_own_key w :
  (forall id title content category a w',
      saveQuickPrompt id title content category w = Some (a, w') ->
      exists v, w' = put "gpm_quickPrompts" v w) /\
  (forall id a w',
      deleteQuickPrompt id w = Some (a, w') ->
      exists v, w' = put "gpm_quickPrompts" v w) /\
  (forall id updates a w',
      updateQuickPrompt id updates w = Some (a, w') ->
      exists v, w' = put "gpm_quickPrompts" v w).
Proof.
  assert (Hget : getQuickPrompts w =
            Some (js_or (storage w !! "gpm_quickPrompts") (JArr []), w))
    by reflexivity.
  repeat split; intros *;
    unfold saveQuickPrompt, deleteQuickPrompt, updateQuickPrompt, bind;
    rewrite Hget;
    destruct (js_or (storage w !! "gpm_quickPrompts") (JArr []))
      as [| | | |xs|]; try done.
  - rewrite _set_run. intros [= _ <-]. by eexists.
  - unfold lift. destruct (filter_out id xs) as [ys|]; [|done].
    rewrite _set_run. intros [= _ <-]. by eexists.
  - unfold lift. destruct (assign_first id updates xs) as [ys|]; [|done].
    rewrite _set_run. intros [= _ <-]. by eexists.
Qed.

(** C1, for a store in which, in addition, every listed chat has a mapping:
    the operations of the data layer return and leave the store with the
    invariant (and the addition) -- [assignChat] for a chat id other than
    [__proto__] and the id of a stored project, [updateProject] for updates
    that set neither [id] nor [chatIds], [deleteProject] where the walk over
    the descendants returns, the operations on quick prompts where the
    stored prompts can be read -- and [deleteProject] and the operations on
    quick prompts do whenever they return.  [assignChat] with
    an id that is the id of no stored project returns, maps the chat to that
    id and leaves it listed by no project, with nothing changed for the
    other chats. *)
Theorem operations_keep_consistent (w : World) :
  consistent w ->
  (forall c p, c <> "__proto__" -> has_project p w ->
      keeps_consistent (assignChat c p) w) /\
  (forall c p, c <> "__proto__" -> ~ has_project p w ->
      exists w' ps' cm' m',
        assignChat c p w = Some (tt, w') /\
        projects_of w' = Some ps' /\ chatMap_of w' = Some cm' /\
        cm' !! c = Some m' /\ map_projectId m' = p /\
        (forall q, q ∈ ps' -> c ∉ proj_chatIds q) /\
        (forall c' m, c' <> c -> cm' !! c' = Some m ->
           owned_by ps' c' (map_projectId m)) /\
        no_stray_chats ps' cm') /\
  (forall c, keeps_consistent (unassignChat c) w) /\
  (forall c alias, keeps_consistent (setChatAlias c alias) w) /\
  (forall c, keeps_consistent (togglePinChat c) w) /\
  (forall id name icon color parentId,
      keeps_consistent (createProject id name icon color parentId) w) /\
  (forall id updates,
      upd_id updates = None -> upd_chatIds updates = None ->
      keeps_consistent (updateProject id updates) w) /\
  (forall settings, keeps_consistent (saveSettings settings) w) /\
  keeps_consistent clearAll w /\
  (forall fuel id,
      (forall ps ids, projects_of w = Some ps ->
         collectDescendants fuel ps id = Some ids ->
         keeps_consistent (deleteProject fuel id) w) /\
      (forall a w', deleteProject fuel id w = Some (a, w') ->
         consistent w' /\ invariant w')) /\
  (forall id title content category,
      (forall xs, value_of getQuickPrompts w = Some (JArr xs) ->
         keeps_consistent (saveQuickPrompt id title content category) w) /\
      (forall a w', saveQuickPrompt id title content category w = Some (a, w') ->
         consistent w')) /\
  (forall id,
      (forall xs, value_of getQuickPrompts w = Some (JArr xs) -> JNull ∉ xs ->
         keeps_consistent (deleteQuickPrompt id) w) /\
      (forall a w', deleteQuickPrompt id w = Some (a, w') -> consistent w')) /\
  (forall id updates,
      (forall xs, value_of getQuickPrompts w = Some (JArr xs) -> JNull ∉ xs ->
         keeps_consistent (updateQuickPrompt id updates) w) /\
      (forall a w', updateQuickPrompt id updates w = Some (a, w') ->
         consistent w')).
Proof.
  intros (ps & cm & Hps & Hcm & Ha & Hb).
  assert (Hw : consistent w) by (by eapply consistent_intro).
  assert (Hprompts : forall v, consistent (put "gpm_quickPrompts" v w))
    by (intros v; by apply consistent_put_other).
  destruct (quick_prompts_write_own_key w) as (Hsave & Hdelete & Hupdate).
  split; [|split; [|split; [|split; [|split; [|split; [|split; [|split;
    [|split; [|split; [|split; [|split]]]]]]]]]]].
  - intros c p Hproto (ps' & q & Hps' & Hq). rewrite Hps in Hps'. injection Hps' as <-.
    exists tt. eexists. split; [by apply assignChat_run|].
    apply consistent_after_writes. by eapply assignChat_consistent.
  - intros c p Hproto Hnone.
    assert (Hfind : find_project p ps = None).
    { destruct (find_project p ps) as [q|] eqn:Hq; [|done].
      exfalso. apply Hnone. by exists ps, q. }
    destruct (assignChat_dangling c p ps cm Hproto Ha Hb Hfind)
      as ((m' & Hm' & Hp) & Hclean & Hothers & Hstray).
    destruct (views_after_writes (assignChat_projects c p ps cm)
                (assignChat_chatMap c p cm) w) as [Hps1 Hcm1].
    exists (put "gpm_chatMap" (of_chatMap (assignChat_chatMap c p cm))
              (put "gpm_projects"
                 (of_projects (assignChat_projects c p ps cm)) w)),
           (assignChat_projects c p ps cm), (assignChat_chatMap c p cm), m'.
    split; [by apply assignChat_run|]. by repeat (split; [done|]).
  - intros c. exists tt. eexists. split; [by apply unassignChat_run|].
    apply consistent_after_writes. by apply unassignChat_consistent.
  - intros c alias. exists tt. eexists.
    split; [by apply (setChatAlias_run w cm Hcm)|].
    destruct (cm !! c) as [m|] eqn:Hm.
    + eapply consistent_put_chatMap; [done|]. by eapply remap_consistent.
    + destruct (inherited c); [|done].
      by eapply consistent_put_chatMap.
  - intros c. destruct (togglePinChat_run w cm Hcm c) as [b Hrun].
    exists b. eexists. split; [exact Hrun|].
    destruct (cm !! c) as [m|] eqn:Hm.
    + eapply consistent_put_chatMap; [done|]. by eapply remap_consistent.
    + destruct (inherited c); [|done].
      by eapply consistent_put_chatMap.
  - intros id name icon color parentId.
    destruct (createProject_run w ps Hps id name icon color parentId)
      as [project Hrun].
    exists project. eexists. split; [exact Hrun|].
    eapply consistent_put_projects; [done|]. by apply createProject_consistent.
  - intros id updates Hid Hchats.
    destruct (updateProject_run w ps Hps id updates) as [r Hrun].
    exists r. eexists. split; [exact Hrun|].
    destruct (find_project id ps); [|done].
    eapply consistent_put_projects; [done|].
    eapply consistent_agree; [|done|done].
    intros c. apply agree_modify_first. intros x. by apply assign_agree.
  - intros settings. exists tt. eexists. split; [apply _set_run|].
    by apply consistent_put_other.
  - exists tt. eexists. split; [reflexivity|].
    apply (consistent_intro _ [] ∅).
    + unfold projects_of. cbn [storage foldl fst snd]. by simplify_map_eq.
    + unfold chatMap_of. cbn [storage foldl fst snd]. by simplify_map_eq.
    + intros c m Hm. by rewrite lookup_empty in Hm.
    + intros q c Hq. by apply elem_of_nil in Hq.
  - intros fuel id.
    assert (Hc : forall ids, consistent
              (put "gpm_chatMap" (of_chatMap (deleteProject_chatMap ids cm))
                 (put "gpm_projects"
                    (of_projects (deleteProject_projects ids id ps)) w))).
    { intros ids. apply consistent_after_writes.
      by apply deleteProject_consistent. }
    split.
    + intros ps' ids Hps' Hids. rewrite Hps in Hps'. injection Hps' as <-.
      exists tt. eexists.
      split; [by apply (deleteProject_run w ps cm Hps Hcm _ _ ids)|].
      apply Hc.
    + intros a w' Hrun.
      destruct (deleteProject_run_inv w ps cm Hps Hcm fuel id a w' Hrun)
        as (ids & _ & ->).
      split; [apply Hc|apply consistent_invariant, Hc].
  - intros id title content category. split.
    + intros xs Hxs. exists tt. eexists. split; [|apply Hprompts].
      unfold saveQuickPrompt, bind. rewrite (prompts_run _ _ Hxs).
      apply _set_run.
    + intros a w' Hrun. destruct (Hsave _ _ _ _ _ _ Hrun) as [v ->].
      apply Hprompts.
  - intros id. split.
    + intros xs Hxs Hnull. destruct (filter_out_total id xs Hnull) as [ys Hys].
      exists tt. eexists. split; [|apply Hprompts].
      unfold deleteQuickPrompt, bind. rewrite (prompts_run _ _ Hxs).
      unfold lift. rewrite Hys. apply _set_run.
    + intros a w' Hrun. destruct (Hdelete _ _ _ Hrun) as [v ->].
      apply Hprompts.
  - intros id updates. split.
    + intros xs Hxs Hnull.
      destruct (assign_first_total id updates xs Hnull) as [ys Hys].
      exists tt. eexists. split; [|apply Hprompts].
      unfold updateQuickPrompt, bind. rewrite (prompts_run _ _ Hxs).
      unfold lift. rewrite Hys. apply _set_run.
    + intros a w' Hrun. destruct (Hupdate _ _ _ _ Hrun) as [v ->].
      apply Hprompts.
Qed.

Lemma sample_world_views :
  projects_of sample_world = Some sample_projects /\
  chatMap_of sample_world = Some sample_chatMap.
Proof. apply views_after_writes. Qed.

Lemma sample_world_consistent : consistent sample_world.
Proof.
  destruct sample_world_views as [Hps Hcm].
  apply (consistent_intro _ _ _ Hps Hcm).
  - intros c m Hm. unfold sample_chatMap in Hm.
    apply lookup_singleton_Some in Hm as [<- <-].
    exists [research], papers, []. repeat split.
    intros q [->|[]%elem_of_nil]%elem_of_cons. apply not_elem_of_nil.
  - intros q c Hq Hc. unfold sample_projects in Hq.
    rewrite !elem_of_cons, elem_of_nil in Hq.
    destruct Hq as [->|[->|[]]]; cbn [proj_chatIds research papers] in Hc.
    + apply elem_of_nil in Hc. destruct Hc.
    + apply list_elem_of_singleton in Hc as ->.
      exists (mkMapping "p2" "" false). apply lookup_singleton_eq.
Qed.

Lemma operations_keep_consistent_witness :
  consistent sample_world /\
  keeps_consistent (assignChat "abc123" "p1") sample_world /\
  keeps_consistent (unassignChat "abc123") sample_world /\
  keeps_consistent (saveQuickPrompt "q1" "Summarize" "Summarize this" "General")
    sample_world.
Proof.
  split; [exact sample_world_consistent|].
  destruct (operations_keep_consistent sample_world sample_world_consistent)
    as (Hassign & _ & Hunassign & _ & _ & _ & _ & _ & _ & _ & Hsave & _).
  split; [|split; [apply Hunassign|]].
  - apply Hassign; [discriminate|]. exists sample_projects, research.
    split; [apply sample_world_views|reflexivity].
  - apply (proj1 (Hsave "q1" "Summarize" "Summarize this" "General") []).
    reflexivity.
Defined.

Lemma owned_by_owner ps c pid :
  owned_by ps c pid -> exists p, p ∈ ps /\ proj_id p = pid.
Proof.
  intros (l1 & p & l2 & -> & _ & Hid & _). exists p. split; [|done].
  apply elem_of_app. right. apply list_elem_of_here.
Qed.

(** Under the invariant a mapped chat is listed by the project its mapping
    resolves to. *)
Lemma invariant_lists w ps cm c m :
  projects_of w = Some ps -> chatMap_of w = Some cm -> invariant w ->
  cm !! c = Some m ->
  exists q, find_project (map_projectId m) ps = Some q /\ c ∈ proj_chatIds q.
Proof.
  intros Hps Hcm (ps' & cm' & Hps' & Hcm' & Hinv) Hm.
  rewrite Hps in Hps'. injection Hps' as <-.
  rewrite Hcm in Hcm'. injection Hcm' as <-.
  destruct (Hinv c m Hm) as (l1 & p & l2 & -> & Hn & Hid & Hocc & _).
  exists p. split.
  - rewrite find_project_app, Hn. rewrite find_project_cons.
    by rewrite decide_True.
  - destruct (decide (c ∈ proj_chatIds p)) as [|Hnot]; [done|].
    apply occurrences_zero in Hnot. lia.
Qed.

(** C1, counterexample.  [assignChat] with an id that matches no project
    records the mapping all the same, and [assignChat] of a chat that a
    project lists without a mapping leaves the chat listed twice.
    [assignChat] of the chat id [__proto__] lists the chat and stores no
    mapping, so that a second call lists it in a second project.
    [updateProject] with updates that set [chatIds] or [id], and [importAll]
    of a blob whose chat map names no stored project, leave a store without
    the invariant. *)
Lemma operations_break_invariant :
  (invariant sample_world /\
   find_project "gone" sample_projects = None /\
   exists w', assignChat "abc123" "gone" sample_world = Some (tt, w') /\
              ~ invariant w') /\
  (let A := mkProject "p1" "Research" "R" "#8ab4f8" None [] ["c"] false None in
   let B := mkProject "p2" "Papers" "P" "#8ab4f8" None [] [] false None in
   let w := put "gpm_projects" (of_projects [A; B]) empty_world in
   invariant w /\
   find_project "p2" [A; B] = Some B /\
   exists w', assignChat "c" "p2" w = Some (tt, w') /\ ~ invariant w') /\
  (consistent sample_world /\
   find_project "p1" sample_projects = Some research /\
   find_project "p2" sample_projects = Some papers /\
   exists w1 w2,
     assignChat "__proto__" "p1" sample_world = Some (tt, w1) /\
     projects_of w1 = Some [set_chatIds ["__proto__"] research; papers] /\
     chatMap_of w1 = Some sample_chatMap /\
     sample_chatMap !! "__proto__" = None /\
     ~ consistent w1 /\
     assignChat "__proto__" "p2" w1 = Some (tt, w2) /\
     projects_of w2 =
       Some [set_chatIds ["__proto__"] research;
             set_chatIds ["abc123"; "__proto__"] papers] /\
     chatMap_of w2 = Some sample_chatMap) /\
  (exists r w',
     updateProject "p2"
       (mkUpdates None None None None None None (Some []) None None)
       sample_world = Some (r, w') /\
     ~ invariant w') /\
  (exists r w',
     updateProject "p2"
       (mkUpdates (Some "p9") None None None None None None None None)
       sample_world = Some (r, w') /\
     ~ invariant w') /\
  (forall (JSON_parse : string -> option json) (s : string),
     JSON_parse s =
       Some (JObj [("gpm_chatMap",
                    of_chatMap {[ "c9" := mkMapping "gone" "" false ]})]) ->
     exists w', importAll JSON_parse s sample_world = Some (tt, w') /\
                ~ invariant w').
Proof.
  destruct sample_world_views as [Hps Hcm].
  split; [|split; [|split; [|split; [|split]]]].
  - split; [apply consistent_invariant, sample_world_consistent|].
    split; [reflexivity|].
    eexists. split; [by apply assignChat_run|].
    intros Hinv.
    destruct (views_after_writes
                (assignChat_projects "abc123" "gone" sample_projects sample_chatMap)
                (assignChat_chatMap "abc123" "gone" sample_chatMap) sample_world)
      as [E1 E2].
    assert (Hm : assignChat_chatMap "abc123" "gone" sample_chatMap !! "abc123"
                 = Some (mkMapping "gone" "" false)).
    { rewrite assignChat_chatMap_insert by discriminate.
      by rewrite lookup_insert_eq. }
    destruct (invariant_lists _ _ _ _ _ E1 E2 Hinv Hm) as (q & Hq & _).
    cbn [map_projectId] in Hq.
    assert (E : assignChat_projects "abc123" "gone" sample_projects sample_chatMap
                = [research; set_chatIds [] papers]) by (vm_compute; reflexivity).
    rewrite E in Hq. discriminate Hq.
  - intros A B w.
    assert (HpsA : projects_of w = Some [A; B]) by apply projects_of_put_projects.
    assert (HcmA : chatMap_of w = Some ∅) by reflexivity.
    split.
    { exists [A; B], ∅. split; [exact HpsA|]. split; [exact HcmA|].
      intros c m Hm. by rewrite lookup_empty in Hm. }
    split; [reflexivity|].
    eexists. split; [by apply assignChat_run|].
    intros (ps & cm & Hps' & Hcm' & Hinv).
    destruct (views_after_writes
                (assignChat_projects "c" "p2" [A; B] ∅)
                (assignChat_chatMap "c" "p2" ∅) w) as [E1 E2].
    rewrite E1 in Hps'. rewrite E2 in Hcm'.
    injection Hps' as <-. injection Hcm' as <-.
    assert (Hm : assignChat_chatMap "c" "p2" ∅ !! "c"
                 = Some (mkMapping "p2" "" false)).
    { rewrite assignChat_chatMap_insert by discriminate.
      by rewrite lookup_insert_eq. }
    destruct (Hinv "c" _ Hm)
      as (l1 & p & l2 & Heq & _ & Hid & _ & Hothers).
    assert (E : assignChat_projects "c" "p2" [A; B] ∅
                = [A; set_chatIds ["c"] B]) by (vm_compute; reflexivity).
    rewrite E in Heq. cbn [map_projectId] in Hid.
    destruct l1 as [|x l1].
    + injection Heq as <- _. discriminate Hid.
    + injection Heq as <- Heq.
      apply (Hothers A); [apply list_elem_of_here|].
      apply list_elem_of_here.
  - split; [exact sample_world_consistent|].
    split; [reflexivity|]. split; [reflexivity|].
    assert (Hnone : sample_chatMap !! "__proto__" = None)
      by (by apply lookup_singleton_ne).
    assert (Ecm : forall p, assignChat_chatMap "__proto__" p sample_chatMap
                            = sample_chatMap).
    { intros p. unfold assignChat_chatMap. by apply set_entry_proto. }
    assert (Eps1 : assignChat_projects "__proto__" "p1" sample_projects sample_chatMap
                   = [set_chatIds ["__proto__"] research; papers])
      by (vm_compute; reflexivity).
    assert (Eps2 : assignChat_projects "__proto__" "p2"
                     [set_chatIds ["__proto__"] research; papers] sample_chatMap
                   = [set_chatIds ["__proto__"] research;
                      set_chatIds ["abc123"; "__proto__"] papers])
      by (vm_compute; reflexivity).
    set (ps1 := [set_chatIds ["__proto__"] research; papers]) in *.
    set (w1 := put "gpm_chatMap" (of_chatMap sample_chatMap)
                 (put "gpm_projects" (of_projects ps1) sample_world)).
    destruct (views_after_writes ps1 sample_chatMap sample_world) as [Hps1 Hcm1].
    fold w1 in Hps1, Hcm1.
    exists w1. eexists.
    split.
    { rewrite (assignChat_run sample_world _ _ Hps Hcm). by rewrite Ecm, Eps1. }
    split; [exact Hps1|]. split; [exact Hcm1|]. split; [exact Hnone|].
    split.
    { intros (ps' & cm' & Hps' & Hcm' & _ & Hstray).
      rewrite Hps1 in Hps'. injection Hps' as <-.
      rewrite Hcm1 in Hcm'. injection Hcm' as <-.
      destruct (Hstray (set_chatIds ["__proto__"] research) "__proto__")
        as [m Hm].
      - apply list_elem_of_here.
      - apply list_elem_of_here.
      - rewrite Hnone in Hm. discriminate Hm. }
    split.
    { rewrite (assignChat_run w1 _ _ Hps1 Hcm1). by rewrite Ecm, Eps2. }
    apply views_after_writes.
  - set (u := mkUpdates None None None None None None (Some []) None None).
    set (ps' := modify_first "p2" (assign u) sample_projects).
    set (w' := put "gpm_projects" (of_projects ps') sample_world).
    assert (Hps' : projects_of w' = Some ps') by apply projects_of_put_projects.
    assert (Hcm' : chatMap_of w' = Some sample_chatMap).
    { unfold w'. rewrite chatMap_of_put_other by discriminate. exact Hcm. }
    destruct (updateProject_run sample_world sample_projects Hps "p2" u)
      as [r Hrun].
    exists r, w'. split; [exact Hrun|].
    intros Hinv.
    destruct (invariant_lists w' ps' sample_chatMap "abc123"
                (mkMapping "p2" "" false) Hps' Hcm' Hinv)
      as (q & Hq & Hin); [apply lookup_singleton_eq|].
    assert (E : find_project "p2" ps' = Some (set_chatIds [] papers))
      by (vm_compute; reflexivity).
    cbn [map_projectId] in Hq. rewrite E in Hq. injection Hq as <-.
    by apply elem_of_nil in Hin.
  - set (u := mkUpdates (Some "p9") None None None None None None None None).
    set (ps' := modify_first "p2" (assign u) sample_projects).
    set (w' := put "gpm_projects" (of_projects ps') sample_world).
    assert (Hps' : projects_of w' = Some ps') by apply projects_of_put_projects.
    assert (Hcm' : chatMap_of w' = Some sample_chatMap).
    { unfold w'. rewrite chatMap_of_put_other by discriminate. exact Hcm. }
    destruct (updateProject_run sample_world sample_projects Hps "p2" u)
      as [r Hrun].
    exists r, w'. split; [exact Hrun|].
    intros Hinv.
    destruct (invariant_lists w' ps' sample_chatMap "abc123"
                (mkMapping "p2" "" false) Hps' Hcm' Hinv)
      as (q & Hq & _); [apply lookup_singleton_eq|].
    assert (E : find_project "p2" ps' = None) by (vm_compute; reflexivity).
    cbn [map_projectId] in Hq. rewrite E in Hq. discriminate Hq.
  - intros JSON_parse s Hparse.
    set (cm' := {[ "c9" := mkMapping "gone" "" false ]} : gmap string ChatMapping).
    set (w' := put "gpm_chatMap" (of_chatMap cm') sample_world).
    assert (Hps' : projects_of w' = Some sample_projects).
    { unfold w'. rewrite projects_of_put_other by discriminate. exact Hps. }
    assert (Hcm' : chatMap_of w' = Some cm') by apply chatMap_of_put_chatMap.
    exists w'. split.
    { rewrite (importAll_run _ _ _ _ Hparse). reflexivity. }
    intros Hinv.
    destruct (invariant_lists w' sample_projects cm' "c9"
                (mkMapping "gone" "" false) Hps' Hcm' Hinv)
      as (q & Hq & _); [apply lookup_singleton_eq|].
    discriminate Hq.
Qed.

(** ** The descendants of a project *)

Lemma collectDescendants_S fuel ps pid :
  collectDescendants (S fuel) ps pid =
    match find_project pid ps with
    | None => Some [pid]
    | Some node =>
        ds ← mapM (collectDescendants fuel ps) (proj_children node);
        Some (pid :: concat ds)
    end.
Proof.
  cbn [collectDescendants]. destruct (find_project pid ps) as [node|]; [|done].
  match goal with
  | |- ?loop (proj_children node) [pid] = _ =>
      assert (Hloop : forall cs ids,
                loop cs ids =
                  (ds ← mapM (collectDescendants fuel ps) cs;
                   Some (ids ++ concat ds)))
  end.
  { induction cs as [|c cs IH]; intros ids.
    - cbn. by rewrite app_nil_r.
    - cbn [mapM]. destruct (collectDescendants fuel ps c) as [d|]; [|done].
      rewrite IH. cbn. destruct (mapM _ cs) as [ds|]; [|done].
      cbn. by rewrite app_assoc. }
  rewrite Hloop. by destruct (mapM _ _).
Qed.

Lemma descendant_trans ps a b c :
  descendant ps a b -> descendant ps b c -> descendant ps a c.
Proof.
  induction 1 as [|a x b Hax _ IH]; [done|].
  intros Hbc. eapply descendant_child; [exact Hax|by apply IH].
Qed.

Lemma descendant_inv ps a x :
  descendant ps a x ->
  x = a \/ exists p b, find_project a ps = Some p /\ b ∈ proj_children p /\
                       descendant ps b x.
Proof.
  intros [|a0 b c (p & Hp & Hb) Hbc]; [by left|right].
  by exists p, b.
Qed.

Lemma elem_of_concat (x : string) (ls : list (list string)) :
  x ∈ concat ls <-> exists l, x ∈ l /\ l ∈ ls.
Proof.
  induction ls as [|l ls IH]; cbn [concat].
  - split; [by intros ?%elem_of_nil|]. by intros (l & _ & ?%elem_of_nil).
  - rewrite elem_of_app, IH. split.
    + intros [Hx|(l' & Hx & Hl')].
      * exists l. split; [done|apply list_elem_of_here].
      * exists l'. split; [done|by apply list_elem_of_further].
    + intros (l' & Hx & [->|Hl']%elem_of_cons); [by left|right; by exists l'].
Qed.

(** What [collectDescendants] returns, when it returns, is the project and
    everything below it. *)
Lemma collectDescendants_spec ps fuel : forall pid ids,
  collectDescendants fuel ps pid = Some ids ->
  forall x, x ∈ ids <-> descendant ps pid x.
Proof.
  induction fuel as [|fuel IH]; intros pid ids; [done|].
  rewrite collectDescendants_S.
  destruct (find_project pid ps) as [node|] eqn:Hnode.
  - destruct (mapM _ _) as [ds|] eqn:Hds; [|done]. cbn. intros [= <-] x.
    apply mapM_Some in Hds.
    rewrite elem_of_cons, elem_of_concat. split.
    + intros [->|(d & Hx & Hd)]; [apply descendant_self|].
      destruct (proj1 (list_elem_of_lookup _ _) Hd) as [i Hi].
      destruct (Forall2_lookup_r _ _ _ _ _ Hds Hi) as (c & Hc & Hcd).
      eapply descendant_child.
      * exists node. split; [done|]. by eapply list_elem_of_lookup_2.
      * by apply (IH c d Hcd).
    + intros [->|(p & b & Hp & Hb & Hbx)]%descendant_inv; [by left|right].
      rewrite Hnode in Hp. injection Hp as <-.
      destruct (proj1 (list_elem_of_lookup _ _) Hb) as [i Hi].
      destruct (Forall2_lookup_l _ _ _ _ _ Hds Hi) as (d & Hd & Hbd).
      exists d. split; [by apply (IH b d Hbd)|].
      by eapply list_elem_of_lookup_2.
  - intros [= <-] x. rewrite list_elem_of_singleton. split.
    + intros ->. apply descendant_self.
    + intros [->|(p & b & Hp & _)]%descendant_inv; [done|congruence].
Qed.

Lemma find_project_id_elem pid ps p :
  find_project pid ps = Some p -> pid ∈ proj_id <$> ps.
Proof.
  intros [<- Hp]%find_project_Some. by apply list_elem_of_fmap_2.
Qed.

(** Without a cycle the recursion ends within as many calls as there are
    projects: [path] are the projects the calls above are at. *)
Lemma collectDescendants_terminates_path ps :
  (forall a b, child_of ps a b -> ~ descendant ps b a) ->
  forall fuel path pid,
    NoDup path ->
    (forall a, a ∈ path ->
       is_Some (find_project a ps) /\
       exists b, child_of ps a b /\ descendant ps b pid) ->
    (length ps < length path + fuel)%nat ->
    is_Some (collectDescendants fuel ps pid).
Proof.
  intros Hacyclic. induction fuel as [|fuel IH]; intros path pid Hnd Hpath Hlen.
  - exfalso.
    assert (Hsub : path ⊆+ proj_id <$> ps).
    { apply NoDup_submseteq; [done|]. intros a Ha.
      destruct (Hpath a Ha) as [[p Hp] _]. by eapply find_project_id_elem. }
    apply submseteq_length in Hsub. rewrite length_fmap in Hsub. lia.
  - rewrite collectDescendants_S.
    destruct (find_project pid ps) as [node|] eqn:Hnode; [|by eexists].
    assert (Hall : is_Some (mapM (collectDescendants fuel ps) (proj_children node))).
    { apply mapM_is_Some, Forall_forall. intros c Hc. cbn.
      assert (Hchild : child_of ps pid c) by by exists node.
      apply (IH (pid :: path)).
      - constructor; [|done]. intros Hin.
        destruct (Hpath pid Hin) as [_ (b & Hb & Hbp)].
        by apply (Hacyclic pid b).
      - intros a [->|Ha]%elem_of_cons.
        + split; [by eexists|]. exists c. split; [done|apply descendant_self].
        + destruct (Hpath a Ha) as [Hsome (b & Hb & Hbp)].
          split; [done|]. exists b. split; [done|].
          eapply descendant_trans; [exact Hbp|].
          eapply descendant_child; [exact Hchild|apply descendant_self].
      - cbn [length]. lia. }
    destruct Hall as [ds Hds]. rewrite Hds. by eexists.
Qed.

Lemma collectDescendants_terminates ps fuel pid :
  (forall a b, child_of ps a b -> ~ descendant ps b a) ->
  (length ps < fuel)%nat ->
  is_Some (collectDescendants fuel ps pid).
Proof.
  intros Hacyclic Hlen.
  apply (collectDescendants_terminates_path ps Hacyclic fuel [] pid).
  - constructor.
  - by intros a Ha%elem_of_nil.
  - cbn [length]. lia.
Qed.

(** ** Deleting a project of a tree *)

Lemma NoDup_ids_eq ps x y :
  NoDup (proj_id <$> ps) -> x ∈ ps -> y ∈ ps -> proj_id x = proj_id y -> x = y.
Proof.
  induction ps as [|p ps IH]; [by intros _ ?%elem_of_nil|].
  rewrite fmap_cons, NoDup_cons. intros [Hp Hnd].
  intros [->|Hx]%elem_of_cons [->|Hy]%elem_of_cons Hid; [done| | |by apply IH].
  - exfalso. apply Hp. rewrite Hid. by apply list_elem_of_fmap_2.
  - exfalso. apply Hp. rewrite <- Hid. by apply list_elem_of_fmap_2.
Qed.

Lemma fmap_fixed f (ps : list Project) :
  (forall q, q ∈ ps -> f q = q) -> f <$> ps = ps.
Proof.
  induction ps as [|p ps IH]; [done|]. intros Hf.
  rewrite fmap_cons, (Hf p) by apply list_elem_of_here. f_equal.
  apply IH. intros q Hq. apply Hf. by apply list_elem_of_further.
Qed.

Lemma modify_first_map pid f ps :
  NoDup (proj_id <$> ps) ->
  (forall q, q ∈ ps -> proj_id q <> pid -> f q = q) ->
  modify_first pid f ps = f <$> ps.
Proof.
  induction ps as [|p ps IH]; [done|].
  rewrite fmap_cons, NoDup_cons. intros [Hp Hnd] Hf.
  rewrite modify_first_cons. case_decide as Hid.
  - rewrite fmap_cons. f_equal. symmetry. apply fmap_fixed. intros q Hq.
    apply Hf; [by apply list_elem_of_further|].
    intros Heq. apply Hp. rewrite Hid, <- Heq. by apply list_elem_of_fmap_2.
  - rewrite fmap_cons, (Hf p); [|apply list_elem_of_here|done]. f_equal.
    apply IH; [done|]. intros q Hq. apply Hf. by apply list_elem_of_further.
Qed.

Lemma drop_child_absent x q : x ∉ proj_children q -> drop_child x q = q.
Proof.
  intros Hx. unfold drop_child, set_children.
  rewrite (without_not_elem _ _ Hx). by destruct q.
Qed.


Section Tree.
Variables (ps : list Project) (P : string) (target : Project).
Hypothesis Htree : is_tree ps.
Hypothesis Htarget : find_project P ps = Some target.

(** Only the parent of [P] lists [P] among its children. *)
Lemma tree_lists_child q :
  q ∈ ps -> P ∈ proj_children q -> proj_parentId target = Some (proj_id q).
Proof.
  intros Hq HP.
  apply (tree_children ps Htree q P Hq) in HP as (q0 & Hq0 & Hid & Hpar).
  destruct (find_project_Some _ _ _ Htarget) as [Hidt Ht].
  rewrite <- (NoDup_ids_eq ps q0 target); try done; [|congruence].
  apply (tree_ids_distinct ps Htree).
Qed.

Lemma tree_not_parent_fixed q :
  q ∈ ps -> proj_parentId target <> Some (proj_id q) -> drop_child P q = q.
Proof.
  intros Hq Hne. apply drop_child_absent. intros HP.
  by apply Hne, tree_lists_child.
Qed.


(** In a tree the detaching step of [deleteProject] amounts to striking [P]
    from every list of children. *)
Lemma detach_tree : detach P ps = drop_child P <$> ps.
Proof.
  unfold detach. rewrite Htarget.
  destruct (truthy_id (proj_parentId target)) eqn:Htruthy.
  - destruct (proj_parentId target) as [x|] eqn:Hpar; [|done]. cbn [default].
    apply modify_first_map; [apply (tree_ids_distinct ps Htree)|].
    intros q Hq Hne. apply tree_not_parent_fixed; [done|].
    rewrite Hpar. intros [= ->]. by apply Hne.
  - symmetry. apply fmap_fixed. intros q Hq.
    apply tree_not_parent_fixed; [done|]. intros Hpar.
    rewrite Hpar in Htruthy. cbn in Htruthy.
    apply negb_false_iff, String.eqb_eq in Htruthy.
    by apply (tree_ids_nonempty ps Htree q Hq).
Qed.

End Tree.


(** A collection is free of cycles when children lie deeper than parents. *)
Lemma acyclic_by_depth ps (depth : string -> nat) :
  (forall a b, child_of ps a b -> (depth a < depth b)%nat) ->
  forall a b, child_of ps a b -> ~ descendant ps b a.
Proof.
  intros Hdepth.
  assert (Hle : forall x y, descendant ps x y -> (depth x <= depth y)%nat).
  { induction 1 as [|x y z Hxy _ IH]; [lia|]. apply Hdepth in Hxy. lia. }
  intros a b Hab Hba. apply Hdepth in Hab. apply Hle in Hba. lia.
Qed.

Lemma nested_projects_tree : is_tree nested_projects.
Proof.
  split.
  - unfold nested_projects. cbn [fmap list_fmap proj_id].
    repeat (apply NoDup_cons; split;
            [rewrite ?elem_of_cons, elem_of_nil; intros H;
             repeat destruct H as [H|H]; done|]).
    constructor.
  - intros p Hp. unfold nested_projects in Hp.
    rewrite !elem_of_cons, elem_of_nil in Hp.
    destruct Hp as [->|[->|[->|[]]]]; discriminate.
  - intros p c Hp. unfold nested_projects in Hp |- *.
    rewrite !elem_of_cons, elem_of_nil in Hp.
    destruct Hp as [->|[->|[->|[]]]]; cbn [proj_children proj_id];
      rewrite ?list_elem_of_singleton, ?elem_of_nil; split.
    + intros ->. eexists. split; [apply list_elem_of_further, list_elem_of_here|done].
    + intros (q & Hq & <- & Hpar). rewrite !elem_of_cons, elem_of_nil in Hq.
      destruct Hq as [->|[->|[->|[]]]]; done.
    + intros ->. eexists.
      split; [do 2 apply list_elem_of_further; apply list_elem_of_here|done].
    + intros (q & Hq & <- & Hpar). rewrite !elem_of_cons, elem_of_nil in Hq.
      destruct Hq as [->|[->|[->|[]]]]; done.
    + intros [].
    + intros (q & Hq & <- & Hpar). rewrite !elem_of_cons, elem_of_nil in Hq.
      destruct Hq as [->|[->|[->|[]]]]; done.
  - apply (acyclic_by_depth _ nested_depth).
    intros a b (p & [<- Hp]%find_project_Some & Hb).
    unfold nested_projects in Hp. rewrite !elem_of_cons, elem_of_nil in Hp.
    destruct Hp as [->|[->|[->|[]]]]; cbn [proj_children proj_id] in *;
      rewrite ?list_elem_of_singleton, ?elem_of_nil in Hb;
      try (exfalso; exact Hb); subst b; unfold nested_depth; cbn; lia.
Qed.


(** The fixture after [deleteProject] of the root and of the child. *)
Example deleteProject_nested_root :
  exists w', deleteProject 4 "root" nested_world = Some (tt, w') /\
    projects_of w' = Some [] /\ chatMap_of w' = Some ∅.
Proof.
  eexists. split; [vm_compute; reflexivity|].
  split; vm_compute; reflexivity.
Qed.

Example deleteProject_nested_child :
  exists w', deleteProject 4 "child" nested_world = Some (tt, w') /\
    projects_of w' =
      Some [mkProject "root" "Root" "R" "#fff" None [] ["chat1"] false None] /\
    (cm ← chatMap_of w'; Some (map_to_list cm)) =
      Some [("chat1", mkMapping "root" "" false)].
Proof.
  eexists. split; [vm_compute; reflexivity|].
  split; vm_compute; reflexivity.
Qed.

(** ** A project dropped on a project row *)


(** C3, at two root projects: the drop of [p1] on the row of [p2] saves
    [p1] with [parentId] [p2], but [p2] as stored keeps its [children]: the
    id is pushed on the row's own copy of [p2], which is not saved. *)
Theorem drop_center_loses_child :
  let P := mkProject "p1" "Research" "R" "#8ab4f8" None [] [] false None in
  let Q := mkProject "p2" "Papers" "P" "#8ab4f8" None [] [] false None in
  let w := put "gpm_projects" (of_projects [P; Q]) empty_world in
  exists w',
    dropProjectCenter 3 [P; Q] Q "p1" w = Some (push_child "p1" Q, w') /\
    projects_of w' = Some [set_parentId (Some "p2") P; Q] /\
    proj_children Q = [].
Proof.
  eexists. split; [vm_compute; reflexivity|].
  split; [|reflexivity].
  vm_compute. reflexivity.
Qed.

(** *** What the drop keeps: the relation along [parentId] *)

Lemma parent_edge_fun ps x y z :
  parent_edge ps x y -> parent_edge ps x z -> y = z.
Proof. intros (p & Hp & Hy & _) (p' & Hp' & Hz & _). congruence. Qed.

Lemma ancestor_trans ps x y z :
  ancestor ps x y -> ancestor ps y z -> ancestor ps x z.
Proof.
  induction 1 as [x y Hxy|x y0 y Hxy _ IH]; intros Hyz.
  - by eapply ancestor_step.
  - eapply ancestor_step; [exact Hxy|by apply IH].
Qed.

(** [isDescendant(P, Q)] answers whether [P] is above [Q]. *)
Lemma isDescendant_spec all P : P <> "" ->
  forall fuel Q b,
    isDescendant fuel all P Q = Some b -> (b = true <-> ancestor all Q P).
Proof.
  intros HP. induction fuel as [|fuel IH]; intros Q b; [done|].
  cbn [isDescendant].
  destruct (find_project Q all) as [p|] eqn:Hp.
  - case_bool_decide as Hpar.
    + intros [= <-]. split; [intros _|done].
      apply ancestor_parent. by exists p.
    + destruct (truthy_id (proj_parentId p)) eqn:Htruthy.
      * destruct (proj_parentId p) as [y|] eqn:Hy; [|done]. cbn [default].
        assert (Hne : y <> "").
        { cbn in Htruthy. intros ->. by cbn in Htruthy. }
        assert (Hedge : parent_edge all Q y) by by exists p.
        intros Hrec. rewrite (IH y b Hrec). split.
        -- intros Hanc. by eapply ancestor_step.
        -- intros Hanc. inversion Hanc as [x z Hqz|x z0 z Hqz Hrest]; subst.
           ++ rewrite (parent_edge_fun _ _ _ _ Hqz Hedge) in Hpar.
              by exfalso; apply Hpar.
           ++ by rewrite <- (parent_edge_fun _ _ _ _ Hqz Hedge).
      * intros [= <-]. split; [done|]. intros Hanc.
        assert (Hedge : exists y, parent_edge all Q y).
        { inversion Hanc; subst; eauto. }
        destruct Hedge as (y & p' & Hp' & Hy & Hne).
        rewrite Hp in Hp'. injection Hp' as <-.
        rewrite Hy in Htruthy. cbn in Htruthy.
        apply negb_false_iff, String.eqb_eq in Htruthy. done.
  - intros [= <-]. split; [done|]. intros Hanc.
    assert (Hedge : exists y, parent_edge all Q y).
    { inversion Hanc; subst; eauto. }
    destruct Hedge as (y & p' & Hp' & _). congruence.
Qed.

Lemma parent_edge_modify_same pid g ps x y :
  (forall p, proj_id (g p) = proj_id p) ->
  (forall p, proj_parentId (g p) = proj_parentId p) ->
  parent_edge (modify_first pid g ps) x y <-> parent_edge ps x y.
Proof.
  intros Hid Hpar. unfold parent_edge.
  rewrite (find_modify_first _ _ _ _ Hid).
  case_decide; [|done]. destruct (find_project x ps) as [p|]; cbn.
  - split; intros (p' & [= <-] & Hy & Hne); eexists; split; try done;
      by rewrite ?Hpar in *.
  - split; by intros (p' & [=] & _).
Qed.

Lemma parent_edge_reparent P Q ps x y :
  parent_edge (modify_first P (set_parentId (Some Q)) ps) x y ->
  (x <> P /\ parent_edge ps x y) \/ (x = P /\ y = Q).
Proof.
  unfold parent_edge. rewrite find_modify_first by done.
  case_decide as Hx.
  - intros (p' & Hp' & Hy & Hne). right. split; [done|].
    destruct (find_project x ps) as [p|]; [|done]. cbn in Hp'.
    injection Hp' as <-. cbn in Hy. congruence.
  - intros H. left. by split.
Qed.

(** A path to an ancestor after the re-parenting of [P] under [Q] is an old
    path, or runs through the new edge. *)
Lemma ancestor_reparent P Q ps a b :
  ancestor (modify_first P (set_parentId (Some Q)) ps) a b ->
  ancestor ps a b \/
  ((a = P \/ ancestor ps a P) /\ (b = Q \/ ancestor ps Q b)).
Proof.
  induction 1 as [a b Hab|a m b Ham _ IH].
  - apply parent_edge_reparent in Hab as [[_ Hab]|[-> ->]].
    + left. by apply ancestor_parent.
    + right. split; by left.
  - apply parent_edge_reparent in Ham as [[_ Ham]|[-> ->]].
    + destruct IH as [Hmb|[HmP HQb]].
      * left. by eapply ancestor_step.
      * right. split; [|done]. right.
        destruct HmP as [->|HmP]; [by apply ancestor_parent|].
        by eapply ancestor_step.
    + right. split; [by left|].
      destruct IH as [HQb|[_ HQb]]; [by right|done].
Qed.

Lemma reparent_acyclic P Q ps :
  acyclic_parents ps -> P <> Q -> ~ ancestor ps Q P ->
  acyclic_parents (modify_first P (set_parentId (Some Q)) ps).
Proof.
  intros Hacyc Hne Hnot x Hcycle.
  apply ancestor_reparent in Hcycle as [Hold|[[->|HxP] [HxQ|HQx]]].
  - by apply (Hacyc x).
  - done.
  - done.
  - subst x. done.
  - apply Hnot. by eapply ancestor_trans.
Qed.

Lemma ancestor_same ps ps' :
  (forall x y, parent_edge ps' x y -> parent_edge ps x y) ->
  forall a b, ancestor ps' a b -> ancestor ps a b.
Proof.
  intros Hsame a b. induction 1 as [a b Hab|a m b Ham _ IH].
  - apply ancestor_parent. by apply Hsame.
  - eapply ancestor_step; [apply Hsame, Ham|done].
Qed.

Lemma acyclic_parents_same ps ps' :
  (forall x y, parent_edge ps' x y -> parent_edge ps x y) ->
  acyclic_parents ps -> acyclic_parents ps'.
Proof.
  intros Hsame Hacyc x Hcycle. apply (Hacyc x). by eapply ancestor_same.
Qed.

(** With rows rendered from the stored projects, a center drop keeps the
    relation along [parentId] free of cycles. *)
Lemma drop_center_keeps_parents_acyclic fuel w ps project dropped r w' :
  projects_of w = Some ps ->
  acyclic_parents ps ->
  dropProjectCenter fuel ps project dropped w = Some (r, w') ->
  exists ps', projects_of w' = Some ps' /\ acyclic_parents ps'.
Proof.
  intros Hps Hacyc. unfold dropProjectCenter.
  destruct (negb (String.eqb dropped "")) eqn:Hd; cbn [andb];
    [|intros [= _ <-]; eauto].
  destruct (String.eqb_spec dropped (proj_id project)) as [Heq|Hne];
    cbn [negb]; [intros [= _ <-]; eauto|].
  unfold bind, lift.
  destruct (isDescendant fuel ps dropped (proj_id project)) as [inside|] eqn:Hdesc;
    [|done].
  destruct inside; [intros [= _ <-]; eauto|].
  rewrite (readProjects_run _ _ Hps).
  destruct (find_project dropped ps) as [droppedProject|] eqn:Hfind;
    [|intros [= _ <-]; eauto].
  rewrite writeProjects_run. intros [= _ <-].
  eexists. split; [apply projects_of_put_projects|].
  assert (Hdne : dropped <> "").
  { intros ->. by cbn in Hd. }
  assert (Hnot : ~ ancestor ps (proj_id project) dropped).
  { intros Hanc. by apply (isDescendant_spec ps dropped Hdne _ _ _ Hdesc) in Hanc. }
  apply reparent_acyclic; [|done|].
  - destruct (truthy_id _); [|done].
    eapply acyclic_parents_same; [|exact Hacyc].
    intros x y. by apply parent_edge_modify_same.
  - destruct (truthy_id _); [|done].
    intros Hanc. apply Hnot. eapply ancestor_same; [|exact Hanc].
    intros x y. by apply parent_edge_modify_same.
Qed.

Lemma children_within_refl x : children_within x x.
Proof. by split. Qed.

Lemma children_within_modify pid f ps :
  (forall x, children_within x (f x)) ->
  Forall2 children_within ps (modify_first pid f ps).
Proof.
  intros Hf. induction ps as [|x ps IH]; [constructor|].
  rewrite modify_first_cons. case_decide.
  - constructor; [apply Hf|]. apply Forall_Forall2_diag, Forall_forall.
    intros; apply children_within_refl.
  - constructor; [apply children_within_refl|done].
Qed.

(** Whatever is dropped where, no stored project gains a child. *)
Lemma drop_center_adds_no_child fuel allProjects w ps project dropped r w' :
  projects_of w = Some ps ->
  dropProjectCenter fuel allProjects project dropped w = Some (r, w') ->
  exists ps', projects_of w' = Some ps' /\ Forall2 children_within ps ps'.
Proof.
  intros Hps. unfold dropProjectCenter.
  assert (Hsame : Forall2 children_within ps ps).
  { apply Forall_Forall2_diag, Forall_forall. intros; apply children_within_refl. }
  destruct (_ && _); [|intros [= _ <-]; eauto].
  unfold bind, lift.
  destruct (isDescendant _ _ _ _) as [[]|]; [intros [= _ <-]; eauto| |done].
  rewrite (readProjects_run _ _ Hps).
  destruct (find_project dropped ps) as [droppedProject|];
    [|intros [= _ <-]; eauto].
  rewrite writeProjects_run. intros [= _ <-].
  eexists. split; [apply projects_of_put_projects|].
  assert (H1 : Forall2 children_within ps
            (if truthy_id (proj_parentId droppedProject)
             then modify_first (default "" (proj_parentId droppedProject))
                               (drop_child dropped) ps
             else ps)).
  { destruct (truthy_id _); [|done]. apply children_within_modify.
    intros x. split; [done|]. intros c. cbn. rewrite without_elem. tauto. }
  eapply Forall2_trans;
    [|exact H1|apply children_within_modify; intros x; by split].
  intros x y z [? Hxy] [? Hyz]. split; [congruence|]. intros c Hc. eauto.
Qed.

(** * Further properties of the data layer *)

(** ** Operations on an id that is not stored *)

Lemma filter_all_projects (P : Project -> Prop) `{forall x, Decision (P x)}
    (ps : list Project) :
  (forall q, q ∈ ps -> P q) -> filter P ps = ps.
Proof.
  induction ps as [|p ps IH]; [done|]. intros Hall.
  rewrite filter_cons_True by apply Hall, list_elem_of_here.
  f_equal. apply IH. intros q Hq. by apply Hall, list_elem_of_further.
Qed.

(** X1: [deleteProject] with an id no stored project has leaves the
    projects as they are and removes exactly the mappings whose [projectId]
    is that id. *)
Theorem deleteProject_unknown_id
    (w : World) (ps : list Project) (cm : gmap string ChatMapping)
    (id : string) (fuel : nat) :
  projects_of w = Some ps ->
  chatMap_of w = Some cm ->
  find_project id ps = None ->
  (0 < fuel)%nat ->
  exists w',
    deleteProject fuel id w = Some (tt, w') /\
    projects_of w' = Some ps /\
    chatMap_of w' = Some (filter (fun kv => map_projectId kv.2 <> id) cm).
Proof.
  intros Hps Hcm Hnone Hfuel.
  destruct fuel as [|fuel]; [lia|].
  assert (Hids : collectDescendants (S fuel) ps id = Some [id]).
  { by rewrite collectDescendants_S, Hnone. }
  eexists. split; [by apply (deleteProject_run w ps cm Hps Hcm _ _ [id])|].
  destruct (views_after_writes (deleteProject_projects [id] id ps)
              (deleteProject_chatMap [id] cm) w) as [Hps' Hcm'].
  split.
  - rewrite Hps'. f_equal. unfold deleteProject_projects, detach.
    rewrite Hnone. apply filter_all_projects. intros q Hq.
    intros Hin%elem_of_list_to_set%list_elem_of_singleton.
    by apply (proj1 (find_project_None _ _) Hnone q Hq).
  - rewrite Hcm'. f_equal. unfold deleteProject_chatMap.
    apply map_filter_ext. intros c m _. cbn. set_solver.
Qed.

Lemma deleteProject_unknown_id_witness :
  exists w',
    deleteProject 1 "gone" sample_world = Some (tt, w') /\
    projects_of w' = Some sample_projects /\
    chatMap_of w' =
      Some (filter (fun kv => map_projectId kv.2 <> "gone") sample_chatMap).
Proof.
  apply (deleteProject_unknown_id sample_world sample_projects sample_chatMap).
  - apply sample_world_views.
  - apply sample_world_views.
  - reflexivity.
  - lia.
Defined.

(** ** Assigning and unassigning chats *)

Lemma modify_first_fixed pid f ps :
  (forall q, find_project pid ps = Some q -> f q = q) ->
  modify_first pid f ps = ps.
Proof.
  intros Hf. destruct (find_project pid ps) as [q|] eqn:Hq.
  - destruct (find_project_split _ _ _ Hq) as (l1 & l2 & -> & Hn & Hid).
    rewrite modify_first_split by done. by rewrite Hf.
  - by apply modify_first_None.
Qed.

Lemma drop_add_chat c q : c ∉ proj_chatIds q -> drop_chat c (add_chat c q) = q.
Proof.
  intros Hc. rewrite add_chat_fresh by done.
  unfold drop_chat, set_chatIds. cbn [proj_id proj_name proj_icon proj_color
    proj_parentId proj_children proj_chatIds proj_collapsed proj_order].
  rewrite without_app, without_single, app_nil_r, (without_not_elem _ _ Hc).
  by destruct q.
Qed.

(** X2: for a chat, under an id other than [__proto__], that has no mapping
    and is listed nowhere, [assignChat] followed by [unassignChat] gives
    back the projects and the chat map, whether or not the project id
    resolves. *)
Theorem assign_then_unassign
    (w : World) (ps : list Project) (cm : gmap string ChatMapping)
    (c p : string) :
  projects_of w = Some ps ->
  chatMap_of w = Some cm ->
  c <> "__proto__" ->
  cm !! c = None ->
  (forall q, q ∈ ps -> c ∉ proj_chatIds q) ->
  exists w1 w2,
    assignChat c p w = Some (tt, w1) /\
    unassignChat c w1 = Some (tt, w2) /\
    projects_of w2 = Some ps /\
    chatMap_of w2 = Some cm.
Proof.
  intros Hps Hcm Hproto Hnone Hfree.
  destruct (views_after_writes (assignChat_projects c p ps cm)
              (assignChat_chatMap c p cm) w) as [Hps1 Hcm1].
  eexists. eexists.
  split; [by apply assignChat_run|].
  split; [by apply (unassignChat_run _ _ _ Hps1 Hcm1)|].
  destruct (views_after_writes
              (unlink_chat c (assignChat_chatMap c p cm)
                           (assignChat_projects c p ps cm))
              (delete c (assignChat_chatMap c p cm))
              (put "gpm_chatMap" (of_chatMap (assignChat_chatMap c p cm))
                 (put "gpm_projects"
                    (of_projects (assignChat_projects c p ps cm)) w)))
    as [Hps2 Hcm2].
  split.
  - rewrite Hps2. f_equal.
    unfold unlink_chat at 1. rewrite assignChat_chatMap_insert by done.
    rewrite lookup_insert_eq. cbn [map_projectId].
    unfold assignChat_projects, unlink_chat. rewrite Hnone.
    rewrite modify_first_compose by apply add_chat_id.
    apply modify_first_fixed. intros q [_ Hq]%find_project_Some. cbn.
    by apply drop_add_chat, Hfree.
  - rewrite Hcm2. f_equal. rewrite assignChat_chatMap_insert by done.
    by apply delete_insert_id.
Qed.

Lemma assign_then_unassign_witness :
  exists w1 w2,
    assignChat "fresh" "p1" sample_world = Some (tt, w1) /\
    unassignChat "fresh" w1 = Some (tt, w2) /\
    projects_of w2 = Some sample_projects /\
    chatMap_of w2 = Some sample_chatMap.
Proof.
  apply (assign_then_unassign sample_world sample_projects sample_chatMap).
  - apply sample_world_views.
  - apply sample_world_views.
  - discriminate.
  - reflexivity.
  - intros q Hq. unfold sample_projects in Hq.
    rewrite !elem_of_cons, elem_of_nil in Hq.
    destruct Hq as [->|[->|[]]]; cbn [proj_chatIds research papers].
    + apply not_elem_of_nil.
    + rewrite list_elem_of_singleton. discriminate.
Defined.

(** X3: on a consistent store [unassignChat] returns and leaves the chat
    without a mapping and listed in no project; the mappings of the other
    chats stay, and the store stays consistent. *)
Theorem unassignChat_removes_chat (w : World) (c : string) :
  consistent w ->
  exists w' ps' cm' cm,
    unassignChat c w = Some (tt, w') /\
    chatMap_of w = Some cm /\
    projects_of w' = Some ps' /\
    chatMap_of w' = Some cm' /\
    cm' !! c = None /\
    (forall q, q ∈ ps' -> c ∉ proj_chatIds q) /\
    (forall c', c' <> c -> cm' !! c' = cm !! c') /\
    consistent w'.
Proof.
  intros (ps & cm & Hps & Hcm & Ha & Hb).
  destruct (views_after_writes (unlink_chat c cm ps) (delete c cm) w)
    as [Hps' Hcm'].
  eexists. exists (unlink_chat c cm ps), (delete c cm), cm.
  split; [by apply unassignChat_run|].
  split; [done|]. split; [done|]. split; [done|].
  split; [apply lookup_delete_eq|].
  split; [by apply unlink_clean|].
  split; [intros c' Hne; by apply lookup_delete_ne|].
  apply consistent_after_writes. by apply unassignChat_consistent.
Qed.

Lemma unassignChat_removes_chat_witness :
  exists w' ps' cm' cm,
    unassignChat "abc123" sample_world = Some (tt, w') /\
    chatMap_of sample_world = Some cm /\
    projects_of w' = Some ps' /\
    chatMap_of w' = Some cm' /\
    cm' !! "abc123" = None /\
    (forall q, q ∈ ps' -> "abc123" ∉ proj_chatIds q) /\
    (forall c', c' <> "abc123" -> cm' !! c' = cm !! c') /\
    consistent w'.
Proof.
  apply (unassignChat_removes_chat sample_world "abc123").
  exact sample_world_consistent.
Defined.

(** ** Pinning *)

(** X4: [togglePinChat] returns the new pin state, and a second call
    returns the old one and gives back the chat map. *)
Theorem togglePinChat_twice
    (w : World) (cm : gmap string ChatMapping) (c : string) (m : ChatMapping) :
  chatMap_of w = Some cm ->
  cm !! c = Some m ->
  exists w1 w2,
    togglePinChat c w = Some (negb (map_pinned m), w1) /\
    chatMap_of w1 =
      Some (<[c := mkMapping (map_projectId m) (map_alias m)
                             (negb (map_pinned m))]> cm) /\
    togglePinChat c w1 = Some (map_pinned m, w2) /\
    chatMap_of w2 = Some cm.
Proof.
  intros Hcm Hm.
  set (cm1 := <[c := mkMapping (map_projectId m) (map_alias m)
                               (negb (map_pinned m))]> cm).
  assert (Hrun1 : togglePinChat c w =
            Some (negb (map_pinned m), put "gpm_chatMap" (of_chatMap cm1) w)).
  { unfold togglePinChat, bind. rewrite (readChatMap_run _ _ Hcm), Hm.
    reflexivity. }
  assert (Hcm1 : chatMap_of (put "gpm_chatMap" (of_chatMap cm1) w) = Some cm1)
    by apply chatMap_of_put_chatMap.
  assert (Hback : <[c := mkMapping (map_projectId m) (map_alias m)
                                   (map_pinned m)]> cm1 = cm).
  { unfold cm1. rewrite insert_insert_eq. apply insert_id.
    rewrite Hm. by destruct m. }
  exists (put "gpm_chatMap" (of_chatMap cm1) w),
         (put "gpm_chatMap" (of_chatMap cm)
              (put "gpm_chatMap" (of_chatMap cm1) w)).
  split; [exact Hrun1|]. split; [exact Hcm1|].
  split; [|apply chatMap_of_put_chatMap].
  unfold togglePinChat, bind. rewrite (readChatMap_run _ _ Hcm1).
  assert (Hm1 : cm1 !! c = Some (mkMapping (map_projectId m) (map_alias m)
                                           (negb (map_pinned m))))
    by apply lookup_insert_eq.
  rewrite Hm1. cbn [map_pinned map_projectId map_alias].
  rewrite negb_involutive, Hback. reflexivity.
Qed.

Lemma togglePinChat_twice_witness :
  exists w1 w2,
    togglePinChat "abc123" sample_world = Some (true, w1) /\
    chatMap_of w1 = Some (<[ "abc123" := mkMapping "p2" "" true ]> sample_chatMap) /\
    togglePinChat "abc123" w1 = Some (false, w2) /\
    chatMap_of w2 = Some sample_chatMap.
Proof.
  apply (togglePinChat_twice sample_world sample_chatMap "abc123"
           (mkMapping "p2" "" false)).
  - apply sample_world_views.
  - reflexivity.
Defined.

(** ** Importing *)

(** X5: [importAll] throws exactly when the text does not parse or parses
    to [null]; a text that parses to any other value that is not an object
    (a number, a string, an array) is accepted and nothing is written. *)
Theorem importAll_failure
    (JSON_parse : string -> option json) (jsonString : string) (w : World) :
  (importAll JSON_parse jsonString w = None <->
   JSON_parse jsonString = None \/ JSON_parse jsonString = Some JNull) /\
  (forall v, JSON_parse jsonString = Some v ->
     v <> JNull -> (forall fields, v <> JObj fields) ->
     importAll JSON_parse jsonString w = Some (tt, w)).
Proof.
  split.
  - unfold importAll, bind, lift.
    destruct (JSON_parse jsonString) as [v|]; [|split; [by left|done]].
    destruct v as [|b|n|s|xs|fields];
      try (split; [by intros [=]|by intros [[=]|[=]]]).
    + split; [by right|done].
    + rewrite !import_key_run. split; [by intros [=]|by intros [[=]|[=]]].
  - intros v Hv Hnull Hobj. unfold importAll, bind, lift. rewrite Hv.
    destruct v as [|b|n|s|xs|fields]; try done.
    by exfalso; apply (Hobj fields).
Qed.

(** X6: importing the same text a second time leaves the storage of the
    first import. *)
Theorem importAll_twice
    (JSON_parse : string -> option json) (jsonString : string) (w w1 : World) :
  importAll JSON_parse jsonString w = Some (tt, w1) ->
  exists w2,
    importAll JSON_parse jsonString w1 = Some (tt, w2) /\
    storage w2 = storage w1.
Proof.
  intros Hrun.
  destruct (JSON_parse jsonString) as [v|] eqn:Hv;
    [|by unfold importAll, bind, lift in Hrun; rewrite Hv in Hrun].
  destruct v as [|b|n|s|xs|fields];
    try (unfold importAll, bind, lift in *; rewrite Hv in *;
         injection Hrun as <-; by exists w).
  - unfold importAll, bind, lift in Hrun. by rewrite Hv in Hrun.
  - eexists. split; [by apply importAll_run|].
    apply map_eq. intros k.
    rewrite (importAll_storage _ _ _ w1 _ k Hv (importAll_run _ _ _ _ Hv)).
    rewrite (importAll_storage _ _ _ w w1 k Hv Hrun).
    destruct (if bool_decide (k ∈ import_keys) then assoc k fields else None)
      as [x|]; [|done].
    by destruct (truthy x).
Qed.

Lemma importAll_twice_witness :
  let s := json_print (JObj [("gpm_projects", JArr []); ("gpm_settings", JNull)]) in
  exists w1 w2,
    importAll json_parse s sample_world = Some (tt, w1) /\
    importAll json_parse s w1 = Some (tt, w2) /\
    storage w2 = storage w1.
Proof.
  intros s.
  assert (Hp : json_parse s =
               Some (JObj [("gpm_projects", JArr []); ("gpm_settings", JNull)]))
    by (vm_compute; reflexivity).
  pose proof (importAll_run json_parse s _ sample_world Hp) as Hrun.
  destruct (importAll_twice json_parse s sample_world _ Hrun) as (w2 & H2 & Hs).
  eexists. exists w2. split; [exact Hrun|]. split; [exact H2|exact Hs].
Defined.

(** X7: importing an export replaces the four collections of whatever store
    it is imported into by those of the exported store. *)
Theorem import_of_export_overwrites
    (JSON_stringify : json -> string) (JSON_parse : string -> option json)
    (w target : World) :
  JSON_parse (JSON_stringify (export_blob w)) = Some (export_blob w) ->
  exists w',
    importAll JSON_parse (JSON_stringify (export_blob w)) target = Some (tt, w') /\
    value_of getProjects w' = value_of getProjects w /\
    value_of getChatMap w' = value_of getChatMap w /\
    value_of getQuickPrompts w' = value_of getQuickPrompts w /\
    value_of getSettings w' = value_of getSettings w.
Proof.
  intros Hrt. eexists.
  split; [by apply (importAll_run _ _ _ _ Hrt)|].
  assert (Ht : forall v d, truthy d = true -> truthy (js_or v d) = true).
  { intros [x|] d Hd; simpl; [|done]. by destruct (truthy x) eqn:E. }
  assert (Hor : forall v d, truthy d = true ->
             js_or (Some (js_or v d)) d = js_or v d).
  { intros v d Hd. simpl. by rewrite Ht. }
  unfold value_of, getProjects, getChatMap, getQuickPrompts, getSettings,
    bind, _get, ret.
  rewrite !storage_imported. simpl.
  rewrite !Ht by done.
  repeat split; f_equal; by rewrite Hor.
Qed.

Lemma import_of_export_overwrites_witness :
  exists w',
    importAll json_parse (json_print (export_blob sample_world)) nested_world
      = Some (tt, w') /\
    value_of getProjects w' = value_of getProjects sample_world /\
    value_of getChatMap w' = value_of getChatMap sample_world /\
    value_of getQuickPrompts w' = value_of getQuickPrompts sample_world /\
    value_of getSettings w' = value_of getSettings sample_world.
Proof.
  apply (import_of_export_overwrites json_print json_parse sample_world nested_world).
  vm_compute. reflexivity.
Defined.

(** ** Quick prompts *)

Lemma prompts_of_put xs w :
  value_of getQuickPrompts (put "gpm_quickPrompts" (JArr xs) w) = Some (JArr xs).
Proof.
  unfold value_of, getQuickPrompts, bind, _get, ret, put. cbn [storage].
  by rewrite lookup_insert_eq.
Qed.

Lemma filter_out_app id (xs ys : list json) :
  filter_out id (xs ++ ys) =
    xs' ← filter_out id xs; ys' ← filter_out id ys; Some (xs' ++ ys').
Proof.
  induction xs as [|x xs IH]; cbn [filter_out app].
  - by destruct (filter_out id ys).
  - destruct (id_is id x) as [b|]; [|done]. cbn. rewrite IH.
    destruct (filter_out id xs) as [xs'|]; [|done]. cbn.
    destruct (filter_out id ys) as [ys'|]; [|done]. cbn. by destruct b.
Qed.

Lemma filter_out_none id (xs : list json) :
  JNull ∉ xs ->
  (forall p, p ∈ xs -> has_prop_id id p = false) ->
  filter_out id xs = Some xs.
Proof.
  induction xs as [|x xs IH]; [done|]. intros Hnull Hall.
  apply not_elem_of_cons in Hnull as [Hx Hxs]. cbn [filter_out].
  rewrite id_is_Some by done. rewrite (Hall x) by apply list_elem_of_here.
  cbn. rewrite IH; [done|done|].
  intros p Hp. by apply Hall, list_elem_of_further.
Qed.

(** X8: a prompt saved under an id no stored prompt has is removed again
    by [deleteQuickPrompt] of that id, which gives back the stored list,
    where the stored list holds no [null]. *)
Theorem saveQuickPrompt_then_delete
    (w : World) (xs : list json) (id title content category : string) :
  value_of getQuickPrompts w = Some (JArr xs) ->
  JNull ∉ xs ->
  (forall p, p ∈ xs -> has_prop_id id p = false) ->
  exists w1 w2,
    saveQuickPrompt id title content category w = Some (tt, w1) /\
    deleteQuickPrompt id w1 = Some (tt, w2) /\
    value_of getQuickPrompts w2 = Some (JArr xs).
Proof.
  intros Hxs Hnull Hfresh.
  set (new := JObj [ ("id", JStr id); ("title", JStr title);
                     ("content", JStr content); ("category", JStr category) ]).
  assert (Hnew : filter_out id [new] = Some []).
  { cbn [filter_out id_is new has_prop_id assoc]. cbn.
    by rewrite String.eqb_refl. }
  assert (Hkept : filter_out id (xs ++ [new]) = Some xs).
  { rewrite filter_out_app, (filter_out_none _ _ Hnull Hfresh), Hnew. cbn.
    by rewrite app_nil_r. }
  exists (put "gpm_quickPrompts" (JArr (xs ++ [new])) w),
         (put "gpm_quickPrompts" (JArr xs)
            (put "gpm_quickPrompts" (JArr (xs ++ [new])) w)).
  split.
  { unfold saveQuickPrompt, bind. rewrite (prompts_run _ _ Hxs).
    apply _set_run. }
  split.
  { unfold deleteQuickPrompt, bind.
    rewrite (prompts_run _ _ (prompts_of_put _ _)).
    unfold lift. rewrite Hkept. apply _set_run. }
  apply prompts_of_put.
Qed.

Lemma prompt_world_prompts :
  value_of getQuickPrompts prompt_world = Some (JArr [translate_prompt]).
Proof. apply prompts_of_put. Qed.

Lemma saveQuickPrompt_then_delete_witness :
  exists w1 w2,
    saveQuickPrompt "q1" "Summarize" "Summarize this" "General" prompt_world
      = Some (tt, w1) /\
    deleteQuickPrompt "q1" w1 = Some (tt, w2) /\
    value_of getQuickPrompts w2 = Some (JArr [translate_prompt]).
Proof.
  apply (saveQuickPrompt_then_delete prompt_world [translate_prompt]).
  - exact prompt_world_prompts.
  - rewrite list_elem_of_singleton. discriminate.
  - intros p Hp. apply list_elem_of_singleton in Hp as ->. reflexivity.
Defined.

Lemma assign_first_none id updates (xs : list json) :
  JNull ∉ xs ->
  (forall p, p ∈ xs -> has_prop_id id p = false) ->
  assign_first id updates xs = Some xs.
Proof.
  induction xs as [|x xs IH]; [done|]. intros Hnull Hall.
  apply not_elem_of_cons in Hnull as [Hx Hxs]. cbn [assign_first].
  rewrite id_is_Some by done. rewrite (Hall x) by apply list_elem_of_here.
  cbn. rewrite IH; [done|done|].
  intros p Hp. by apply Hall, list_elem_of_further.
Qed.

(** X9: [updateQuickPrompt] with an id no stored prompt has, on a stored
    list that holds no [null], changes no prompt, yet it writes the list
    back and sends the message (where [updateProject] returns without
    writing). *)
Theorem updateQuickPrompt_unknown_id
    (w : World) (xs : list json) (id : string)
    (updates : list (string * json)) :
  value_of getQuickPrompts w = Some (JArr xs) ->
  JNull ∉ xs ->
  (forall p, p ∈ xs -> has_prop_id id p = false) ->
  updateQuickPrompt id updates w =
    Some (tt, put "gpm_quickPrompts" (JArr xs) w) /\
  outbox (put "gpm_quickPrompts" (JArr xs) w) = outbox w ++ [GPM_STORAGE_UPDATED].
Proof.
  intros Hxs Hnull Hfresh. split; [|reflexivity].
  unfold updateQuickPrompt, bind. rewrite (prompts_run _ _ Hxs).
  unfold lift. rewrite (assign_first_none _ _ _ Hnull Hfresh). apply _set_run.
Qed.

Lemma updateQuickPrompt_unknown_id_witness :
  updateQuickPrompt "q9" [("title", JStr "New")] prompt_world =
    Some (tt, put "gpm_quickPrompts" (JArr [translate_prompt]) prompt_world) /\
  outbox (put "gpm_quickPrompts" (JArr [translate_prompt]) prompt_world)
  = outbox prompt_world ++ [GPM_STORAGE_UPDATED].
Proof.
  apply (updateQuickPrompt_unknown_id prompt_world [translate_prompt]).
  - exact prompt_world_prompts.
  - rewrite list_elem_of_singleton. discriminate.
  - intros p Hp. apply list_elem_of_singleton in Hp as ->. reflexivity.
Defined.

(** ** Trees under creation and deletion *)

Lemma find_project_NoDup ps p :
  NoDup (proj_id <$> ps) -> p ∈ ps -> find_project (proj_id p) ps = Some p.
Proof.
  intros Hnd Hp.
  destruct (find_project (proj_id p) ps) as [q|] eqn:Hq.
  - destruct (find_project_Some _ _ _ Hq) as [Hid Hin].
    f_equal. by apply (NoDup_ids_eq ps).
  - exfalso. by apply (proj1 (find_project_None _ _) Hq p).
Qed.

Lemma child_of_elem ps a b :
  NoDup (proj_id <$> ps) ->
  child_of ps a b <-> exists p, p ∈ ps /\ proj_id p = a /\ b ∈ proj_children p.
Proof.
  intros Hnd. split.
  - intros (p & Hfind & Hb).
    destruct (find_project_Some _ _ _ Hfind) as [Hid Hin]. by exists p.
  - intros (p & Hin & <- & Hb). exists p. split; [|done].
    by apply find_project_NoDup.
Qed.

Lemma modify_first_app pid f l1 l2 :
  modify_first pid f (l1 ++ l2) =
    match find_project pid l1 with
    | Some _ => modify_first pid f l1 ++ l2
    | None => l1 ++ modify_first pid f l2
    end.
Proof.
  induction l1 as [|p l1 IH]; [done|].
  rewrite <- app_comm_cons, !modify_first_cons, find_project_cons.
  destruct (decide (proj_id p = pid)); [done|].
  rewrite IH. by destruct (find_project pid l1).
Qed.

(** The collection [createProject] stores, element by element. *)
Lemma createProject_projects_map id name icon color parentId ps :
  NoDup (proj_id <$> ps) ->
  (forall q, q ∈ ps -> proj_id q <> "") ->
  parentId <> Some id ->
  createProject_projects id name icon color parentId ps =
    ((fun q => if decide (parentId = Some (proj_id q))
               then push_child id q else q) <$> ps)
    ++ [mkProject id name icon color parentId [] [] false None].
Proof.
  intros Hnd Hne Hself. unfold createProject_projects.
  destruct (truthy_id parentId) eqn:Htruthy.
  - destruct parentId as [pid|]; [|done].
    change (default "" (Some pid)) with pid.
    rewrite modify_first_app.
    destruct (find_project pid ps) as [p|] eqn:Hfind.
    + f_equal.
      destruct (find_project_Some _ _ _ Hfind) as [Hpid _].
      rewrite (modify_first_ext pid (push_child id)
                 (fun q => if decide (Some pid = Some (proj_id q))
                           then push_child id q else q) ps p Hfind)
        by (rewrite decide_True; [done|by rewrite Hpid]).
      apply modify_first_map; [done|].
      intros q Hq Hneq. destruct (decide _) as [[= E]|]; [|done].
      by exfalso.
    + f_equal.
      * symmetry. apply fmap_fixed. intros q Hq.
        destruct (decide _) as [[= E]|]; [|done].
        exfalso. by apply (proj1 (find_project_None _ _) Hfind q).
      * cbn. unfold has_id. cbn. rewrite bool_decide_eq_false_2; [done|].
        intros E. apply Hself. by rewrite E.
  - f_equal. symmetry. apply fmap_fixed. intros q Hq.
    destruct (decide _) as [E|]; [|done]. exfalso.
    rewrite E in Htruthy. cbn in Htruthy.
    apply negb_false_iff, String.eqb_eq in Htruthy. by apply (Hne q).
Qed.

Section Create.

Variables (ps : list Project) (id name icon color : string).
Variable parentId : option string.
Hypothesis Htree : is_tree ps.
Hypothesis Hid : id <> "".
Hypothesis Hfresh : forall q, q ∈ ps -> proj_id q <> id.
Hypothesis Hunused : forall q, q ∈ ps -> proj_parentId q <> Some id.
Hypothesis Hself : parentId <> Some id.

Let new := mkProject id name icon color parentId [] [] false None.
Let grow := fun q => if decide (parentId = Some (proj_id q))
                     then push_child id q else q.
Let ps' := (grow <$> ps) ++ [new].

Lemma grow_id q : proj_id (grow q) = proj_id q.
Proof. unfold grow. by destruct (decide _). Qed.

Lemma grow_parentId q : proj_parentId (grow q) = proj_parentId q.
Proof. unfold grow. by destruct (decide _). Qed.

Lemma created_elem q' :
  q' ∈ ps' <-> q' = new \/ exists q, q ∈ ps /\ q' = grow q.
Proof.
  unfold ps'. rewrite elem_of_app, list_elem_of_fmap, list_elem_of_singleton.
  split.
  - intros [(q & -> & Hq)| ->]; [right; by exists q|by left].
  - intros [->|(q & Hq & ->)]; [by right|left; by exists q].
Qed.

Lemma created_ids : proj_id <$> ps' = (proj_id <$> ps) ++ [id].
Proof.
  unfold ps'. rewrite fmap_app, <- list_fmap_compose. f_equal.
  apply list_fmap_ext. intros i q _. apply grow_id.
Qed.

Lemma created_NoDup : NoDup (proj_id <$> ps').
Proof.
  rewrite created_ids. apply NoDup_app.
  split; [apply (tree_ids_distinct ps Htree)|].
  split; [|apply NoDup_singleton].
  intros x (q & -> & Hq)%list_elem_of_fmap Hx%list_elem_of_singleton.
  by apply (Hfresh q).
Qed.

Lemma no_child_of_id b : ~ child_of ps id b.
Proof.
  intros (p & Hfind & _).
  destruct (find_project_Some _ _ _ Hfind) as [E Hin]. by apply (Hfresh p).
Qed.

Lemma created_child_of a b :
  child_of ps' a b -> child_of ps a b \/ (parentId = Some a /\ b = id).
Proof.
  intros (p' & Hp' & Ha & Hb)%(child_of_elem _ _ _ created_NoDup).
  apply created_elem in Hp' as [->|(p & Hp & ->)].
  - by apply elem_of_nil in Hb.
  - rewrite grow_id in Ha. subst a. unfold grow in Hb.
    destruct (decide _) as [E|].
    + unfold push_child, set_children in Hb. cbn [proj_children] in Hb.
      apply elem_of_app in Hb as [Hb|Hb%list_elem_of_singleton].
      * left. apply child_of_elem; [apply (tree_ids_distinct ps Htree)|].
        by exists p.
      * by right.
    + left. apply child_of_elem; [apply (tree_ids_distinct ps Htree)|].
      by exists p.
Qed.

Lemma created_descendant x y :
  descendant ps' x y -> descendant ps x y \/ y = id.
Proof.
  induction 1 as [a|a b c Hab Hbc IH]; [left; apply descendant_self|].
  destruct IH as [IH| ->]; [|by right].
  destruct (created_child_of _ _ Hab) as [Hold|[_ ->]].
  - left. by apply (descendant_child ps a b c).
  - destruct (descendant_inv _ _ _ IH) as [->|(p & bb & Hfind & Hbb & _)];
      [by right|].
    exfalso. apply (no_child_of_id bb). by exists p.
Qed.

Lemma created_tree : is_tree ps'.
Proof.
  split.
  - apply created_NoDup.
  - intros p' [->|(p & Hp & ->)]%created_elem; [done|].
    rewrite grow_id. by apply (tree_ids_nonempty ps Htree).
  - intros p' c [->|(p & Hp & ->)]%created_elem.
    + cbn [proj_children new proj_id]. split; [by intros ?%elem_of_nil|].
      intros (q' & [->|(q & Hq & ->)]%created_elem & _ & Hpar).
      * by exfalso.
      * rewrite grow_parentId in Hpar. exfalso. by apply (Hunused q).
    + rewrite grow_id. split.
      * intros Hc.
        assert (Hcases : c ∈ proj_children p \/
                         (c = id /\ parentId = Some (proj_id p))).
        { unfold grow in Hc. destruct (decide _) as [E|]; [|by left].
          unfold push_child, set_children in Hc. cbn [proj_children] in Hc.
          apply elem_of_app in Hc as [Hc|Hc%list_elem_of_singleton];
            [by left|by right]. }
        destruct Hcases as [Hold|[-> Hpar]].
        -- apply (tree_children ps Htree p c Hp) in Hold
             as (q & Hq & Hqid & Hqpar).
           exists (grow q). rewrite grow_id, grow_parentId.
           split; [|done]. apply created_elem. right. by exists q.
        -- exists new. split; [|done]. apply created_elem. by left.
      * intros (q' & [->|(q & Hq & ->)]%created_elem & Hqid & Hqpar).
        -- cbn [new proj_id proj_parentId] in Hqid, Hqpar. subst c.
           unfold grow. rewrite decide_True by done.
           unfold push_child, set_children. cbn [proj_children].
           apply elem_of_app. right. by apply list_elem_of_singleton.
        -- rewrite grow_id in Hqid. rewrite grow_parentId in Hqpar.
           assert (Hold : c ∈ proj_children p).
           { apply (tree_children ps Htree p c Hp). by exists q. }
           unfold grow. destruct (decide _); [|done].
           unfold push_child, set_children. cbn [proj_children].
           apply elem_of_app. by left.
  - intros a b Hab Hba.
    destruct (created_child_of _ _ Hab) as [Hold|[Hpar ->]].
    + destruct (created_descendant _ _ Hba) as [Hd| ->].
      * by apply (tree_acyclic ps Htree a b).
      * by apply (no_child_of_id b).
    + destruct (created_descendant _ _ Hba) as [Hd| ->].
      * destruct (descendant_inv _ _ _ Hd) as [->|(p & bb & Hfind & Hbb & _)].
        -- by apply Hself.
        -- apply (no_child_of_id bb). by exists p.
      * by apply Hself.
Qed.

Lemma created_parents_resolve :
  parents_resolve ps ->
  (truthy_id parentId = true ->
   exists q, q ∈ ps /\ parentId = Some (proj_id q)) ->
  parents_resolve ps'.
Proof.
  intros Hres Hpar p' [->|(p & Hp & ->)]%created_elem Htruthy.
  - destruct (Hpar Htruthy) as (q & Hq & E).
    exists (grow q). rewrite grow_id. split; [|done].
    apply created_elem. right. by exists q.
  - rewrite grow_parentId in *.
    destruct (Hres p Hp Htruthy) as (q & Hq & E).
    exists (grow q). rewrite grow_id. split; [|done].
    apply created_elem. right. by exists q.
Qed.

End Create.

(** X10: [createProject] keeps the collection a tree, given an id that is
    not empty and not in use (no project has it as id or as [parentId]) and
    a [parentId] other than the new id itself; the project returned is the
    new one with no children and no chats, and when [parentId] is empty or
    the id of a stored project, every non-empty [parentId] still resolves. *)
Theorem createProject_keeps_tree
    (w : World) (ps : list Project) (id name icon color : string)
    (parentId : option string) :
  projects_of w = Some ps ->
  is_tree ps ->
  id <> "" ->
  (forall q, q ∈ ps -> proj_id q <> id /\ proj_parentId q <> Some id) ->
  parentId <> Some id ->
  exists w' ps',
    createProject id name icon color parentId w =
      Some (mkProject id name icon color parentId [] [] false None, w') /\
    projects_of w' = Some ps' /\
    is_tree ps' /\
    (parents_resolve ps ->
     (truthy_id parentId = true ->
      exists q, q ∈ ps /\ parentId = Some (proj_id q)) ->
     parents_resolve ps').
Proof.
  intros Hps Htree Hid Hfresh Hself.
  pose proof (createProject_projects_map id name icon color parentId ps
                (tree_ids_distinct ps Htree) (tree_ids_nonempty ps Htree) Hself)
    as Hmap.
  eexists. eexists. split.
  { unfold createProject, bind. rewrite (readProjects_run _ _ Hps).
    fold (createProject_projects id name icon color parentId ps).
    rewrite Hmap, writeProjects_run. unfold ret.
    rewrite last_snoc. reflexivity. }
  split; [apply projects_of_put_projects|].
  split.
  - apply created_tree; try done; intros q Hq; by apply (Hfresh q).
  - apply created_parents_resolve.
Qed.

Lemma createProject_keeps_tree_witness :
  exists w' ps',
    createProject "p9" "Notes" "N" "blue" (Some "root") nested_world =
      Some (mkProject "p9" "Notes" "N" "blue" (Some "root") [] [] false None, w') /\
    projects_of w' = Some ps' /\
    is_tree ps' /\
    (parents_resolve nested_projects ->
     (truthy_id (Some "root") = true ->
      exists q, q ∈ nested_projects /\ Some "root" = Some (proj_id q)) ->
     parents_resolve ps').
Proof.
  apply (createProject_keeps_tree nested_world nested_projects).
  - vm_compute. reflexivity.
  - exact nested_projects_tree.
  - discriminate.
  - intros q Hq.
    assert (Hall : Forall (fun q => proj_id q <> "p9" /\
                                    proj_parentId q <> Some "p9")
                          nested_projects)
      by (repeat constructor; discriminate).
    by apply (proj1 (Forall_forall _ _) Hall).
  - discriminate.
Defined.

Section Delete.

Variables (ps : list Project) (P : string).
Variable closure : gset string.
Hypothesis Htree : is_tree ps.
Hypothesis Hclosure : forall x, x ∈ closure <-> descendant ps P x.

Let ps' := filter (fun q => proj_id q ∉ closure) (drop_child P <$> ps).

Lemma deleted_elem q' :
  q' ∈ ps' <-> exists q, q ∈ ps /\ q' = drop_child P q /\ proj_id q ∉ closure.
Proof.
  unfold ps'. rewrite list_elem_of_filter, list_elem_of_fmap. split.
  - intros [Hout (q & -> & Hq)]. by exists q.
  - intros (q & Hq & -> & Hout). split; [done|by exists q].
Qed.

Lemma deleted_NoDup : NoDup (proj_id <$> ps').
Proof.
  apply (sublist_NoDup _ (proj_id <$> ps));
    [apply (tree_ids_distinct ps Htree)|].
  replace (proj_id <$> ps) with (proj_id <$> (drop_child P <$> ps)).
  - apply fmap_sublist, sublist_filter.
  - rewrite <- list_fmap_compose. by apply list_fmap_ext.
Qed.

(** Below [P], a project's parent is below [P] as well. *)
Lemma closure_parent p q :
  p ∈ ps -> q ∈ ps -> proj_parentId q = Some (proj_id p) ->
  proj_id q ∈ closure -> proj_id q <> P -> proj_id p ∈ closure.
Proof.
  intros Hp Hq Hpar Hin Hne. apply Hclosure in Hin.
  assert (Hlast : forall a x, descendant ps a x -> x <> a ->
            exists y, descendant ps a y /\ child_of ps y x).
  { clear. induction 1 as [a|a b c Hab Hbc IH]; [done|]. intros _.
    destruct (decide (c = b)) as [->|Hcb].
    - exists a. split; [apply descendant_self|done].
    - destruct (IH Hcb) as (y & Hby & Hyc). exists y. split; [|done].
      by apply (descendant_child ps a b y). }
  destruct (Hlast _ _ Hin Hne) as (y & HPy & Hyq).
  apply (child_of_elem _ _ _ (tree_ids_distinct ps Htree)) in Hyq
    as (py & Hpy & <- & Hchild).
  apply (tree_children ps Htree py _ Hpy) in Hchild as (q2 & Hq2 & Hid2 & Hpar2).
  assert (q2 = q) as ->
    by by apply (NoDup_ids_eq ps q2 q (tree_ids_distinct ps Htree)).
  rewrite Hpar in Hpar2. injection Hpar2 as ->. by apply Hclosure.
Qed.

Lemma deleted_child_of a b : child_of ps' a b -> child_of ps a b.
Proof.
  intros (p' & Hp' & Ha & Hb)%(child_of_elem _ _ _ deleted_NoDup).
  apply deleted_elem in Hp' as (p & Hp & -> & _).
  apply (child_of_elem _ _ _ (tree_ids_distinct ps Htree)).
  exists p. split; [done|]. split; [done|].
  unfold drop_child, set_children, without in Hb. cbn [proj_children] in Hb.
  by apply list_elem_of_filter in Hb as [_ Hb].
Qed.

Lemma deleted_descendant a b : descendant ps' a b -> descendant ps a b.
Proof.
  induction 1 as [a|a b c Hab Hbc IH]; [apply descendant_self|].
  apply (descendant_child ps a b c); [by apply deleted_child_of|done].
Qed.

Lemma deleted_tree : is_tree ps'.
Proof.
  split.
  - apply deleted_NoDup.
  - intros p' (p & Hp & -> & _)%deleted_elem.
    exact (tree_ids_nonempty ps Htree p Hp).
  - intros p' c (p & Hp & -> & Hout)%deleted_elem.
    change (proj_id (drop_child P p)) with (proj_id p).
    unfold drop_child at 1, set_children, without. cbn [proj_children].
    rewrite list_elem_of_filter. split.
    + intros [Hne Hc].
      apply (tree_children ps Htree p c Hp) in Hc as (q & Hq & Hqid & Hqpar).
      exists (drop_child P q). split; [|done].
      apply deleted_elem. exists q. split; [done|]. split; [done|].
      intros Hin. apply Hout.
      apply (closure_parent p q); try done. by rewrite Hqid.
    + intros (q' & (q & Hq & -> & Hqout)%deleted_elem & Hqid & Hqpar).
      change (proj_id (drop_child P q)) with (proj_id q) in Hqid.
      change (proj_parentId (drop_child P q)) with (proj_parentId q) in Hqpar.
      split.
      * intros ->. apply Hqout. rewrite Hqid. apply Hclosure, descendant_self.
      * apply (tree_children ps Htree p c Hp). by exists q.
  - intros a b Hab%deleted_child_of Hba%deleted_descendant.
    by apply (tree_acyclic ps Htree a b).
Qed.

Lemma deleted_parents_resolve : parents_resolve ps -> parents_resolve ps'.
Proof.
  intros Hres p' (p & Hp & -> & Hout)%deleted_elem Htruthy.
  change (proj_parentId (drop_child P p)) with (proj_parentId p) in *.
  destruct (Hres p Hp Htruthy) as (q & Hq & Hpar).
  exists (drop_child P q). split; [|done].
  apply deleted_elem. exists q. split; [done|]. split; [done|].
  intros Hin. apply Hout. apply Hclosure.
  apply (descendant_trans ps P (proj_id q)); [by apply Hclosure|].
  apply (descendant_child ps _ (proj_id p)); [|apply descendant_self].
  apply (child_of_elem _ _ _ (tree_ids_distinct ps Htree)).
  exists q. split; [done|]. split; [done|].
  apply (tree_children ps Htree q _ Hq). by exists p.
Qed.

End Delete.

(** X11: [deleteProject] of a stored project of a tree leaves a tree, and
    every non-empty [parentId] that resolved before resolves after. *)
Theorem deleteProject_keeps_tree
    (w : World) (ps : list Project) (cm : gmap string ChatMapping)
    (P : string) (target : Project) (fuel : nat) :
  projects_of w = Some ps ->
  chatMap_of w = Some cm ->
  is_tree ps ->
  find_project P ps = Some target ->
  (length ps < fuel)%nat ->
  exists w' ps',
    deleteProject fuel P w = Some (tt, w') /\
    projects_of w' = Some ps' /\
    is_tree ps' /\
    (parents_resolve ps -> parents_resolve ps').
Proof.
  intros Hps Hcm Htree Htarget Hfuel.
  destruct (collectDescendants_terminates ps fuel P
              (tree_acyclic ps Htree) Hfuel) as [ids Hids].
  pose proof (collectDescendants_spec ps fuel P ids Hids) as Hspec.
  destruct (views_after_writes (deleteProject_projects ids P ps)
              (deleteProject_chatMap ids cm) w) as [Hps' _].
  eexists. exists (deleteProject_projects ids P ps).
  split; [by apply (deleteProject_run w ps cm Hps Hcm fuel P ids)|].
  split; [exact Hps'|].
  assert (Hclosure : forall x, x ∈ (list_to_set ids : gset string) <->
                               descendant ps P x)
    by (intros x; rewrite elem_of_list_to_set; apply Hspec).
  unfold deleteProject_projects. rewrite (detach_tree ps P target Htree Htarget).
  split.
  - by apply (deleted_tree ps P).
  - by apply (deleted_parents_resolve ps P).
Qed.

Lemma nested_projects_resolve : parents_resolve nested_projects.
Proof.
  intros p Hp Htruthy. unfold nested_projects in *.
  repeat (apply elem_of_cons in Hp as [->|Hp]); [done| | |by apply elem_of_nil in Hp].
  - eexists. split; [apply list_elem_of_here|reflexivity].
  - eexists. split; [apply list_elem_of_further, list_elem_of_here|reflexivity].
Qed.

Lemma deleteProject_keeps_tree_witness :
  exists w' ps',
    deleteProject 4 "child" nested_world = Some (tt, w') /\
    projects_of w' = Some ps' /\
    is_tree ps' /\
    (parents_resolve nested_projects -> parents_resolve ps').
Proof.
  apply (deleteProject_keeps_tree nested_world nested_projects nested_chatMap
           "child"
           (mkProject "child" "Child" "C" "#fff" (Some "root") ["grand"]
                      ["chat2"] false None)).
  - vm_compute. reflexivity.
  - vm_compute. reflexivity.
  - exact nested_projects_tree.
  - reflexivity.
  - cbn. lia.
Defined.

(** ** What the renderer reaches *)

Lemma rendered_stored ps p : rendered ps p -> p ∈ ps.
Proof.
  intros [q Hq|q r _ Hr].
  - unfold getRootProjects in Hq. by apply list_elem_of_filter in Hq as [_ ?].
  - unfold getChildren in Hr. by apply list_elem_of_filter in Hr as [_ ?].
Qed.

(** X12: in a tree, every stored project gets a row exactly when every
    non-empty [parentId] is the id of a stored project. *)
Theorem all_rendered_iff_parents_resolve (ps : list Project) :
  is_tree ps ->
  (forall p, p ∈ ps -> rendered ps p) <-> parents_resolve ps.
Proof.
  intros Htree. split.
  - intros Hall p Hp Htruthy.
    destruct (Hall p Hp) as [r Hr|q r Hq Hr].
    + unfold getRootProjects in Hr. apply list_elem_of_filter in Hr as [Hr _].
      by rewrite Htruthy in Hr.
    + unfold getChildren in Hr. apply list_elem_of_filter in Hr as [Hr _].
      exists q. split; [by apply rendered_stored|done].
  - intros Hres.
    pose proof (tree_ids_distinct ps Htree) as Hnd.
    assert (Hclimb : forall (n : nat) (p : Project) (seen : list string),
              p ∈ ps -> NoDup seen ->
              (forall x : string, x ∈ seen ->
                 x ∈ (proj_id <$> ps) /\
                 exists b, child_of ps (proj_id p) b /\ descendant ps b x) ->
              (length ps <= length seen + n)%nat ->
              rendered ps p).
    { induction n as [|n IH]; intros p seen Hp Hseen Hbelow Hlen.
      - exfalso.
        assert (Hfresh : proj_id p ∉ seen).
        { intros Hin. destruct (Hbelow _ Hin) as [_ (b & Hb & Hd)].
          by apply (tree_acyclic ps Htree _ _ Hb). }
        assert (Hsub : proj_id p :: seen ⊆+ proj_id <$> ps).
        { apply NoDup_submseteq; [by apply NoDup_cons|].
          intros x [->|Hx]%elem_of_cons.
          - by apply list_elem_of_fmap_2.
          - by apply Hbelow. }
        apply submseteq_length in Hsub.
        rewrite length_fmap in Hsub. cbn [length] in Hsub. lia.
      - destruct (truthy_id (proj_parentId p)) eqn:Htruthy.
        + destruct (Hres p Hp Htruthy) as (q & Hq & Hpar).
          apply (rendered_child ps q p).
          * assert (Hedge : child_of ps (proj_id q) (proj_id p)).
            { apply child_of_elem; [done|]. exists q.
              split; [done|]. split; [done|].
              apply (tree_children ps Htree q _ Hq). by exists p. }
            apply (IH q (proj_id p :: seen) Hq).
            -- apply NoDup_cons. split; [|done].
               intros Hin. destruct (Hbelow _ Hin) as [_ (b & Hb & Hd)].
               by apply (tree_acyclic ps Htree _ _ Hb).
            -- intros x [->|Hx]%elem_of_cons.
               ++ split; [by apply list_elem_of_fmap_2|].
                  exists (proj_id p). split; [done|apply descendant_self].
               ++ destruct (Hbelow _ Hx) as [Hid (b & Hb & Hd)].
                  split; [done|]. exists (proj_id p). split; [done|].
                  by apply (descendant_child ps _ b).
            -- cbn [length]. lia.
          * unfold getChildren. apply list_elem_of_filter. by split.
        + apply rendered_root. unfold getRootProjects.
          apply list_elem_of_filter. by split. }
    intros p Hp. apply (Hclimb (length ps) p []); [done|constructor| |cbn; lia].
    by intros x Hx%elem_of_nil.
Qed.

Lemma all_rendered_iff_parents_resolve_witness :
  (forall p, p ∈ nested_projects -> rendered nested_projects p) <->
  parents_resolve nested_projects.
Proof.
  apply all_rendered_iff_parents_resolve. exact nested_projects_tree.
Defined.

(** ** A render pass with visible chats *)

Lemma alias_filled_refl m : alias_filled m m.
Proof. split; [done|]. split; [done|by left]. Qed.

Lemma alias_filled_trans m1 m2 m3 :
  alias_filled m1 m2 -> alias_filled m2 m3 -> alias_filled m1 m3.
Proof.
  intros (Hp1 & Hq1 & Ha1) (Hp2 & Hq2 & Ha2).
  split; [congruence|]. split; [congruence|].
  destruct Ha1 as [E1|[E1 N1]], Ha2 as [E2|[E2 N2]].
  - left. congruence.
  - right. split; [congruence|done].
  - right. split; [done|congruence].
  - by exfalso.
Qed.

Lemma backfilled_refl cm : backfilled cm cm.
Proof.
  intros c. destruct (cm !! c); constructor. apply alias_filled_refl.
Qed.

Lemma backfilled_trans cm1 cm2 cm3 :
  backfilled cm1 cm2 -> backfilled cm2 cm3 -> backfilled cm1 cm3.
Proof.
  intros H12 H23 c. specialize (H12 c). specialize (H23 c).
  destruct H12 as [m1 m2 H12|]; inversion H23; subst; constructor.
  by apply (alias_filled_trans m1 m2).
Qed.

Lemma backfill_link_backfilled cm act upd link :
  backfilled cm (backfill_link (cm, act, upd) link).1.1 /\
  ((backfill_link (cm, act, upd) link).2 = false ->
   (backfill_link (cm, act, upd) link).1.1 = cm /\ upd = false).
Proof.
  unfold backfill_link.
  destruct (match_app_id (href link)) as [cid|]; cbn [fst snd];
    [|split; [apply backfilled_refl|done]].
  destruct (cm !! cid) as [m|] eqn:Hm; cbn [fst snd];
    [|split; [apply backfilled_refl|done]].
  destruct (String.eqb (map_alias m) "") eqn:Halias; cbn [andb fst snd];
    [|split; [apply backfilled_refl|done]].
  destruct (String.eqb (trim (textContent link)) "") eqn:Htitle;
    cbn [negb andb fst snd]; [split; [apply backfilled_refl|done]|].
  destruct (String.eqb (trim (textContent link)) cid); cbn [negb fst snd];
    [split; [apply backfilled_refl|done]|].
  split; [|done].
  intros c. destruct (decide (c = cid)) as [->|Hne].
  - rewrite lookup_insert_eq, Hm. constructor.
    split; [done|]. split; [done|]. right.
    apply String.eqb_eq in Halias. apply String.eqb_neq in Htitle. by split.
  - rewrite lookup_insert_ne by done. apply backfilled_refl.
Qed.

Lemma backfill_backfilled links : forall cm act upd cm1 act1 upd1,
  foldl backfill_link (cm, act, upd) links = (cm1, act1, upd1) ->
  backfilled cm cm1 /\ (upd1 = false -> cm1 = cm /\ upd = false).
Proof.
  induction links as [|l links IH]; intros cm act upd cm1 act1 upd1.
  - cbn. intros [= -> -> ->]. split; [apply backfilled_refl|done].
  - cbn [foldl]. intros Hfold.
    destruct (backfill_link_backfilled cm act upd l) as [Hstep Hflag].
    destruct (backfill_link (cm, act, upd) l) as [[cm0 act0] upd0].
    cbn [fst snd] in *.
    destruct (IH _ _ _ _ _ _ Hfold) as [Hrest Hflag'].
    split; [by apply (backfilled_trans cm cm0)|].
    intros Hupd. destruct (Hflag' Hupd) as [-> Hupd0]. by apply Hflag.
Qed.

Lemma backfilled_consistent ps cm cm1 :
  backfilled cm cm1 ->
  chat_invariant ps cm -> no_stray_chats ps cm ->
  chat_invariant ps cm1 /\ no_stray_chats ps cm1.
Proof.
  intros Hb Hinv Hstray. split.
  - intros c m1 Hm1. specialize (Hb c). rewrite Hm1 in Hb.
    inversion Hb as [m ? (Hp & _) Hm|]; subst. rewrite Hp.
    by apply Hinv.
  - intros q c Hq Hc. specialize (Hb c).
    destruct (Hstray q c Hq Hc) as [m Hm]. rewrite Hm in Hb.
    inversion Hb; subst. by eexists.
Qed.

Lemma cleanup_fold act : forall l ps cm flag ps' cm' flag',
  NoDup l.*1 ->
  (forall c m, (c, m) ∈ l -> cm !! c = Some m) ->
  chat_invariant ps cm -> no_stray_chats ps cm ->
  foldl (cleanup_entry act) (ps, cm, flag) l = (ps', cm', flag') ->
  chat_invariant ps' cm' /\ no_stray_chats ps' cm' /\
  (forall c, cm' !! c =
     if decide (c ∈ l.*1 /\ c ∉ act) then None else cm !! c) /\
  (flag' = false -> ps' = ps /\ cm' = cm /\ flag = false).
Proof.
  induction l as [|[c m] l IH]; intros ps cm flag ps' cm' flag' Hnd Hl Hinv Hstray.
  - cbn. intros [= <- <- <-]. split; [done|]. split; [done|]. split; [|done].
    intros c. rewrite decide_False; [done|]. intros [Hc%elem_of_nil _]. done.
  - cbn [foldl cleanup_entry]. cbn [fmap list_fmap fst] in Hnd.
    apply NoDup_cons in Hnd as [Hfresh Hnd].
    assert (Hm : cm !! c = Some m) by apply Hl, list_elem_of_here.
    destruct (bool_decide (c ∈ act)) eqn:Hact.
    + apply bool_decide_eq_true in Hact. intros Hfold.
      destruct (IH ps cm flag ps' cm' flag' Hnd) as (H1 & H2 & H3 & H4);
        try done.
      { intros c' m' Hin. by apply Hl, list_elem_of_further. }
      split; [done|]. split; [done|]. split; [|done].
      intros x. rewrite H3. cbn [fmap list_fmap fst].
      destruct (decide (x ∈ l.*1 /\ x ∉ act)) as [[Hx Hout]|Hno].
      * rewrite decide_True; [done|]. split; [by apply list_elem_of_further|done].
      * rewrite decide_False; [done|].
        intros [[->|Hx]%elem_of_cons Hout]; [done|]. by apply Hno.
    + apply bool_decide_eq_false in Hact. intros Hfold.
      assert (Hunlink : modify_first (map_projectId m) (drop_chat c) ps
                        = unlink_chat c cm ps)
        by (unfold unlink_chat; by rewrite Hm).
      rewrite Hunlink in Hfold.
      destruct (unassignChat_consistent c ps cm Hinv Hstray) as [Hinv1 Hstray1].
      assert (Hl' : forall c' m', (c', m') ∈ l -> delete c cm !! c' = Some m').
      { intros c' m' Hin.
        rewrite lookup_delete_ne; [by apply Hl, list_elem_of_further|].
        intros ->. apply Hfresh. apply list_elem_of_fmap. by exists (c', m'). }
      destruct (IH _ _ _ ps' cm' flag' Hnd Hl' Hinv1 Hstray1 Hfold)
        as (H1 & H2 & H3 & H4).
      split; [done|]. split; [done|]. split.
      * intros x. rewrite H3. cbn [fmap list_fmap fst].
        destruct (decide (x ∈ l.*1 /\ x ∉ act)) as [[Hx Hout]|Hno].
        -- rewrite decide_True; [done|].
           split; [by apply list_elem_of_further|done].
        -- destruct (decide (x = c)) as [->|Hne].
           ++ rewrite lookup_delete_eq, decide_True; [done|].
              split; [apply list_elem_of_here|done].
           ++ rewrite lookup_delete_ne by done. rewrite decide_False; [done|].
              intros [[->|Hx]%elem_of_cons Hout]; [done|]. by apply Hno.
      * intros Hflag. by destruct (H4 Hflag) as (_ & _ & ?).
Qed.

(** X13: a render pass on a consistent store, with at least one chat
    visible in the sidebar, returns and leaves a consistent store in which
    every chat that is not visible has lost its mapping and is listed by no
    project, and every visible chat keeps its mapping, with at most an empty
    alias filled in. *)
Theorem render_drops_hidden_chats
    (w : World) (ps : list Project) (cm : gmap string ChatMapping)
    (sidebarLinks : list Link) :
  projects_of w = Some ps ->
  chatMap_of w = Some cm ->
  chat_invariant ps cm ->
  no_stray_chats ps cm ->
  visible_chat_ids sidebarLinks <> ∅ ->
  exists w' ps' cm',
    gpmRenderTree true sidebarLinks w = Some (tt, w') /\
    projects_of w' = Some ps' /\
    chatMap_of w' = Some cm' /\
    consistent w' /\
    (forall c, c ∉ visible_chat_ids sidebarLinks -> cm' !! c = None) /\
    (forall c, c ∈ visible_chat_ids sidebarLinks ->
       option_Forall2 alias_filled (cm !! c) (cm' !! c)) /\
    (forall q c, q ∈ ps' -> c ∈ proj_chatIds q ->
       c ∈ visible_chat_ids sidebarLinks).
Proof.
  intros Hps Hcm Hinv Hstray Hvis.
  unfold gpmRenderTree. cbn [negb]. unfold bind.
  rewrite (readProjects_run _ _ Hps), (readChatMap_run _ _ Hcm).
  pose proof (backfill_active sidebarLinks cm ∅ false) as Hact.
  destruct (foldl backfill_link (cm, ∅, false) sidebarLinks)
    as [[cm1 act] upd] eqn:Hfold.
  cbn [fst snd] in Hact.
  assert (Hact' : act = visible_chat_ids sidebarLinks)
    by (rewrite Hact; set_solver).
  clear Hact. subst act.
  destruct (backfill_backfilled _ _ _ _ _ _ _ Hfold) as [Hb Hupd].
  destruct (backfilled_consistent ps cm cm1 Hb Hinv Hstray) as [Hinv1 Hstray1].
  rewrite (bool_decide_eq_true_2 _ Hvis).
  destruct (foldl (cleanup_entry (visible_chat_ids sidebarLinks))
              (ps, cm1, false) (map_to_list cm1))
    as [[ps' cm'] flag] eqn:Hclean.
  destruct (cleanup_fold _ _ _ _ _ _ _ _ (NoDup_fst_map_to_list cm1)
              (fun c m H => proj1 (elem_of_map_to_list cm1 c m) H)
              Hinv1 Hstray1 Hclean) as (Hinv' & Hstray' & Hlook & Hflag).
  assert (Hhidden : forall c, c ∉ visible_chat_ids sidebarLinks ->
                              cm' !! c = None).
  { intros c Hc. rewrite Hlook.
    destruct (decide _) as [|Hno]; [done|].
    destruct (cm1 !! c) as [m|] eqn:Hm; [|done].
    exfalso. apply Hno. split; [|done].
    apply list_elem_of_fmap. exists (c, m). split; [done|].
    by apply elem_of_map_to_list. }
  assert (Hkept : forall c, c ∈ visible_chat_ids sidebarLinks ->
                            option_Forall2 alias_filled (cm !! c) (cm' !! c)).
  { intros c Hc. rewrite Hlook. rewrite decide_False by (by intros [_ ?]).
    apply Hb. }
  assert (Hlisted : forall q c, q ∈ ps' -> c ∈ proj_chatIds q ->
                                c ∈ visible_chat_ids sidebarLinks).
  { intros q c Hq Hc. destruct (Hstray' q c Hq Hc) as [m Hm].
    destruct (decide (c ∈ visible_chat_ids sidebarLinks)) as [|Hout]; [done|].
    by rewrite (Hhidden c Hout) in Hm. }
  destruct flag.
  - destruct (views_after_writes ps' cm' w) as [Hps' Hcm'].
    exists (put "gpm_chatMap" (of_chatMap cm')
              (put "gpm_projects" (of_projects ps') w)), ps', cm'.
    split; [reflexivity|].
    split; [exact Hps'|]. split; [exact Hcm'|].
    split; [apply consistent_after_writes; by split|]. done.
  - destruct (Hflag eq_refl) as (-> & -> & _).
    destruct upd.
    + exists (put "gpm_chatMap" (of_chatMap cm1) w), ps, cm1.
      split; [reflexivity|].
      split; [by rewrite projects_of_put_other|].
      split; [apply chatMap_of_put_chatMap|].
      split; [apply (consistent_put_chatMap w ps); [done|by split]|]. done.
    + destruct (Hupd eq_refl) as [-> _].
      exists w, ps, cm. split; [reflexivity|].
      split; [done|]. split; [done|].
      split; [by apply (consistent_intro w ps cm)|]. done.
Qed.

Lemma render_drops_hidden_chats_witness :
  exists w' ps' cm',
    gpmRenderTree true [mkLink "/app/chat2" "Second"] nested_world
      = Some (tt, w') /\
    projects_of w' = Some ps' /\
    chatMap_of w' = Some cm' /\
    consistent w' /\
    (forall c, c ∉ visible_chat_ids [mkLink "/app/chat2" "Second"] ->
       cm' !! c = None) /\
    (forall c, c ∈ visible_chat_ids [mkLink "/app/chat2" "Second"] ->
       option_Forall2 alias_filled (nested_chatMap !! c) (cm' !! c)) /\
    (forall q c, q ∈ ps' -> c ∈ proj_chatIds q ->
       c ∈ visible_chat_ids [mkLink "/app/chat2" "Second"]).
Proof.
  assert (Hinv : chat_invariant nested_projects nested_chatMap).
  { intros c m Hm. unfold nested_chatMap in Hm.
    apply lookup_insert_Some in Hm as [[<- <-]|[_ Hm]].
    { exists [], (mkProject "root" "Root" "R" "#fff" None ["child"] ["chat1"] false None),
        (tail nested_projects).
      split; [reflexivity|]. split; [reflexivity|]. split; [reflexivity|].
      split; [reflexivity|].
      intros q Hq. cbn in Hq.
      repeat (apply elem_of_cons in Hq as [->|Hq]);
        [| |by apply elem_of_nil in Hq];
        cbn; intros Hc; repeat (apply elem_of_cons in Hc as [[=]|Hc]);
        by apply elem_of_nil in Hc. }
    apply lookup_insert_Some in Hm as [[<- <-]|[_ Hm]].
    { exists [mkProject "root" "Root" "R" "#fff" None ["child"] ["chat1"] false None],
        (mkProject "child" "Child" "C" "#fff" (Some "root") ["grand"] ["chat2"] false None),
        [mkProject "grand" "Grandchild" "G" "#fff" (Some "child") [] ["chat3"] false None].
      split; [reflexivity|]. split; [reflexivity|]. split; [reflexivity|].
      split; [reflexivity|].
      intros q Hq. cbn in Hq.
      repeat (apply elem_of_cons in Hq as [->|Hq]);
        [| |by apply elem_of_nil in Hq];
        cbn; intros Hc; repeat (apply elem_of_cons in Hc as [[=]|Hc]);
        by apply elem_of_nil in Hc. }
    apply lookup_singleton_Some in Hm as [<- <-].
    exists [mkProject "root" "Root" "R" "#fff" None ["child"] ["chat1"] false None;
            mkProject "child" "Child" "C" "#fff" (Some "root") ["grand"] ["chat2"] false None],
      (mkProject "grand" "Grandchild" "G" "#fff" (Some "child") [] ["chat3"] false None),
      [].
    split; [reflexivity|]. split; [reflexivity|]. split; [reflexivity|].
    split; [reflexivity|].
    intros q Hq. cbn in Hq.
    repeat (apply elem_of_cons in Hq as [->|Hq]);
      [| |by apply elem_of_nil in Hq];
      cbn; intros Hc; repeat (apply elem_of_cons in Hc as [[=]|Hc]);
      by apply elem_of_nil in Hc. }
  assert (Hstray : no_stray_chats nested_projects nested_chatMap).
  { intros q c Hq Hc. unfold nested_projects in Hq.
    repeat (apply elem_of_cons in Hq as [->|Hq]);
      [| | |by apply elem_of_nil in Hq];
      cbn in Hc; apply list_elem_of_singleton in Hc as ->;
      eexists; vm_compute; reflexivity. }
  assert (Hvis : visible_chat_ids [mkLink "/app/chat2" "Second"] <> ∅).
  { intros Hempty.
    assert (Hin : "chat2" ∈ visible_chat_ids [mkLink "/app/chat2" "Second"])
      by (apply elem_of_list_to_set; cbn; apply list_elem_of_here).
    rewrite Hempty in Hin. by apply elem_of_empty in Hin. }
  apply (render_drops_hidden_chats nested_world nested_projects nested_chatMap
           _ (eq_refl : projects_of nested_world = Some nested_projects)
           (eq_refl : chatMap_of nested_world = Some nested_chatMap)
           Hinv Hstray Hvis).
Defined.

(** ** Rendering again *)









(** ** The pending assignment over a run of the timers *)

Lemma step_pending o e o1 effects :
  step o e = (o1, effects) ->
  (Forall (fun x => is_auto_assign x = false) effects /\
   (gpmPendingChatAssignment o1 = gpmPendingChatAssignment o \/
    gpmPendingChatAssignment o1 = None)) \/
  (exists c pd, effects = [AutoAssign c pd.(pend_projectId)] /\
                gpmPendingChatAssignment o = Some pd /\
                gpmPendingChatAssignment o1 = None).
Proof.
  destruct e as [now id|now]; cbn [step].
  - unfold pollTick.
    destruct (truthy_id id && negb (bool_decide (id = lastChatId o))) eqn:Hnew.
    + destruct (gpmPendingChatAssignment o) as [pd|] eqn:Hpd.
      * intros Hstep. right. exists (default "" id), pd.
        destruct (negb (truthy_id id) && _); injection Hstep as <- <-; done.
      * intros Hstep. left.
        destruct (negb (truthy_id id) && _); injection Hstep as <- <-;
          (split; [by repeat constructor|by right]).
    + intros Hstep. left.
      destruct (negb (truthy_id id) && _); injection Hstep as <- <-;
        (split; [constructor|by left]).
  - intros [= <- <-]. left. split; [constructor|].
    unfold sweepTick. destruct (gpmPendingChatAssignment o) as [pd|] eqn:Hpd;
      [|by left].
    destruct (_ && _); [by right|by left].
Qed.

(** X15: over any run of the poller and the sweeper, at most one chat is
    auto-assigned, and only to the project of the assignment pending at the
    start. *)
Theorem at_most_one_auto_assign (events : list Event) (o : Observer) :
  (length (filter (fun e => is_auto_assign e = true) (run o events).2) <= 1)%nat /\
  (forall c p, AutoAssign c p ∈ (run o events).2 ->
     exists pd, gpmPendingChatAssignment o = Some pd /\ pend_projectId pd = p).
Proof.
  revert o. induction events as [|e events IH]; intros o.
  - cbn. split; [lia|]. by intros c p ?%elem_of_nil.
  - cbn [run]. destruct (step o e) as [o1 eff1] eqn:Hstep.
    specialize (IH o1).
    pose proof (run_without_pending events o1) as Hnone.
    destruct (run o1 events) as [o2 eff2]. cbn [fst snd] in *.
    destruct IH as [IHlen IHin].
    assert (Hquiet : forall effs,
              Forall (fun x => is_auto_assign x = false) effs ->
              filter (fun e => is_auto_assign e = true) effs = [] /\
              forall c p, AutoAssign c p ∉ effs).
    { clear. intros effs Hall. split.
      - induction Hall as [|x effs Hx _ IH]; [done|].
        rewrite filter_cons, decide_False by (by rewrite Hx). exact IH.
      - intros c p Hin. by apply (proj1 (Forall_forall _ _) Hall) in Hin. }
    destruct (step_pending _ _ _ _ Hstep)
      as [[Hq Hpd]|(c0 & pd & -> & Hpd & Hpd1)].
    + destruct (Hquiet _ Hq) as [Hf Hnot].
      rewrite filter_app, Hf. cbn [app]. split; [done|].
      intros c p [Hin|Hin]%elem_of_app; [by apply Hnot in Hin|].
      destruct (IHin c p Hin) as (pd & Hpd1 & Hp). exists pd. split; [|done].
      destruct Hpd as [<-|E]; [done|]. by rewrite E in Hpd1.
    + destruct (Hnone Hpd1) as [_ Hq2].
      destruct (Hquiet _ Hq2) as [Hf Hnot].
      rewrite filter_app, Hf, app_nil_r.
      rewrite filter_cons, decide_True by done. cbn. split; [lia|].
      intros c p [Hin|Hin]%elem_of_cons; [|by apply Hnot in Hin].
      injection Hin as -> ->. by exists pd.
Qed.

(** X16: while an assignment for [p] is pending, recorded at [T], polls on
    a page with no chat id and sweeps up to 120000 ms after [T] leave it
    waiting, and the next poll that sees a chat id [c] other than the last
    one seen assigns [c] to [p] and clears it. *)
Theorem pending_goes_to_next_chat
    (o : Observer) (p c : string) (T now : Z) (events : list Event) :
  gpmPendingChatAssignment o = Some (mkPending p T) ->
  lastChatId o <> Some c ->
  c <> "" ->
  forallb (quiet T) events = true ->
  run o (events ++ [Poll now (Some c)]) =
    (mkObserver None (Some c), [AutoAssign c p]).
Proof.
  revert o. induction events as [|e events IH]; intros o Hpd Hlast Hc Hquiet.
  - cbn [app run step]. unfold pollTick. rewrite Hpd.
    assert (Htruthy : truthy_id (Some c) = true).
    { cbn. apply negb_true_iff. by apply String.eqb_neq. }
    rewrite Htruthy. rewrite bool_decide_eq_false_2 by (intros E; by apply Hlast).
    cbn. reflexivity.
  - cbn [forallb] in Hquiet. apply andb_true_iff in Hquiet as [He Hrest].
    rewrite <- app_comm_cons. cbn [run].
    assert (Hstep : exists o1, step o e = (o1, []) /\
              gpmPendingChatAssignment o1 = Some (mkPending p T) /\
              lastChatId o1 <> Some c).
    { destruct e as [t id|t]; cbn [step quiet] in *.
      - unfold pollTick. apply negb_true_iff in He. rewrite He.
        cbn [andb negb].
        destruct (truthy_id (lastChatId o)); eexists; (split; [reflexivity|]);
          by split.
      - exists o. split; [|done]. f_equal. unfold sweepTick. rewrite Hpd.
        cbn [pend_ts].
        destruct (Z.ltb_spec 120000 (t - T)) as [Hlate|_];
          [apply Z.leb_le in He; lia|].
        by rewrite andb_false_r. }
    destruct Hstep as (o1 & -> & Hpd1 & Hlast1).
    by rewrite (IH o1 Hpd1 Hlast1 Hc Hrest).
Qed.

Lemma pending_goes_to_next_chat_witness :
  run (mkObserver (Some (mkPending "p1" 1000)) None)
      ([Poll 1500 None; Sweep 5000; Poll 5500 None] ++ [Poll 6000 (Some "old")])
  = (mkObserver None (Some "old"), [AutoAssign "old" "p1"]).
Proof.
  apply (pending_goes_to_next_chat
           (mkObserver (Some (mkPending "p1" 1000)) None) "p1" "old" 1000).
  - reflexivity.
  - discriminate.
  - discriminate.
  - reflexivity.
Defined.

(** ** The walk of [isDescendant] *)

Lemma isDescendant_terminates_path ps P :
  acyclic_parents ps ->
  forall fuel Q path,
    NoDup path ->
    (forall a, a ∈ path -> is_Some (find_project a ps) /\ ancestor ps a Q) ->
    (length ps < length path + fuel)%nat ->
    is_Some (isDescendant fuel ps P Q).
Proof.
  intros Hacyc. induction fuel as [|fuel IH]; intros Q path Hnd Hpath Hlen.
  - exfalso.
    assert (Hsub : path ⊆+ proj_id <$> ps).
    { apply NoDup_submseteq; [done|]. intros a Ha.
      destruct (Hpath a Ha) as [[p Hp] _].
      destruct (find_project_Some _ _ _ Hp) as [<- Hin].
      by apply list_elem_of_fmap_2. }
    apply submseteq_length in Hsub. rewrite length_fmap in Hsub. lia.
  - cbn [isDescendant].
    destruct (find_project Q ps) as [p|] eqn:Hp; [|by eexists].
    case_bool_decide as Hpar; [by eexists|].
    destruct (truthy_id (proj_parentId p)) eqn:Htruthy; [|by eexists].
    destruct (proj_parentId p) as [y|] eqn:Hy; [|done].
    change (default "" (Some y)) with y.
    assert (Hne : y <> "") by (intros ->; by cbn in Htruthy).
    assert (Hedge : parent_edge ps Q y) by by exists p.
    apply (IH y (Q :: path)).
    + apply NoDup_cons. split; [|done]. intros Hin.
      destruct (Hpath Q Hin) as [_ Hcycle]. by apply (Hacyc Q).
    + intros a [->|Ha]%elem_of_cons.
      * split; [by exists p|by apply ancestor_parent].
      * destruct (Hpath a Ha) as [Hfind Hanc]. split; [done|].
        apply (ancestor_trans ps a Q y); [done|by apply ancestor_parent].
    + cbn [length]. lia.
Qed.

Lemma isDescendant_terminates ps P Q fuel :
  acyclic_parents ps -> (length ps < fuel)%nat ->
  is_Some (isDescendant fuel ps P Q).
Proof.
  intros Hacyc Hlen.
  apply (isDescendant_terminates_path ps P Hacyc fuel Q []).
  - constructor.
  - by intros a Ha%elem_of_nil.
  - cbn [length]. lia.
Qed.

(** X17: where the parents form no cycle, [isDescendant(P, Q)] returns,
    given a call stack deeper than the number of projects, and answers
    whether [P] is reached from [Q] by steps to the parent. *)
Theorem isDescendant_decides
    (ps : list Project) (P Q : string) (fuel : nat) :
  acyclic_parents ps ->
  P <> "" ->
  (length ps < fuel)%nat ->
  exists b, isDescendant fuel ps P Q = Some b /\ (b = true <-> ancestor ps Q P).
Proof.
  intros Hacyc HP Hlen.
  destruct (isDescendant_terminates ps P Q fuel Hacyc Hlen) as [b Hb].
  exists b. split; [done|]. by apply (isDescendant_spec ps P HP fuel Q b).
Qed.

Lemma nested_ancestor_depth x y :
  ancestor nested_projects x y -> (nested_depth y < nested_depth x)%nat.
Proof.
  assert (Hedge : forall x y, parent_edge nested_projects x y ->
                              (nested_depth y < nested_depth x)%nat).
  { clear. intros x y (p & Hp & Hy & _).
    destruct (find_project_Some _ _ _ Hp) as [<- Hin].
    unfold nested_projects in Hin.
    repeat (apply elem_of_cons in Hin as [->|Hin]);
      [done| | |by apply elem_of_nil in Hin];
      cbn in Hy; injection Hy as <-; cbn; lia. }
  induction 1 as [x y Hxy|x y z Hxy _ IH]; [by apply Hedge|].
  apply Hedge in Hxy. lia.
Qed.

Lemma nested_parents_acyclic : acyclic_parents nested_projects.
Proof. intros x Hx. apply nested_ancestor_depth in Hx. lia. Qed.

Lemma isDescendant_decides_witness :
  exists b, isDescendant 4 nested_projects "root" "grand" = Some b /\
            (b = true <-> ancestor nested_projects "grand" "root").
Proof.
  apply (isDescendant_decides nested_projects "root" "grand" 4).
  - exact nested_parents_acyclic.
  - discriminate.
  - cbn. lia.
Defined.



(** X19: a center drop on rows rendered from the stored projects, whose
    parents form no cycle, returns, and the parents of the projects it
    leaves form no cycle. *)
Theorem drop_center_returns_acyclic
    (w : World) (ps : list Project) (project : Project)
    (droppedProjectId : string) (fuel : nat) :
  projects_of w = Some ps ->
  acyclic_parents ps ->
  (length ps < fuel)%nat ->
  exists r w' ps',
    dropProjectCenter fuel ps project droppedProjectId w = Some (r, w') /\
    projects_of w' = Some ps' /\
    acyclic_parents ps'.
Proof.
  intros Hps Hacyc Hlen.
  assert (Hrun : is_Some (dropProjectCenter fuel ps project droppedProjectId w)).
  { unfold dropProjectCenter. destruct (_ && _); [|by eexists].
    unfold bind, lift.
    destruct (isDescendant_terminates ps droppedProjectId (proj_id project) fuel
                Hacyc Hlen) as [b ->].
    destruct b; [by eexists|].
    rewrite (readProjects_run _ _ Hps).
    destruct (find_project droppedProjectId ps); [|by eexists].
    rewrite writeProjects_run. by eexists. }
  destruct Hrun as [[r w'] Hrun].
  destruct (drop_center_keeps_parents_acyclic fuel w ps project
              droppedProjectId r w' Hps Hacyc Hrun) as (ps' & Hps' & Hacyc').
  by exists r, w', ps'.
Qed.

Lemma drop_center_returns_acyclic_witness :
  exists r w' ps',
    dropProjectCenter 4 nested_projects
      (mkProject "root" "Root" "R" "#fff" None ["child"] ["chat1"] false None)
      "grand" nested_world = Some (r, w') /\
    projects_of w' = Some ps' /\
    acyclic_parents ps'.
Proof.
  apply (drop_center_returns_acyclic nested_world nested_projects).
  - reflexivity.
  - exact nested_parents_acyclic.
  - cbn. lia.
Defined.

(** ** Chat ids read from paths and from dragged text *)

Lemma take_id_chars s : all_id_chars (take_id s) = true.
Proof.
  induction s as [|a s IH]; [done|]. cbn [take_id].
  destruct (is_id_char a) eqn:Ha; [|done]. cbn [all_id_chars]. by rewrite Ha.
Qed.

Lemma take_id_all cid : all_id_chars cid = true -> take_id cid = cid.
Proof.
  induction cid as [|a s IH]; [done|]. cbn [all_id_chars take_id].
  intros [Ha Hs]%andb_true_iff. rewrite Ha. f_equal. by apply IH.
Qed.

Lemma capture_id_chars s cid :
  capture_id s = Some cid -> cid <> "" /\ all_id_chars cid = true.
Proof.
  unfold capture_id. destruct (String.eqb_spec (take_id s) "") as [|Hne]; [done|].
  intros [= <-]. split; [done|apply take_id_chars].
Qed.

Lemma capture_id_all cid :
  cid <> "" -> all_id_chars cid = true -> capture_id cid = Some cid.
Proof.
  intros Hne Hall. unfold capture_id. rewrite (take_id_all _ Hall).
  by destruct (String.eqb_spec cid "").
Qed.

Lemma match_app_id_chars h cid :
  match_app_id h = Some cid -> cid <> "" /\ all_id_chars cid = true.
Proof.
  unfold match_app_id. destruct (strip_prefix "/app/" h) as [rest|]; [|done].
  apply capture_id_chars.
Qed.

Lemma legacy_at_chars s cid :
  legacy_at s = Some cid -> cid <> "" /\ all_id_chars cid = true.
Proof.
  unfold legacy_at.
  destruct (strip_prefix "/chat/" s) as [rest|].
  - destruct (capture_id rest) as [c|] eqn:Hc.
    + intros [= <-]. by apply (capture_id_chars rest).
    + destruct (strip_prefix "/c/" s) as [rest'|]; [|done].
      apply capture_id_chars.
  - destruct (strip_prefix "/c/" s) as [rest'|]; [|done].
    apply capture_id_chars.
Qed.

Lemma search_chars at_start s cid :
  (forall s' c, at_start s' = Some c -> c <> "" /\ all_id_chars c = true) ->
  search at_start s = Some cid -> cid <> "" /\ all_id_chars cid = true.
Proof.
  intros Hat. induction s as [|a s IH]; cbn [search].
  - destruct (at_start "") as [c|] eqn:Hc; [|done].
    intros [= <-]. by apply (Hat "").
  - destruct (at_start (String a s)) as [c|] eqn:Hc; [|exact IH].
    intros [= <-]. by apply (Hat (String a s)).
Qed.

(** X20: the chat id [gpmGetCurrentChatId] reads from a path is never
    empty and holds only characters of [[a-zA-Z0-9_-]]. *)
Theorem gpmGetCurrentChatId_chars (path cid : string) :
  gpmGetCurrentChatId path = Some cid ->
  cid <> "" /\ all_id_chars cid = true.
Proof.
  unfold gpmGetCurrentChatId.
  destruct (match_app_id path) as [c|] eqn:Hc.
  - intros [= <-]. by apply (match_app_id_chars path).
  - apply search_chars. apply legacy_at_chars.
Qed.

Lemma gpmGetCurrentChatId_chars_witness :
  "abc_01" <> "" /\ all_id_chars "abc_01" = true.
Proof.
  apply (gpmGetCurrentChatId_chars "/u/0/c/abc_01/" "abc_01"). reflexivity.
Defined.

Lemma strip_prefix_app pre s : strip_prefix pre (pre ++ s)%string = Some s.
Proof.
  induction pre as [|a pre IH]; [done|].
  change (String a pre ++ s)%string with (String a (pre ++ s)%string).
  cbn [strip_prefix]. by rewrite Ascii.eqb_refl.
Qed.

Lemma search_here at_start s cid :
  at_start s = Some cid -> search at_start s = Some cid.
Proof. intros Hat. destruct s; cbn [search]; by rewrite Hat. Qed.

(** X21: on the path [gpmNavigateToChat] navigates to, [/app/] followed by
    a chat id, [gpmGetCurrentChatId] gives back that id, and so it does on
    the legacy paths [/chat/] and [/c/] followed by the id; the id is not
    empty and of characters of [[a-zA-Z0-9_-]]. *)
Theorem gpmGetCurrentChatId_of_chat_path (cid : string) :
  cid <> "" ->
  all_id_chars cid = true ->
  gpmGetCurrentChatId ("/app/" ++ cid)%string = Some cid /\
  gpmGetCurrentChatId ("/chat/" ++ cid)%string = Some cid /\
  gpmGetCurrentChatId ("/c/" ++ cid)%string = Some cid.
Proof.
  intros Hne Hall.
  pose proof (capture_id_all cid Hne Hall) as Hcap.
  split; [|split].
  - unfold gpmGetCurrentChatId, match_app_id.
    rewrite strip_prefix_app. fold (capture_id cid). by rewrite Hcap.
  - unfold gpmGetCurrentChatId.
    change (match_app_id ("/chat/" ++ cid)%string) with (@None string).
    apply search_here. unfold legacy_at.
    by rewrite strip_prefix_app, Hcap.
  - unfold gpmGetCurrentChatId.
    change (match_app_id ("/c/" ++ cid)%string) with (@None string).
    apply search_here. unfold legacy_at.
    change (strip_prefix "/chat/" ("/c/" ++ cid)%string) with (@None string).
    by rewrite strip_prefix_app, Hcap.
Qed.

Lemma gpmGetCurrentChatId_of_chat_path_witness :
  gpmGetCurrentChatId ("/app/" ++ "a1b2c3")%string = Some "a1b2c3" /\
  gpmGetCurrentChatId ("/chat/" ++ "a1b2c3")%string = Some "a1b2c3" /\
  gpmGetCurrentChatId ("/c/" ++ "a1b2c3")%string = Some "a1b2c3".
Proof.
  apply (gpmGetCurrentChatId_of_chat_path "a1b2c3"); [discriminate|reflexivity].
Defined.

(** A character of an id starts no white space, in one byte or more. *)
Lemma id_char_no_space a :
  is_id_char a = true ->
  is_space a = false /\
  (forall b, is_space2 a b = false) /\
  (forall b c, is_space3 a b c = false).
Proof.
  destruct a as [b0 b1 b2 b3 b4 b5 b6 b7].
  destruct b0, b1, b2, b3, b4, b5, b6, b7; vm_compute;
    first [discriminate | by intros _].
Qed.

Lemma trim_start_keep a s :
  is_space a = false ->
  (forall b, is_space2 a b = false) ->
  (forall b c, is_space3 a b c = false) ->
  trim_start (String a s) = String a s.
Proof.
  intros H1 H2 H3. destruct s as [|b [|c s3]]; cbn [trim_start];
    rewrite ?H1, ?H2, ?H3; done.
Qed.

Lemma trim_end_keep a s :
  is_space a = false ->
  (forall b, is_space2 a b = false) ->
  (forall b c, is_space3 a b c = false) ->
  trim_end (String a s) = String a (trim_end s).
Proof.
  intros H1 H2 H3. destruct s as [|b [|c s3]]; cbn [trim_end];
    rewrite ?H1, ?H2, ?H3; done.
Qed.

Lemma trim_id cid : all_id_chars cid = true -> trim cid = cid.
Proof.
  intros Hall. unfold trim.
  assert (Hstart : trim_start cid = cid).
  { destruct cid as [|a s]; [done|]. cbn [all_id_chars] in Hall.
    apply andb_true_iff in Hall as [Ha _].
    destruct (id_char_no_space a Ha) as (H1 & H2 & H3).
    by apply trim_start_keep. }
  rewrite Hstart. clear Hstart.
  induction cid as [|a s IH]; [done|]. cbn [all_id_chars] in Hall.
  apply andb_true_iff in Hall as [Ha Hs].
  destruct (id_char_no_space a Ha) as (H1 & H2 & H3).
  rewrite trim_end_keep by done. f_equal. by apply IH.
Qed.

Lemma inherited_proto c : inherited c = false -> c <> "__proto__".
Proof. intros Hc ->. discriminate Hc. Qed.

Lemma truthy_str_ne s : s <> "" -> truthy_str s = true.
Proof.
  intros Hne. unfold truthy_str. by destruct (String.eqb_spec s "").
Qed.

(** X22: a link to a chat dragged from the Gemini page, read from
    [text/plain] or, failing that, from [text/uri-list], is assigned under
    the id in its path, provided the id does not start with [http]. *)
Theorem dropped_link_assigns_chat
    (w : World) (projectId cid other : string) :
  cid <> "" ->
  all_id_chars cid = true ->
  startsWith "http" cid = false ->
  let url := ("https://gemini.google.com/app/" ++ cid)%string in
  dropChatOnProject projectId (mkDrag "" "" url other) w
    = assignChat cid projectId w /\
  dropChatOnProject projectId (mkDrag "" "" "" url) w
    = assignChat cid projectId w.
Proof.
  intros Hne Hall Hhttp url.
  assert (Hfound : search match_app_id url = Some cid).
  { change (search match_app_id url)
      with (search match_app_id ("/app/" ++ cid)%string).
    apply search_here. unfold match_app_id. rewrite strip_prefix_app.
    by apply capture_id_all. }
  assert (Hurl : truthy_str url = true) by done.
  assert (Hrun : forall d, dragged_chat_id d = cid ->
            gpm_chat_title d = "" ->
            dropChatOnProject projectId d w = assignChat cid projectId w).
  { intros d Hd Ht. unfold dropChatOnProject. rewrite Hd, Ht.
    rewrite (trim_id _ Hall), (truthy_str_ne _ Hne), Hhttp.
    cbn [andb negb truthy_str String.eqb]. unfold bind.
    destruct (assignChat cid projectId w) as [[[] w']|]; reflexivity. }
  split; apply Hrun; try done.
  - unfold dragged_chat_id. cbn [gpm_chat_id text_plain text_uri_list].
    change (truthy_str "") with false. cbn iota.
    rewrite Hurl, Hfound. by rewrite (truthy_str_ne _ Hne).
  - unfold dragged_chat_id. cbn [gpm_chat_id text_plain text_uri_list].
    change (truthy_str "") with false. cbn iota.
    by rewrite Hurl, Hfound.
Qed.

Lemma dropped_link_assigns_chat_witness :
  let url := ("https://gemini.google.com/app/" ++ "chat9")%string in
  dropChatOnProject "p1" (mkDrag "" "" url "") sample_world
    = assignChat "chat9" "p1" sample_world /\
  dropChatOnProject "p1" (mkDrag "" "" "" url) sample_world
    = assignChat "chat9" "p1" sample_world.
Proof.
  apply (dropped_link_assigns_chat sample_world "p1" "chat9" "");
    [discriminate|reflexivity|reflexivity].
Defined.

(** X23: a chat of the sidebar dragged onto a project row: the id is the
    one [gpmEnhanceNativeChatItems] read from the link and put on the drag,
    with whatever title it put there, and the id is not an inherited name.
    On a consistent store, for a stored project, the drop returns and
    leaves a consistent store in which the chat is mapped to the project,
    keeps its pin and a non-empty alias it had, and otherwise takes the
    title as alias; no other mapping changes. *)
Theorem dropped_sidebar_chat_assigned
    (w : World) (ps : list Project) (cm : gmap string ChatMapping)
    (projectId : string) (q : Project) (link : Link) (cid title : string) :
  projects_of w = Some ps ->
  chatMap_of w = Some cm ->
  chat_invariant ps cm ->
  no_stray_chats ps cm ->
  find_project projectId ps = Some q ->
  match_app_id (href link) = Some cid ->
  inherited cid = false ->
  startsWith "http" cid = false ->
  let old_alias := from_option map_alias "" (cm !! cid) in
  exists w' cm',
    dropChatOnProject projectId (mkDrag cid title cid "") w = Some (tt, w') /\
    chatMap_of w' = Some cm' /\
    cm' !! cid =
      Some (mkMapping projectId
              (if String.eqb old_alias "" then title else old_alias)
              (from_option map_pinned false (cm !! cid))) /\
    (forall c, c <> cid -> cm' !! c = cm !! c) /\
    consistent w'.
Proof.
  intros Hps Hcm Hinv Hstray Hq Hcid Hown Hhttp old_alias.
  pose proof (inherited_proto _ Hown) as Hproto.
  destruct (match_app_id_chars _ _ Hcid) as [Hne Hall].
  destruct (assignChat_consistent cid projectId ps cm q Hproto Hinv Hstray Hq)
    as [Hinv1 Hstray1].
  set (ps1 := assignChat_projects cid projectId ps cm) in *.
  set (cm1 := assignChat_chatMap cid projectId cm) in *.
  set (w1 := put "gpm_chatMap" (of_chatMap cm1)
               (put "gpm_projects" (of_projects ps1) w)).
  destruct (views_after_writes ps1 cm1 w) as [Hps1 Hcm1]. fold w1 in Hps1, Hcm1.
  assert (Hm1 : cm1 !! cid =
            Some (mkMapping projectId old_alias
                    (from_option map_pinned false (cm !! cid)))).
  { unfold cm1. rewrite assignChat_chatMap_insert by done.
    by rewrite lookup_insert_eq. }
  assert (Hother1 : forall c, c <> cid -> cm1 !! c = cm !! c).
  { intros c Hc. unfold cm1. rewrite assignChat_chatMap_insert by done.
    by rewrite lookup_insert_ne. }
  assert (Hdrag : dragged_chat_id (mkDrag cid title cid "") = cid).
  { unfold dragged_chat_id. cbn [gpm_chat_id]. cbv zeta.
    rewrite (truthy_str_ne _ Hne). cbn iota.
    by rewrite (truthy_str_ne _ Hne). }
  unfold dropChatOnProject. rewrite Hdrag. cbn [gpm_chat_title].
  rewrite (trim_id _ Hall), (truthy_str_ne _ Hne), Hhttp. cbn [andb negb].
  unfold bind at 1. rewrite (assignChat_run w ps cm Hps Hcm). fold ps1 cm1 w1.
  destruct (String.eqb_spec title "") as [Htitle|Htitle].
  - exists w1, cm1. rewrite Htitle. change (truthy_str "") with false.
    cbn iota. split; [reflexivity|]. split; [done|].
    split; [|split; [done|by apply (consistent_intro w1 ps1 cm1)]].
    rewrite Hm1. by destruct (String.eqb_spec old_alias "") as [->|].
  - rewrite (truthy_str_ne _ Htitle). unfold bind.
    rewrite (readChatMap_run _ _ Hcm1), Hm1. cbn [from_option map_alias].
    destruct (String.eqb_spec old_alias "") as [Hold|Hold].
    + rewrite Hold. change (truthy_str "") with false. cbn iota.
      rewrite (setChatAlias_run w1 cm1 Hcm1), Hm1.
      cbn [map_projectId map_pinned].
      eexists. eexists. split; [reflexivity|].
      split; [apply chatMap_of_put_chatMap|].
      split; [by rewrite lookup_insert_eq|].
      split; [intros c Hc; rewrite lookup_insert_ne by done; by apply Hother1|].
      apply (consistent_put_chatMap w1 ps1); [done|].
      by apply (remap_consistent cid _ _ ps1 cm1 Hinv1 Hstray1 Hm1).
    + rewrite (truthy_str_ne _ Hold).
      exists w1, cm1. split; [reflexivity|]. split; [done|].
      split; [done|]. split; [done|by apply (consistent_intro w1 ps1 cm1)].
Qed.

Lemma dropped_sidebar_chat_assigned_witness :
  let old_alias := from_option map_alias "" (sample_chatMap !! "chat9") in
  exists w' cm',
    dropChatOnProject "p1" (mkDrag "chat9" "Trip plan" "chat9" "") sample_world
      = Some (tt, w') /\
    chatMap_of w' = Some cm' /\
    cm' !! "chat9" =
      Some (mkMapping "p1"
              (if String.eqb old_alias "" then "Trip plan" else old_alias)
              (from_option map_pinned false (sample_chatMap !! "chat9"))) /\
    (forall c, c <> "chat9" -> cm' !! c = sample_chatMap !! c) /\
    consistent w'.
Proof.
  destruct sample_world_views as [Hps Hcm].
  destruct sample_world_consistent as (ps & cm & Hps' & Hcm' & Hinv & Hstray).
  rewrite Hps in Hps'. injection Hps' as <-.
  rewrite Hcm in Hcm'. injection Hcm' as <-.
  apply (dropped_sidebar_chat_assigned sample_world sample_projects
           sample_chatMap "p1" research (mkLink "/app/chat9" " Trip plan ")
           "chat9" "Trip plan" Hps Hcm Hinv Hstray);
    reflexivity.
Defined.

(** ** Reordering chats by drag and drop *)

Lemma indexOf_absent x l : x ∉ l -> indexOf x l = -1.
Proof.
  induction l as [|y l IH]; [done|]. intros Hx. cbn [indexOf].
  apply not_elem_of_cons in Hx as [Hne Hx].
  destruct (String.eqb_spec y x) as [->|_]; [done|].
  by rewrite (IH Hx).
Qed.

Lemma indexOf_first x l1 l2 :
  x ∉ l1 -> indexOf x (l1 ++ x :: l2) = Z.of_nat (length l1).
Proof.
  induction l1 as [|y l1 IH]; intros Hx.
  - cbn [app indexOf length]. by rewrite String.eqb_refl.
  - apply not_elem_of_cons in Hx as [Hne Hx].
    cbn [app indexOf length]. rewrite (IH Hx).
    destruct (String.eqb_spec y x) as [->|_]; [done|].
    destruct (Z.ltb_spec (Z.of_nat (length l1)) 0); lia.
Qed.

Lemma elem_of_first_split (x : string) l :
  x ∈ l -> exists l1 l2, l = l1 ++ x :: l2 /\ x ∉ l1.
Proof.
  induction l as [|y l IH]; [by intros ?%elem_of_nil|].
  destruct (decide (y = x)) as [->|Hne].
  - intros _. exists [], l. split; [done|apply not_elem_of_nil].
  - intros [->|Hx]%elem_of_cons; [done|].
    destruct (IH Hx) as (l1 & l2 & -> & Hout).
    exists (y :: l1), l2. split; [done|].
    apply not_elem_of_cons. split; [by intros ->|done].
Qed.

Lemma splice_start_length {A} (l1 l2 : list A) :
  splice_start (Z.of_nat (length l1)) (length (l1 ++ l2)) = length l1.
Proof.
  unfold splice_start. rewrite length_app.
  destruct (Z.ltb_spec (Z.of_nat (length l1)) 0); lia.
Qed.

Lemma splice_remove_at {A} (l1 : list A) x l2 :
  splice_remove (Z.of_nat (length l1)) (l1 ++ x :: l2) = l1 ++ l2.
Proof.
  unfold splice_remove. rewrite splice_start_length.
  rewrite take_app_length. f_equal.
  rewrite drop_app_ge by lia.
  by replace (S (length l1) - length l1)%nat with 1%nat by lia.
Qed.

Lemma splice_insert_at {A} (l1 : list A) x l2 :
  splice_insert (Z.of_nat (length l1)) x (l1 ++ l2) = l1 ++ x :: l2.
Proof.
  unfold splice_insert. rewrite splice_start_length.
  by rewrite take_app_length, drop_app_length.
Qed.

(** X24: a chat dropped on the row of another chat of the same project.
    With both chats listed by the stored project, the handler returns and
    saves the project with the dropped chat taken from its place and put
    directly before the target chat in the [top] zone and directly after it
    otherwise; the other chats keep their order, the chat map is not
    written, and a consistent store stays consistent. *)
Theorem chat_reorder_moves_next_to_target
    (w : World) (ps : list Project) (projectId : string) (q : Project)
    (chatId droppedChatId : string) (zone : Zone) :
  projects_of w = Some ps ->
  find_project projectId ps = Some q ->
  droppedChatId <> "" ->
  droppedChatId <> chatId ->
  droppedChatId ∈ proj_chatIds q ->
  chatId ∈ proj_chatIds q ->
  exists w' a b l1 l2 ids',
    dropChatOnChat projectId chatId zone droppedChatId w = Some (tt, w') /\
    projects_of w' = Some (modify_first projectId (set_chatIds ids') ps) /\
    storage w' !! "gpm_chatMap" = storage w !! "gpm_chatMap" /\
    proj_chatIds q = a ++ droppedChatId :: b /\
    (droppedChatId ∉ a) /\
    a ++ b = l1 ++ chatId :: l2 /\
    (chatId ∉ l1) /\
    ids' = l1 ++ match zone with
                 | top => droppedChatId :: chatId :: l2
                 | _ => chatId :: droppedChatId :: l2
                 end /\
    (consistent w -> consistent w').
Proof.
  intros Hps Hq Hne Hdiff Hdropped Htarget.
  destruct (elem_of_first_split _ _ Hdropped) as (a & b & Hab & Ha).
  assert (Hrest : chatId ∈ a ++ b).
  { rewrite Hab in Htarget. apply elem_of_app in Htarget as [?|Hin];
      [apply elem_of_app; by left|].
    apply elem_of_cons in Hin as [->|?]; [done|apply elem_of_app; by right]. }
  destruct (elem_of_first_split _ _ Hrest) as (l1 & l2 & Hl & Hl1).
  set (ids' := l1 ++ match zone with
                     | top => droppedChatId :: chatId :: l2
                     | _ => chatId :: droppedChatId :: l2
                     end).
  assert (Hrun : dropChatOnChat projectId chatId zone droppedChatId w =
            Some (tt, put "gpm_projects"
                        (of_projects (modify_first projectId (set_chatIds ids') ps)) w)).
  { unfold dropChatOnChat. rewrite (truthy_str_ne _ Hne). cbn [negb orb].
    destruct (String.eqb_spec droppedChatId chatId) as [|_]; [done|].
    unfold bind. rewrite (readProjects_run _ _ Hps), Hq.
    rewrite Hab, (indexOf_first _ _ _ Ha).
    destruct (Z.eqb_spec (Z.of_nat (length a)) (-1)) as [|_]; [lia|].
    rewrite splice_remove_at, Hl, (indexOf_first _ _ _ Hl1).
    rewrite writeProjects_run. unfold ids'.
    assert (Hafter : splice_insert (Z.of_nat (length l1) + 1) droppedChatId
                       (l1 ++ chatId :: l2)
                     = l1 ++ chatId :: droppedChatId :: l2).
    { replace (Z.of_nat (length l1) + 1)
        with (Z.of_nat (length (l1 ++ [chatId])))
        by (rewrite length_app; cbn; lia).
      replace (l1 ++ chatId :: l2) with ((l1 ++ [chatId]) ++ l2)
        by (by rewrite <- app_assoc).
      rewrite splice_insert_at. by rewrite <- app_assoc. }
    destruct zone; by rewrite ?splice_insert_at, ?Hafter. }
  eexists. exists a, b, l1, l2, ids'.
  split; [exact Hrun|].
  split; [apply projects_of_put_projects|].
  split; [cbn; by rewrite lookup_insert_ne|].
  split; [done|]. split; [done|]. split; [done|]. split; [done|].
  split; [done|].
  intros (ps0 & cm & Hps0 & Hcm & Hinv & Hstray).
  rewrite Hps in Hps0. injection Hps0 as <-.
  apply (consistent_put_projects w _ cm Hcm).
  apply (consistent_agree ps); [|done|done].
  intros c.
  destruct (find_project_split _ _ _ Hq) as (p1 & p2 & -> & Hp1 & Hid).
  rewrite (modify_first_split _ _ _ _ _ Hp1 Hid).
  apply Forall2_app; [apply agree_refl_list|].
  constructor; [|apply agree_refl_list].
  split; [done|]. unfold set_chatIds. cbn [proj_chatIds].
  unfold occurrences.
  assert (Hperm : ids' ≡ₚ proj_chatIds q).
  { rewrite Hab. unfold ids'. transitivity (droppedChatId :: (a ++ b)).
    - rewrite Hl. destruct zone.
      + by rewrite <- Permutation_middle.
      + rewrite <- Permutation_middle. rewrite <- Permutation_middle.
        rewrite <- Permutation_middle. apply perm_swap.
      + rewrite <- Permutation_middle. rewrite <- Permutation_middle.
        rewrite <- Permutation_middle. apply perm_swap.
    - apply Permutation_middle. }
  by rewrite Hperm.
Qed.

Lemma chat_reorder_moves_next_to_target_witness :
  let q := mkProject "p1" "Trips" "T" "#fff" None [] ["a"; "b"; "c"] false None in
  let w := put "gpm_projects" (of_projects [q]) empty_world in
  exists w' a b l1 l2 ids',
    dropChatOnChat "p1" "a" top "c" w = Some (tt, w') /\
    projects_of w' = Some (modify_first "p1" (set_chatIds ids') [q]) /\
    storage w' !! "gpm_chatMap" = storage w !! "gpm_chatMap" /\
    proj_chatIds q = a ++ "c" :: b /\
    ("c" ∉ a) /\
    a ++ b = l1 ++ "a" :: l2 /\
    ("a" ∉ l1) /\
    ids' = l1 ++ "c" :: "a" :: l2 /\
    (consistent w -> consistent w').
Proof.
  intros q w.
  apply (chat_reorder_moves_next_to_target w [q] "p1" q "a" "c" top).
  - apply projects_of_put_projects.
  - reflexivity.
  - discriminate.
  - discriminate.
  - cbn. apply list_elem_of_further, list_elem_of_further, list_elem_of_here.
  - cbn. apply list_elem_of_here.
Defined.

(** ** The order of the chat rows *)

Lemma insert_by_pinned cm x l :
  pin_rank cm x = 1 ->
  insert_by (fun a b => pin_rank cm b - pin_rank cm a) x l = x :: l.
Proof.
  intros Hx. destruct l as [|y l]; [done|]. cbn [insert_by]. rewrite Hx.
  assert (Hy : pin_rank cm y = 0 \/ pin_rank cm y = 1)
    by (unfold pin_rank; destruct (from_option _ _ _); auto).
  destruct (Z.leb_spec (pin_rank cm y - 1) 0); [done|lia].
Qed.

Lemma insert_by_unpinned cm x l1 l2 :
  pin_rank cm x = 0 ->
  Forall (fun y => pin_rank cm y = 1) l1 ->
  Forall (fun y => pin_rank cm y = 0) l2 ->
  insert_by (fun a b => pin_rank cm b - pin_rank cm a) x (l1 ++ l2)
  = l1 ++ x :: l2.
Proof.
  intros Hx H1 H2. induction H1 as [|y l1 Hy _ IH].
  - destruct H2 as [|y l2 Hy _]; [done|]. cbn [app insert_by].
    rewrite Hx, Hy. done.
  - cbn [app insert_by]. rewrite Hx, Hy. cbn. by rewrite IH.
Qed.

(** X25: the chat rows of a project show the pinned chats first and then
    the others, each group in the order the project lists its chats. *)
Theorem pinned_chats_come_first
    (chatMap : gmap string ChatMapping) (chatIds : list string) :
  sorted_chats chatMap chatIds =
    filter (fun c => pin_rank chatMap c = 1) chatIds ++
    filter (fun c => pin_rank chatMap c = 0) chatIds.
Proof.
  unfold sorted_chats, js_sort.
  induction chatIds as [|x l IH]; [done|]. cbn [foldr]. rewrite IH.
  assert (Hx : pin_rank chatMap x = 0 \/ pin_rank chatMap x = 1)
    by (unfold pin_rank; destruct (from_option _ _ _); auto).
  destruct Hx as [Hx|Hx].
  - rewrite (filter_cons_False (fun c => pin_rank chatMap c = 1))
      by (rewrite Hx; lia).
    rewrite (filter_cons_True (fun c => pin_rank chatMap c = 0)) by done.
    apply insert_by_unpinned; [done| |];
      apply Forall_forall; by intros y [? _]%list_elem_of_filter.
  - rewrite (filter_cons_True (fun c => pin_rank chatMap c = 1)) by done.
    rewrite (filter_cons_False (fun c => pin_rank chatMap c = 0))
      by (rewrite Hx; lia).
    by apply insert_by_pinned.
Qed.

(** ** A project dropped on the edge of a row: among siblings *)

Lemma without_without x l : without x (without x l) = without x l.
Proof.
  apply without_not_elem. intros Hin. by apply without_elem in Hin as [_ ?].
Qed.

Lemma isDescendant_not_above ps P Q fuel :
  acyclic_parents ps -> (length ps < fuel)%nat -> P <> "" ->
  ~ ancestor ps Q P ->
  isDescendant fuel ps P Q = Some false.
Proof.
  intros Hacyc Hlen HP Hnot.
  destruct (isDescendant_terminates ps P Q fuel Hacyc Hlen) as [b Hb].
  rewrite Hb. f_equal. destruct b; [|done].
  exfalso. apply Hnot. by apply (isDescendant_spec ps P HP fuel Q true Hb).
Qed.

(** X26: a project dropped on the [top] or [bottom] edge of the row of a
    project that has a parent.  With rows rendered from the stored projects,
    whose parents form no cycle, and a dropped project that is not above the
    row's project, the handler returns and saves: the dropped project with
    the parent of the row's project as [parentId]; that parent with the
    dropped id directly before the row's project in [children] ([top]) or
    directly after it (otherwise), its other children in their order; the
    former parent of the dropped project without the dropped id; every
    other project unchanged. *)
Theorem edge_drop_among_siblings
    (w : World) (ps : list Project) (project droppedProject parent : Project)
    (parentId droppedProjectId : string) (zone : Zone) (fuel : nat) :
  projects_of w = Some ps ->
  acyclic_parents ps ->
  (length ps < fuel)%nat ->
  find_project (proj_id project) ps = Some project ->
  proj_parentId project = Some parentId ->
  parentId <> "" ->
  find_project parentId ps = Some parent ->
  proj_id project ∈ proj_children parent ->
  find_project droppedProjectId ps = Some droppedProject ->
  droppedProjectId <> "" ->
  droppedProjectId <> proj_id project ->
  ~ ancestor ps (proj_id project) droppedProjectId ->
  exists w' ps' c1 c2,
    dropProjectEdge fuel ps project zone droppedProjectId w = Some (tt, w') /\
    projects_of w' = Some ps' /\
    without droppedProjectId (proj_children parent)
      = c1 ++ proj_id project :: c2 /\
    (proj_id project ∉ c1) /\
    find_project droppedProjectId ps'
      = Some (set_parentId (Some parentId) droppedProject) /\
    find_project parentId ps'
      = Some (set_children
                (c1 ++ match zone with
                       | top => droppedProjectId :: proj_id project :: c2
                       | _ => proj_id project :: droppedProjectId :: c2
                       end) parent) /\
    (forall x, x <> droppedProjectId -> x <> parentId ->
       find_project x ps' =
         (if decide (proj_parentId droppedProject = Some x /\ x <> "")
          then drop_child droppedProjectId else id) <$> find_project x ps).
Proof.
  intros Hps Hacyc Hlen Ht Hpar HP Hparent Hchild Hd Hdne Hdiff Hnot.
  assert (HdP : droppedProjectId <> parentId).
  { intros ->. apply Hnot. apply ancestor_parent. by exists project. }
  assert (Hself : proj_parentId droppedProject <> Some droppedProjectId).
  { intros E. apply (Hacyc droppedProjectId). apply ancestor_parent.
    by exists droppedProject. }
  assert (Hin : proj_id project ∈ without droppedProjectId (proj_children parent)).
  { apply without_elem. split; [done|]. by intros E. }
  destruct (elem_of_first_split _ _ Hin) as (c1 & c2 & Hc & Hc1).
  set (ps0 := if truthy_id (proj_parentId droppedProject)
              then modify_first (default "" (proj_parentId droppedProject))
                                (drop_child droppedProjectId) ps
              else ps).
  set (ps1 := modify_first droppedProjectId (set_parentId (Some parentId)) ps0).
  set (ps2 := modify_first parentId
                (place_child (proj_id project) droppedProjectId zone) ps1).
  assert (Htruthy : truthy_id (Some parentId) = true).
  { cbn. apply negb_true_iff. by apply String.eqb_neq. }
  assert (Hrun : dropProjectEdge fuel ps project zone droppedProjectId w
                 = Some (tt, put "gpm_projects" (of_projects ps2) w)).
  { unfold dropProjectEdge.
    destruct (String.eqb_spec droppedProjectId "") as [|_]; [done|].
    destruct (String.eqb_spec droppedProjectId (proj_id project)) as [|_]; [done|].
    cbn [negb andb]. unfold bind, lift.
    rewrite (isDescendant_not_above ps _ _ fuel Hacyc Hlen Hdne Hnot).
    rewrite (readProjects_run _ _ Hps), Hd, Hpar, Htruthy.
    cbn iota. rewrite Htruthy.
    change (default "" (Some parentId)) with parentId.
    by rewrite writeProjects_run. }
  assert (Hfind0 : forall x,
            find_project x ps0 =
              (if decide (proj_parentId droppedProject = Some x /\ x <> "")
               then drop_child droppedProjectId else id) <$> find_project x ps).
  { intros x. unfold ps0.
    destruct (proj_parentId droppedProject) as [old|] eqn:Hold.
    - destruct (truthy_id (Some old)) eqn:Hto.
      + change (default "" (Some old)) with old.
        rewrite find_modify_first by done.
        assert (Hone : old <> "") by (intros ->; by cbn in Hto).
        destruct (decide (x = old)) as [->|Hne].
        * by rewrite decide_True.
        * rewrite decide_False; [by destruct (find_project x ps)|].
          intros [[= E] _]. by apply Hne.
      + assert (old = "") as ->.
        { cbn in Hto. by apply negb_false_iff, String.eqb_eq in Hto. }
        rewrite decide_False; [by destruct (find_project x ps)|].
        intros [[= <-] Hx]. by apply Hx.
    - cbn [truthy_id]. rewrite decide_False; [by destruct (find_project x ps)|].
      by intros [[=] _]. }
  exists (put "gpm_projects" (of_projects ps2) w), ps2, c1, c2.
  split; [exact Hrun|].
  split; [apply projects_of_put_projects|].
  split; [exact Hc|]. split; [exact Hc1|].
  assert (Hplace_id : forall p,
            proj_id (place_child (proj_id project) droppedProjectId zone p)
            = proj_id p) by done.
  assert (Hset_id : forall p,
            proj_id (set_parentId (Some parentId) p) = proj_id p) by done.
  split; [|split].
  - unfold ps2, ps1.
    rewrite (find_modify_first _ _ _ _ Hplace_id), decide_False by done.
    rewrite (find_modify_first _ _ _ _ Hset_id), decide_True by done.
    rewrite Hfind0, Hd. rewrite decide_False; [done|].
    by intros [E _].
  - unfold ps2, ps1.
    rewrite (find_modify_first _ _ _ _ Hplace_id), decide_True by done.
    rewrite (find_modify_first _ _ _ _ Hset_id), decide_False
      by (intros E; by apply HdP).
    rewrite Hfind0, Hparent.
    assert (Hchildren : forall p0,
              proj_children p0 = proj_children parent \/
              proj_children p0 = without droppedProjectId (proj_children parent) ->
              proj_children
                (place_child (proj_id project) droppedProjectId zone p0)
              = c1 ++ match zone with
                      | top => droppedProjectId :: proj_id project :: c2
                      | _ => proj_id project :: droppedProjectId :: c2
                      end).
    { intros p0 Hp0. unfold place_child. cbn [set_children proj_children].
      assert (Hw : without droppedProjectId (proj_children p0)
                   = c1 ++ proj_id project :: c2).
      { destruct Hp0 as [-> | ->]; [done|]. by rewrite without_without. }
      rewrite Hw, (indexOf_first _ _ _ Hc1).
      assert (Hafter : splice_insert (Z.of_nat (length c1) + 1)
                         droppedProjectId (c1 ++ proj_id project :: c2)
                       = c1 ++ proj_id project :: droppedProjectId :: c2).
      { replace (Z.of_nat (length c1) + 1)
          with (Z.of_nat (length (c1 ++ [proj_id project])))
          by (rewrite length_app; cbn; lia).
        replace (c1 ++ proj_id project :: c2)
          with ((c1 ++ [proj_id project]) ++ c2)
          by (by rewrite <- app_assoc).
        rewrite splice_insert_at. by rewrite <- app_assoc. }
      destruct zone.
      - rewrite Z.max_r by lia. apply splice_insert_at.
      - rewrite Z.max_r by lia. exact Hafter.
      - rewrite Z.max_r by lia. exact Hafter. }
    cbn [fmap option_fmap option_map]. f_equal.
    destruct (decide _) as [_|_].
    + specialize (Hchildren (drop_child droppedProjectId parent)
                    (or_intror eq_refl)).
      unfold place_child in *. cbn [set_children proj_children] in *.
      unfold set_children. cbn. f_equal. exact Hchildren.
    + specialize (Hchildren parent (or_introl eq_refl)).
      unfold place_child in *. cbn [set_children proj_children] in *.
      unfold set_children. cbn. f_equal. exact Hchildren.
  - intros x Hx1 Hx2. unfold ps2, ps1.
    rewrite (find_modify_first _ _ _ _ Hplace_id), decide_False by done.
    rewrite (find_modify_first _ _ _ _ Hset_id), decide_False by done.
    apply Hfind0.
Qed.

Lemma edge_drop_among_siblings_witness :
  let rootp := mkProject "root" "Root" "R" "#fff" None ["child"] ["chat1"] false None in
  let child := mkProject "child" "Child" "C" "#fff" (Some "root") ["grand"] ["chat2"] false None in
  let grand := mkProject "grand" "Grandchild" "G" "#fff" (Some "child") [] ["chat3"] false None in
  exists w' ps' c1 c2,
    dropProjectEdge 4 nested_projects child top "grand" nested_world
      = Some (tt, w') /\
    projects_of w' = Some ps' /\
    without "grand" (proj_children rootp) = c1 ++ proj_id child :: c2 /\
    (proj_id child ∉ c1) /\
    find_project "grand" ps' = Some (set_parentId (Some "root") grand) /\
    find_project "root" ps'
      = Some (set_children (c1 ++ "grand" :: proj_id child :: c2) rootp) /\
    (forall x, x <> "grand" -> x <> "root" ->
       find_project x ps' =
         (if decide (proj_parentId grand = Some x /\ x <> "")
          then drop_child "grand" else id) <$> find_project x nested_projects).
Proof.
  intros rootp child grand.
  apply (edge_drop_among_siblings nested_world nested_projects child grand
           rootp "root" "grand" top 4).
  - reflexivity.
  - exact nested_parents_acyclic.
  - cbn. lia.
  - reflexivity.
  - reflexivity.
  - discriminate.
  - reflexivity.
  - cbn. apply list_elem_of_here.
  - reflexivity.
  - discriminate.
  - discriminate.
  - intros Hanc. apply nested_ancestor_depth in Hanc. cbn in Hanc. lia.
Defined.

(** ** A project dropped on the edge of a row: among the roots *)

Lemma places_from_valid ps : forall n i,
  i ∈ places_from n ps -> (n <= i < n + length ps)%nat.
Proof.
  induction ps as [|p ps IH]; intros n i; [by intros ?%elem_of_nil|].
  cbn [places_from length].
  destruct (truthy_id (proj_parentId p)).
  - intros Hi%IH. lia.
  - intros [->|Hi%IH]%elem_of_cons; lia.
Qed.

Lemma places_from_ids ps : forall pre,
  ids_at (pre ++ ps) (places_from (length pre) ps)
  = proj_id <$> getRootProjects ps.
Proof.
  induction ps as [|p ps IH]; intros pre; [done|].
  cbn [places_from]. unfold getRootProjects in *.
  specialize (IH (pre ++ [p])).
  rewrite length_app, <- app_assoc in IH. cbn [length app] in IH.
  replace (length pre + 1)%nat with (S (length pre)) in IH by lia.
  destruct (truthy_id (proj_parentId p)) eqn:Hp.
  - rewrite filter_cons_False by (by rewrite Hp). exact IH.
  - rewrite filter_cons_True by done. unfold ids_at in *.
    rewrite !fmap_cons. f_equal; [|exact IH].
    by rewrite list_lookup_middle.
Qed.

Lemma root_places_ids ps :
  ids_at ps (root_places ps) = proj_id <$> getRootProjects ps.
Proof. apply (places_from_ids ps []). Qed.

Lemma root_places_valid ps i : i ∈ root_places ps -> (i < length ps)%nat.
Proof. intros Hi%places_from_valid. lia. Qed.

Lemma findIndex_indexOf ps x places :
  (forall i, i ∈ places -> (i < length ps)%nat) ->
  findIndex_id ps x places = indexOf x (ids_at ps places).
Proof.
  induction places as [|i places IH]; intros Hvalid; [done|].
  cbn [findIndex_id ids_at fmap list_fmap indexOf].
  destruct (lookup_lt_is_Some_2 ps i (Hvalid i (list_elem_of_here _ _)))
    as [p Hp].
  rewrite Hp. cbn [from_option]. unfold has_id.
  fold (ids_at ps places).
  rewrite IH by (intros j Hj; by apply Hvalid, list_elem_of_further).
  destruct (String.eqb_spec (proj_id p) x) as [E|E].
  - by rewrite bool_decide_eq_true_2.
  - by rewrite bool_decide_eq_false_2.
Qed.

Lemma fmap_splice_remove {A B} (f : A -> B) k (l : list A) :
  f <$> splice_remove k l = splice_remove k (f <$> l).
Proof.
  unfold splice_remove. by rewrite fmap_app, fmap_take, fmap_drop, length_fmap.
Qed.

Lemma fmap_splice_insert {A B} (f : A -> B) k x (l : list A) :
  f <$> splice_insert k x l = splice_insert k (f x) (f <$> l).
Proof.
  unfold splice_insert.
  by rewrite fmap_app, fmap_cons, fmap_take, fmap_drop, length_fmap.
Qed.

Lemma splice_insert_perm {A} k (x : A) l : splice_insert k x l ≡ₚ x :: l.
Proof.
  unfold splice_insert. rewrite <- Permutation_middle.
  by rewrite take_drop.
Qed.

Lemma number_from_outside places : forall k ps i,
  i ∉ places -> number_from k places ps !! i = ps !! i.
Proof.
  induction places as [|i0 places IH]; intros k ps i Hi; [done|].
  apply not_elem_of_cons in Hi as [Hne Hi]. cbn [number_from].
  rewrite IH by done. by apply list_lookup_alter_ne.
Qed.

Lemma number_from_inside places : forall k ps j i,
  NoDup places -> places !! j = Some i ->
  number_from k places ps !! i
  = set_order (Some (k + Z.of_nat j)) <$> ps !! i.
Proof.
  induction places as [|i0 places IH]; intros k ps j i Hnd Hj; [done|].
  apply NoDup_cons in Hnd as [Hfresh Hnd]. cbn [number_from].
  destruct j as [|j].
  - injection Hj as ->. rewrite number_from_outside by done.
    rewrite list_lookup_alter, decide_True by done.
    change (Z.of_nat 0) with 0. by rewrite Z.add_0_r.
  - cbn in Hj. rewrite (IH _ _ j i Hnd Hj).
    rewrite list_lookup_alter_ne.
    + do 3 f_equal. lia.
    + intros ->. apply Hfresh. by apply list_elem_of_lookup_2 in Hj.
Qed.

Lemma number_from_same places : forall k ps,
  Forall2 same_but_order ps (number_from k places ps).
Proof.
  induction places as [|i places IH]; intros k ps.
  - apply Forall_Forall2_diag, Forall_forall. by intros.
  - cbn [number_from].
    apply (Forall2_trans same_but_order same_but_order same_but_order
             ps (alter (set_order (Some k)) i ps)); [| |apply IH].
    + intros x y z Hxy Hyz. unfold same_but_order in *. congruence.
    + apply Forall2_same_length_lookup. split; [by rewrite length_alter|].
      intros j x y Hx Hy. destruct (decide (i = j)) as [->|Hne].
      * rewrite list_lookup_alter, decide_True, Hx in Hy by done.
        injection Hy as <-. done.
      * rewrite list_lookup_alter_ne, Hx in Hy by done. by injection Hy as <-.
Qed.

Lemma same_but_order_fields p q :
  same_but_order p q ->
  proj_id q = proj_id p /\ proj_parentId q = proj_parentId p /\
  proj_children q = proj_children p /\ proj_chatIds q = proj_chatIds p.
Proof.
  unfold same_but_order, set_order. intros [= ? ? ? ? ? ? ? ?]. done.
Qed.

Lemma same_ids ps ps' :
  Forall2 same_but_order ps ps' -> proj_id <$> ps' = proj_id <$> ps.
Proof.
  induction 1 as [|p q ps ps' Hpq _ IH]; [done|].
  rewrite !fmap_cons, IH. f_equal. by apply same_but_order_fields.
Qed.

Lemma same_root_ids ps ps' :
  Forall2 same_but_order ps ps' ->
  proj_id <$> getRootProjects ps' = proj_id <$> getRootProjects ps.
Proof.
  unfold getRootProjects.
  induction 1 as [|p q ps ps' Hpq _ IH]; [done|].
  destruct (same_but_order_fields _ _ Hpq) as (Hid & Hpar & _).
  rewrite !filter_cons, Hpar. destruct (decide _); [|exact IH].
  rewrite !fmap_cons, IH. by f_equal.
Qed.

Lemma position_of_Some x ps p :
  find_project x ps = Some p ->
  exists i, position_of x ps = Some i /\ ps !! i = Some p.
Proof.
  induction ps as [|q ps IH]; [done|].
  rewrite find_project_cons. cbn [position_of]. unfold has_id.
  destruct (decide (proj_id q = x)) as [E|E].
  - intros [= ->]. rewrite bool_decide_eq_true_2 by done. by exists 0%nat.
  - rewrite bool_decide_eq_false_2 by done. intros Hp.
    destruct (IH Hp) as (i & -> & Hi). by exists (S i).
Qed.

(** *** Sorting by a key *)

Lemma insert_by_perm {A} (cmp : A -> A -> Z) x l :
  insert_by cmp x l ≡ₚ x :: l.
Proof.
  induction l as [|y l IH]; [done|]. cbn [insert_by].
  destruct (cmp x y <=? 0); [done|]. rewrite IH. apply perm_swap.
Qed.

Lemma js_sort_perm {A} (cmp : A -> A -> Z) l : js_sort cmp l ≡ₚ l.
Proof.
  unfold js_sort. induction l as [|x l IH]; [done|]. cbn [foldr].
  by rewrite insert_by_perm, IH.
Qed.

Lemma insert_by_sorted {A} (key : A -> Z) x l :
  Sorted.StronglySorted (fun a b => key a <= key b) l ->
  Sorted.StronglySorted (fun a b => key a <= key b)
    (insert_by (fun a b => key a - key b) x l).
Proof.
  induction 1 as [|y l Hl IH Hy]; [repeat constructor|].
  cbn [insert_by]. destruct (Z.leb_spec (key x - key y) 0) as [Hle|Hgt].
  - constructor; [by constructor|].
    constructor; [lia|]. eapply Forall_impl; [exact Hy|].
    intros z Hz. cbn in Hz. lia.
  - constructor; [exact IH|].
    apply Forall_forall. intros z Hz.
    rewrite insert_by_perm in Hz. apply elem_of_cons in Hz as [->|Hz]; [lia|].
    by apply (proj1 (Forall_forall _ _) Hy).
Qed.

Lemma js_sort_sorted {A} (key : A -> Z) l :
  Sorted.StronglySorted (fun a b => key a <= key b)
    (js_sort (fun a b => key a - key b) l).
Proof.
  unfold js_sort. induction l as [|x l IH]; [constructor|]. cbn [foldr].
  by apply insert_by_sorted.
Qed.

Lemma numbered_sorted {A} (key : A -> Z) (l : list A) : forall s,
  (forall k x, l !! k = Some x -> key x = s + Z.of_nat k) ->
  Sorted.StronglySorted (fun a b => key a <= key b) l.
Proof.
  induction l as [|x l IH]; intros s Hkey; [constructor|].
  constructor.
  - apply (IH (s + 1)). intros k y Hy.
    rewrite (Hkey (S k) y Hy). lia.
  - apply Forall_forall. intros y Hy.
    apply list_elem_of_lookup in Hy as [k Hk].
    rewrite (Hkey 0%nat x eq_refl), (Hkey (S k) y Hk). lia.
Qed.

(** Sorting by key gives the list whose keys count up, when the two hold
    the same elements. *)
Lemma js_sort_numbered {A} (key : A -> Z) (l numbered : list A) :
  (forall k x, numbered !! k = Some x -> key x = Z.of_nat k) ->
  l ≡ₚ numbered ->
  js_sort (fun a b => key a - key b) l = numbered.
Proof.
  intros Hkey Hperm.
  apply (sorting.StronglySorted_unique_strong (fun a b => key a <= key b)).
  - intros x1 x2 Hx1 Hx2 H12 H21.
    rewrite js_sort_perm, Hperm in Hx1.
    apply list_elem_of_lookup in Hx1 as [k1 Hk1].
    apply list_elem_of_lookup in Hx2 as [k2 Hk2].
    pose proof (Hkey _ _ Hk1). pose proof (Hkey _ _ Hk2).
    assert (k1 = k2) as -> by lia. congruence.
  - apply js_sort_sorted.
  - apply (numbered_sorted key numbered 0). intros k x Hx.
    rewrite (Hkey k x Hx). lia.
  - by rewrite js_sort_perm.
Qed.

(** *** The renumbering of the roots *)

Lemma splice_remove_elem {A} k (l : list A) x :
  x ∈ splice_remove k l -> x ∈ l.
Proof.
  unfold splice_remove. intros [Hx|Hx]%elem_of_app.
  - by apply (subseteq_take _ _ _ Hx).
  - by apply (subseteq_drop _ _ _ Hx).
Qed.

Lemma modify_first_ids pid g ps :
  (forall p, proj_id (g p) = proj_id p) ->
  proj_id <$> modify_first pid g ps = proj_id <$> ps.
Proof.
  intros Hg. induction ps as [|p ps IH]; [done|].
  rewrite modify_first_cons. destruct (decide _).
  - by rewrite !fmap_cons, Hg.
  - by rewrite !fmap_cons, IH.
Qed.

Lemma root_ids_NoDup ps :
  NoDup (proj_id <$> ps) -> NoDup (proj_id <$> getRootProjects ps).
Proof.
  intros Hnd. apply (sublist_NoDup _ (proj_id <$> ps)); [done|].
  apply fmap_sublist, sublist_filter.
Qed.

Section Renumber.

Variables (ps1 : list Project) (projectId droppedProjectId : string).
Variable zone : Zone.
Variable d1 : Project.
Hypothesis Hnd : NoDup (proj_id <$> ps1).
Hypothesis Hd1 : find_project droppedProjectId ps1 = Some d1.
Hypothesis Hroot : truthy_id (proj_parentId d1) = false.

Let R1 := proj_id <$> getRootProjects ps1.
Let targetIdx := indexOf projectId R1.
Let N :=
  splice_insert
    (Z.max 0 (match zone with top => targetIdx | _ => targetIdx + 1 end))
    droppedProjectId (splice_remove (indexOf droppedProjectId R1) R1).
Let ps' := reorder_roots projectId droppedProjectId zone ps1.

Lemma renumber_dropped_root : droppedProjectId ∈ R1.
Proof.
  destruct (find_project_Some _ _ _ Hd1) as [Hid Hin].
  unfold R1. apply list_elem_of_fmap. exists d1. split; [done|].
  unfold getRootProjects. apply list_elem_of_filter. by split.
Qed.

Lemma renumber_perm : N ≡ₚ R1.
Proof.
  destruct (elem_of_first_split _ _ renumber_dropped_root)
    as (a & b & Hab & Ha).
  unfold N. rewrite splice_insert_perm.
  rewrite Hab, (indexOf_first _ _ _ Ha), splice_remove_at.
  apply Permutation_middle.
Qed.

Lemma renumber_places :
  exists places,
    ps' = number_from 0 places ps1 /\
    ids_at ps1 places = N /\
    NoDup places /\
    (forall i, i ∈ places -> (i < length ps1)%nat).
Proof.
  destruct (position_of_Some _ _ _ Hd1) as (dpos & Hpos & Hlook).
  assert (Hvalid : forall i, i ∈ root_places ps1 -> (i < length ps1)%nat)
    by apply root_places_valid.
  set (places :=
         splice_insert
           (Z.max 0 (match zone with
                     | top => findIndex_id ps1 projectId (root_places ps1)
                     | _ => findIndex_id ps1 projectId (root_places ps1) + 1
                     end))
           dpos
           (splice_remove (findIndex_id ps1 droppedProjectId (root_places ps1))
                          (root_places ps1))).
  exists places. split.
  { unfold ps', reorder_roots. rewrite Hpos. reflexivity. }
  assert (Hids : ids_at ps1 places = N).
  { unfold places, ids_at. rewrite fmap_splice_insert, fmap_splice_remove.
    fold (ids_at ps1 (root_places ps1)).
    rewrite !(findIndex_indexOf _ _ _ Hvalid), root_places_ids.
    rewrite Hlook. cbn [from_option].
    destruct (find_project_Some _ _ _ Hd1) as [-> _].
    unfold N, targetIdx, R1. by destruct zone. }
  split; [exact Hids|]. split.
  - apply (NoDup_fmap_1 (fun i => from_option proj_id "" (ps1 !! i))).
    change (NoDup (ids_at ps1 places)). rewrite Hids, renumber_perm.
    by apply root_ids_NoDup.
  - intros i Hi. unfold places in Hi. rewrite splice_insert_perm in Hi.
    apply elem_of_cons in Hi as [->|Hi].
    + by apply lookup_lt_Some in Hlook.
    + by apply Hvalid, (splice_remove_elem _ _ _ Hi).
Qed.

Lemma renumber_same : Forall2 same_but_order ps1 ps'.
Proof.
  destruct renumber_places as (places & -> & _). apply number_from_same.
Qed.

Lemma renumber_ids : proj_id <$> ps' = proj_id <$> ps1.
Proof. apply same_ids, renumber_same. Qed.

Lemma renumber_order k x :
  N !! k = Some x ->
  exists p1,
    find_project x ps1 = Some p1 /\
    find_project x ps' = Some (set_order (Some (Z.of_nat k)) p1).
Proof.
  destruct renumber_places as (places & Hps' & Hids & Hnp & Hvalid).
  intros Hk. rewrite <- Hids in Hk. unfold ids_at in Hk.
  apply list_lookup_fmap_Some in Hk as (i & Hx & Hi).
  destruct (lookup_lt_is_Some_2 ps1 i
              (Hvalid i (list_elem_of_lookup_2 _ _ _ Hi))) as [p1 Hp1].
  rewrite Hp1 in Hx. cbn [from_option] in Hx. subst x.
  exists p1. split.
  - apply find_project_NoDup; [done|]. by eapply list_elem_of_lookup_2.
  - assert (Hp' : ps' !! i = Some (set_order (Some (Z.of_nat k)) p1)).
    { rewrite Hps', (number_from_inside _ _ _ _ _ Hnp Hi), Hp1.
      by rewrite Z.add_0_l. }
    change (proj_id p1)
      with (proj_id (set_order (Some (Z.of_nat k)) p1)).
    apply find_project_NoDup; [by rewrite renumber_ids|].
    by eapply list_elem_of_lookup_2.
Qed.

Lemma renumber_display : proj_id <$> sortedRootProjects ps' = N.
Proof.
  pose proof (root_ids_NoDup ps1 Hnd) as HndR. fold R1 in HndR.
  assert (HndN : NoDup N) by (by rewrite renumber_perm).
  assert (Hnd' : NoDup (proj_id <$> ps')) by (by rewrite renumber_ids).
  assert (Hroots' : proj_id <$> getRootProjects ps' = R1)
    by apply same_root_ids, renumber_same.
  assert (Hall : is_Some (mapM (fun x => find_project x ps') N)).
  { apply mapM_is_Some, Forall_forall. intros x Hx.
    apply list_elem_of_lookup in Hx as [k Hk].
    destruct (renumber_order k x Hk) as (p1 & _ & Hp'). by eexists. }
  destruct Hall as [numbered Hnum]. apply mapM_Some in Hnum.
  assert (Hids : proj_id <$> numbered = N).
  { clear -Hnum. induction Hnum as [|x p N numbered Hp _ IH]; [done|].
    rewrite fmap_cons, IH. f_equal. by apply find_project_Some in Hp as [? _]. }
  assert (Hkeys : forall k p, numbered !! k = Some p ->
                              order_or_0 p = Z.of_nat k).
  { intros k p Hp.
    destruct (Forall2_lookup_r _ _ _ _ _ Hnum Hp) as (x & Hx & Hfind).
    destruct (renumber_order k x Hx) as (p1 & _ & Hp').
    rewrite Hfind in Hp'. by injection Hp' as ->. }
  assert (Hperm : getRootProjects ps' ≡ₚ numbered).
  { apply NoDup_Permutation.
    - apply (NoDup_fmap_1 proj_id). by rewrite Hroots'.
    - apply (NoDup_fmap_1 proj_id). by rewrite Hids.
    - intros p. split.
      + intros Hp.
        assert (Hin : proj_id p ∈ N).
        { rewrite renumber_perm, <- Hroots'. by apply list_elem_of_fmap_2. }
        apply list_elem_of_lookup in Hin as [k Hk].
        destruct (Forall2_lookup_l _ _ _ _ _ Hnum Hk) as (p' & Hp' & Hfind).
        unfold getRootProjects in Hp. apply list_elem_of_filter in Hp as [_ Hp].
        rewrite (find_project_NoDup ps' p Hnd' Hp) in Hfind.
        injection Hfind as <-. by eapply list_elem_of_lookup_2.
      + intros Hp. apply list_elem_of_lookup in Hp as [k Hk].
        destruct (Forall2_lookup_r _ _ _ _ _ Hnum Hk) as (x & Hx & Hfind).
        destruct (find_project_Some _ _ _ Hfind) as [Hid Hin].
        assert (Hroot' : x ∈ proj_id <$> getRootProjects ps').
        { rewrite Hroots', <- renumber_perm. by eapply list_elem_of_lookup_2. }
        apply list_elem_of_fmap in Hroot' as (q & Hq & Hqroot).
        assert (q = p) as <-; [|done].
        apply (NoDup_ids_eq ps' q p Hnd'); [|done|congruence].
        unfold getRootProjects in Hqroot.
        by apply list_elem_of_filter in Hqroot as [_ ?]. }
  unfold sortedRootProjects.
  by rewrite (js_sort_numbered order_or_0 _ numbered Hkeys Hperm).
Qed.

End Renumber.

Lemma root_edge_drop_run w ps t d zone droppedProjectId fuel :
  projects_of w = Some ps ->
  (0 < fuel)%nat ->
  find_project (proj_id t) ps = Some t ->
  truthy_id (proj_parentId t) = false ->
  find_project droppedProjectId ps = Some d ->
  truthy_id (proj_parentId d) = false ->
  droppedProjectId <> "" ->
  droppedProjectId <> proj_id t ->
  dropProjectEdge fuel ps t zone droppedProjectId w =
    Some (tt, put "gpm_projects"
                (of_projects
                   (reorder_roots (proj_id t) droppedProjectId zone
                      (modify_first droppedProjectId (set_parentId None) ps)))
                w).
Proof.
  intros Hps Hfuel Ht Htroot Hd Hdroot Hne Hdiff.
  unfold dropProjectEdge.
  destruct (String.eqb_spec droppedProjectId "") as [|_]; [done|].
  destruct (String.eqb_spec droppedProjectId (proj_id t)) as [|_]; [done|].
  cbn [negb andb]. unfold bind, lift.
  assert (Hdesc : isDescendant fuel ps droppedProjectId (proj_id t) = Some false).
  { destruct fuel as [|fuel]; [lia|]. cbn [isDescendant]. rewrite Ht.
    rewrite bool_decide_eq_false_2, Htroot; [done|].
    intros E. rewrite E in Htroot. cbn in Htroot.
    apply negb_false_iff, String.eqb_eq in Htroot. done. }
  rewrite Hdesc, (readProjects_run _ _ Hps), Hd, Htroot, Hdroot.
  cbn [truthy_id]. by rewrite writeProjects_run.
Qed.

Lemma root_ids_reparent ps droppedProjectId d :
  find_project droppedProjectId ps = Some d ->
  truthy_id (proj_parentId d) = false ->
  proj_id <$> getRootProjects
                (modify_first droppedProjectId (set_parentId None) ps)
  = proj_id <$> getRootProjects ps.
Proof.
  unfold getRootProjects. induction ps as [|p ps IH]; [done|].
  rewrite find_project_cons, modify_first_cons.
  destruct (decide (proj_id p = droppedProjectId)) as [E|E].
  - intros [= ->] Hroot.
    rewrite (filter_cons_True _ (set_parentId None d)) by done.
    by rewrite (filter_cons_True _ d) by done.
  - intros Hd Hroot. rewrite !filter_cons.
    destruct (decide _); [|by apply IH].
    rewrite !fmap_cons. f_equal. by apply IH.
Qed.

Lemma NoDup_middle_fresh {A} (l1 : list A) x l2 :
  NoDup (l1 ++ x :: l2) -> x ∉ l1.
Proof.
  intros (_ & Hdisj & _)%NoDup_app Hx.
  apply (Hdisj x Hx). apply list_elem_of_here.
Qed.

Lemma splice_insert_after {A} (l1 : list A) y x l2 :
  splice_insert (Z.of_nat (length l1) + 1) x (l1 ++ y :: l2)
  = l1 ++ y :: x :: l2.
Proof.
  replace (Z.of_nat (length l1) + 1) with (Z.of_nat (length (l1 ++ [y])))
    by (rewrite length_app; cbn; lia).
  replace (l1 ++ y :: l2) with ((l1 ++ [y]) ++ l2) by (by rewrite <- app_assoc).
  rewrite splice_insert_at. by rewrite <- app_assoc.
Qed.

Lemma splice_insert_end {A} k (x : A) l :
  Z.of_nat (length l) <= k -> splice_insert k x l = l ++ [x].
Proof.
  intros Hk. unfold splice_insert, splice_start.
  destruct (Z.ltb_spec k 0); [lia|].
  rewrite Z.min_r by lia. rewrite Nat2Z.id.
  by rewrite take_ge, drop_ge by lia.
Qed.

(** X27: a root project dropped on the edge of the row of a root project
    that is stored before it.  With distinct ids and rows rendered from the
    stored projects, the handler returns and renumbers the [order] of the
    root projects so that the root rows, sorted by [order], follow the
    stored order of the roots with the dropped project moved directly
    before the row's project ([top]) or directly after it (otherwise);
    the [order] the projects had before plays no part, and apart from
    [order], and the dropped project's [parentId] set to [null], no project
    changes. *)
Theorem root_reorder_towards_front
    (w : World) (ps : list Project) (project droppedProject : Project)
    (droppedProjectId : string) (zone : Zone) (fuel : nat)
    (a1 a2 b : list string) :
  projects_of w = Some ps ->
  NoDup (proj_id <$> ps) ->
  (0 < fuel)%nat ->
  find_project (proj_id project) ps = Some project ->
  truthy_id (proj_parentId project) = false ->
  find_project droppedProjectId ps = Some droppedProject ->
  truthy_id (proj_parentId droppedProject) = false ->
  droppedProjectId <> "" ->
  proj_id <$> getRootProjects ps
    = a1 ++ proj_id project :: a2 ++ droppedProjectId :: b ->
  exists w' ps',
    dropProjectEdge fuel ps project zone droppedProjectId w = Some (tt, w') /\
    projects_of w' = Some ps' /\
    Forall2 same_but_order
      (modify_first droppedProjectId (set_parentId None) ps) ps' /\
    proj_id <$> sortedRootProjects ps'
      = a1 ++ match zone with
              | top => droppedProjectId :: proj_id project :: a2 ++ b
              | _ => proj_id project :: droppedProjectId :: a2 ++ b
              end.
Proof.
  intros Hps Hnd Hfuel Ht Htroot Hd Hdroot Hne Hroots.
  pose proof (root_ids_NoDup ps Hnd) as HndR. rewrite Hroots in HndR.
  assert (Hdiff : droppedProjectId <> proj_id project).
  { intros E. apply NoDup_app in HndR as (_ & _ & HndR).
    apply NoDup_cons in HndR as [Hfresh _]. apply Hfresh.
    apply elem_of_app. right. rewrite E. apply list_elem_of_here. }
  set (ps1 := modify_first droppedProjectId (set_parentId None) ps).
  assert (Hnd1 : NoDup (proj_id <$> ps1))
    by (unfold ps1; by rewrite modify_first_ids).
  assert (Hd1 : find_project droppedProjectId ps1
                = Some (set_parentId None droppedProject)).
  { unfold ps1. rewrite find_modify_first by done.
    by rewrite decide_True, Hd. }
  assert (HR1 : proj_id <$> getRootProjects ps1
                = a1 ++ proj_id project :: a2 ++ droppedProjectId :: b).
  { unfold ps1. by rewrite (root_ids_reparent _ _ _ Hd Hdroot). }
  exists (put "gpm_projects"
            (of_projects
               (reorder_roots (proj_id project) droppedProjectId zone ps1)) w),
         (reorder_roots (proj_id project) droppedProjectId zone ps1).
  split; [by apply (root_edge_drop_run w ps project droppedProject)|].
  split; [apply projects_of_put_projects|].
  split; [by apply (renumber_same ps1 _ _ zone _ Hnd1 Hd1)|].
  rewrite (renumber_display ps1 (proj_id project) droppedProjectId zone _
             Hnd1 Hd1 eq_refl).
  rewrite HR1.
  assert (Ht1 : proj_id project ∉ a1) by by apply NoDup_middle_fresh in HndR.
  assert (Hd2 : droppedProjectId ∉ a1 ++ proj_id project :: a2).
  { apply (NoDup_middle_fresh _ _ b). by rewrite <- app_assoc. }
  rewrite (indexOf_first _ _ _ Ht1).
  replace (a1 ++ proj_id project :: a2 ++ droppedProjectId :: b)
    with ((a1 ++ proj_id project :: a2) ++ droppedProjectId :: b)
    by (by rewrite <- app_assoc).
  rewrite (indexOf_first _ _ _ Hd2), splice_remove_at, <- app_assoc.
  cbn [app].
  destruct zone.
  - rewrite Z.max_r by lia. apply splice_insert_at.
  - rewrite Z.max_r by lia. apply splice_insert_after.
  - rewrite Z.max_r by lia. apply splice_insert_after.
Qed.

(** X28: a root project dropped on the edge of the row of a root project
    that is stored after it.  The position is taken before the dropped
    project leaves the list: sorted by [order], the dropped project comes
    directly after the row's project in the [top] zone, and one row further
    down otherwise. *)
Theorem root_reorder_towards_back
    (w : World) (ps : list Project) (project droppedProject : Project)
    (droppedProjectId : string) (zone : Zone) (fuel : nat)
    (a b1 b2 : list string) :
  projects_of w = Some ps ->
  NoDup (proj_id <$> ps) ->
  (0 < fuel)%nat ->
  find_project (proj_id project) ps = Some project ->
  truthy_id (proj_parentId project) = false ->
  find_project droppedProjectId ps = Some droppedProject ->
  truthy_id (proj_parentId droppedProject) = false ->
  droppedProjectId <> "" ->
  proj_id <$> getRootProjects ps
    = a ++ droppedProjectId :: b1 ++ proj_id project :: b2 ->
  exists w' ps',
    dropProjectEdge fuel ps project zone droppedProjectId w = Some (tt, w') /\
    projects_of w' = Some ps' /\
    Forall2 same_but_order
      (modify_first droppedProjectId (set_parentId None) ps) ps' /\
    proj_id <$> sortedRootProjects ps'
      = a ++ b1 ++ proj_id project ::
          match zone with
          | top => droppedProjectId :: b2
          | _ => take 1 b2 ++ droppedProjectId :: drop 1 b2
          end.
Proof.
  intros Hps Hnd Hfuel Ht Htroot Hd Hdroot Hne Hroots.
  pose proof (root_ids_NoDup ps Hnd) as HndR. rewrite Hroots in HndR.
  assert (Hda : droppedProjectId ∉ a) by by apply NoDup_middle_fresh in HndR.
  assert (Ht2 : proj_id project ∉ a ++ droppedProjectId :: b1).
  { apply (NoDup_middle_fresh _ _ b2). by rewrite <- app_assoc. }
  assert (Hdiff : droppedProjectId <> proj_id project).
  { intros E. apply Ht2. apply elem_of_app. right. rewrite E.
    apply list_elem_of_here. }
  set (ps1 := modify_first droppedProjectId (set_parentId None) ps).
  assert (Hnd1 : NoDup (proj_id <$> ps1))
    by (unfold ps1; by rewrite modify_first_ids).
  assert (Hd1 : find_project droppedProjectId ps1
                = Some (set_parentId None droppedProject)).
  { unfold ps1. rewrite find_modify_first by done.
    by rewrite decide_True, Hd. }
  assert (HR1 : proj_id <$> getRootProjects ps1
                = a ++ droppedProjectId :: b1 ++ proj_id project :: b2).
  { unfold ps1. by rewrite (root_ids_reparent _ _ _ Hd Hdroot). }
  exists (put "gpm_projects"
            (of_projects
               (reorder_roots (proj_id project) droppedProjectId zone ps1)) w),
         (reorder_roots (proj_id project) droppedProjectId zone ps1).
  split; [by apply (root_edge_drop_run w ps project droppedProject)|].
  split; [apply projects_of_put_projects|].
  split; [by apply (renumber_same ps1 _ _ zone _ Hnd1 Hd1)|].
  rewrite (renumber_display ps1 (proj_id project) droppedProjectId zone _
             Hnd1 Hd1 eq_refl).
  rewrite HR1.
  rewrite (indexOf_first _ _ _ Hda), splice_remove_at.
  replace (a ++ droppedProjectId :: b1 ++ proj_id project :: b2)
    with ((a ++ droppedProjectId :: b1) ++ proj_id project :: b2)
    by (by rewrite <- app_assoc).
  rewrite (indexOf_first _ _ _ Ht2).
  assert (Hlen : Z.of_nat (length (a ++ droppedProjectId :: b1))
                 = Z.of_nat (length (a ++ b1)) + 1).
  { rewrite !length_app. cbn [length]. lia. }
  rewrite Hlen.
  replace (a ++ b1 ++ proj_id project :: b2)
    with ((a ++ b1) ++ proj_id project :: b2) by (by rewrite <- app_assoc).
  replace (a ++ b1 ++ proj_id project ::
             match zone with
             | top => droppedProjectId :: b2
             | _ => take 1 b2 ++ droppedProjectId :: drop 1 b2
             end)
    with ((a ++ b1) ++ proj_id project ::
             match zone with
             | top => droppedProjectId :: b2
             | _ => take 1 b2 ++ droppedProjectId :: drop 1 b2
             end) by (by rewrite <- app_assoc).
  assert (Hfurther :
            splice_insert (Z.of_nat (length (a ++ b1)) + 1 + 1)
              droppedProjectId ((a ++ b1) ++ proj_id project :: b2)
            = (a ++ b1) ++ proj_id project ::
                take 1 b2 ++ droppedProjectId :: drop 1 b2).
  { destruct b2 as [|y b2].
    - rewrite splice_insert_end by (rewrite length_app; cbn [length]; lia).
      by rewrite <- app_assoc.
    - cbn [take drop app].
      replace ((a ++ b1) ++ proj_id project :: y :: b2)
        with (((a ++ b1) ++ [proj_id project]) ++ y :: b2)
        by (by rewrite <- app_assoc).
      replace (Z.of_nat (length (a ++ b1)) + 1 + 1)
        with (Z.of_nat (length ((a ++ b1) ++ [proj_id project])) + 1)
        by (rewrite (length_app (a ++ b1)); cbn [length]; lia).
      rewrite splice_insert_after. by rewrite <- app_assoc. }
  destruct zone.
  - rewrite Z.max_r by lia. apply splice_insert_after.
  - rewrite Z.max_r by lia. exact Hfurther.
  - rewrite Z.max_r by lia. exact Hfurther.
Qed.

Lemma three_roots_NoDup : NoDup (proj_id <$> three_roots).
Proof.
  cbn. repeat (apply NoDup_cons; split);
    [| |apply not_elem_of_nil|apply NoDup_nil_2].
  - intros Hin. repeat (apply elem_of_cons in Hin as [[=]|Hin]).
    by apply elem_of_nil in Hin.
  - intros Hin. repeat (apply elem_of_cons in Hin as [[=]|Hin]).
    by apply elem_of_nil in Hin.
Qed.

Lemma root_reorder_towards_front_witness :
  exists w' ps',
    dropProjectEdge 1 three_roots
      (mkProject "a" "Alpha" "A" "#fff" None [] [] false None) top "c"
      three_roots_world = Some (tt, w') /\
    projects_of w' = Some ps' /\
    Forall2 same_but_order
      (modify_first "c" (set_parentId None) three_roots) ps' /\
    proj_id <$> sortedRootProjects ps' = [] ++ "c" :: "a" :: ["b"] ++ [].
Proof.
  apply (root_reorder_towards_front three_roots_world three_roots
           (mkProject "a" "Alpha" "A" "#fff" None [] [] false None)
           (mkProject "c" "Gamma" "C" "#fff" None [] [] false None)
           "c" top 1 [] ["b"] []).
  - apply projects_of_put_projects.
  - exact three_roots_NoDup.
  - lia.
  - reflexivity.
  - reflexivity.
  - reflexivity.
  - reflexivity.
  - discriminate.
  - reflexivity.
Defined.

Lemma root_reorder_towards_back_witness :
  exists w' ps',
    dropProjectEdge 1 three_roots
      (mkProject "c" "Gamma" "C" "#fff" None [] [] false None) top "a"
      three_roots_world = Some (tt, w') /\
    projects_of w' = Some ps' /\
    Forall2 same_but_order
      (modify_first "a" (set_parentId None) three_roots) ps' /\
    proj_id <$> sortedRootProjects ps' = [] ++ ["b"] ++ "c" :: "a" :: [].
Proof.
  apply (root_reorder_towards_back three_roots_world three_roots
           (mkProject "c" "Gamma" "C" "#fff" None [] [] false None)
           (mkProject "a" "Alpha" "A" "#fff" None [] [] false None)
           "a" top 1 [] ["b"] []).
  - apply projects_of_put_projects.
  - exact three_roots_NoDup.
  - lia.
  - reflexivity.
  - reflexivity.
  - reflexivity.
  - reflexivity.
  - discriminate.
  - reflexivity.
Defined.

(** ** The edge drop among siblings keeps the tree *)

Lemma modify_first_guard pid f ps :
  NoDup (proj_id <$> ps) ->
  modify_first pid f ps
  = (fun q => if decide (proj_id q = pid) then f q else q) <$> ps.
Proof.
  intros Hnd. destruct (find_project pid ps) as [p|] eqn:Hp.
  - destruct (find_project_Some _ _ _ Hp) as [Hid _].
    rewrite (modify_first_ext pid f
               (fun q => if decide (proj_id q = pid) then f q else q) ps p Hp)
      by (by rewrite decide_True).
    apply modify_first_map; [done|].
    intros q _ Hne. by rewrite decide_False.
  - rewrite modify_first_None by done. symmetry. apply fmap_fixed.
    intros q Hq. rewrite decide_False; [done|].
    by apply (proj1 (find_project_None _ _) Hp).
Qed.

Section TreeEdges.

Variable ps : list Project.
Hypothesis Htree : is_tree ps.

Lemma tree_child_parent a b : child_of ps a b -> parent_edge ps b a.
Proof.
  intros (pa & Hpa & Hb).
  destruct (find_project_Some _ _ _ Hpa) as [Hid Hin].
  apply (tree_children ps Htree pa b Hin) in Hb as (q & Hq & Hqid & Hqpar).
  exists q. split; [|split].
  - rewrite <- Hqid. by apply find_project_NoDup; [apply Htree|].
  - by rewrite Hqpar, Hid.
  - rewrite <- Hid. by apply (tree_ids_nonempty ps Htree).
Qed.

Lemma tree_parent_child a b :
  parent_edge ps b a -> is_Some (find_project a ps) -> child_of ps a b.
Proof.
  intros (q & Hq & Hpar & _) [pa Hpa].
  destruct (find_project_Some _ _ _ Hpa) as [Hid Hin].
  destruct (find_project_Some _ _ _ Hq) as [Hqid Hqin].
  exists pa. split; [done|].
  apply (tree_children ps Htree pa b Hin). exists q.
  split; [done|]. split; [done|]. by rewrite Hid.
Qed.

Lemma descendant_ancestor x y :
  descendant ps x y -> x = y \/ ancestor ps y x.
Proof.
  induction 1 as [a|a b c Hab _ IH]; [by left|]. right.
  apply tree_child_parent in Hab.
  destruct IH as [->|IH]; [by apply ancestor_parent|].
  apply (ancestor_trans ps c b a); [done|by apply ancestor_parent].
Qed.

Lemma ancestor_descendant u v :
  ancestor ps u v -> is_Some (find_project v ps) -> descendant ps v u.
Proof.
  induction 1 as [u v Huv|u y v Huy Hyv IH]; intros Hv.
  - apply (descendant_child ps v u u); [|apply descendant_self].
    by apply tree_parent_child.
  - apply (descendant_trans ps v y u); [by apply IH|].
    apply (descendant_child ps y u u); [|apply descendant_self].
    apply tree_parent_child; [done|].
    inversion Hyv as [? ? (p & Hp & _)|? ? ? (p & Hp & _)]; subst; by eexists.
Qed.

Lemma tree_acyclic_parents : acyclic_parents ps.
Proof.
  intros x Hx.
  assert (Hstored : is_Some (find_project x ps)).
  { inversion Hx as [? ? (p & Hp & _)|? ? ? (p & Hp & _)]; subst; by eexists. }
  inversion Hx as [? ? Hedge|? y ? Hedge Hrest]; subst.
  - pose proof (tree_parent_child _ _ Hedge Hstored) as Hc.
    apply (tree_acyclic ps Htree x x Hc). apply descendant_self.
  - assert (Hy : is_Some (find_project y ps)).
    { inversion Hrest as [? ? (p & Hp & _)|? ? ? (p & Hp & _)]; subst;
        by eexists. }
    pose proof (tree_parent_child _ _ Hedge Hy) as Hc.
    apply (tree_acyclic ps Htree y x Hc).
    by apply ancestor_descendant.
Qed.

End TreeEdges.

Section SiblingTree.

Variables (ps : list Project) (t d parent : Project).
Variables (P did : string) (zone : Zone).
Hypothesis Htree : is_tree ps.
Hypothesis Ht : find_project (proj_id t) ps = Some t.
Hypothesis Hpar : proj_parentId t = Some P.
Hypothesis HP : P <> "".
Hypothesis Hparent : find_project P ps = Some parent.
Hypothesis Hd : find_project did ps = Some d.
Hypothesis Hnot : ~ ancestor ps (proj_id t) did.

Let ps' := edge_drop_siblings (proj_id t) P did zone d ps.

(** What the drop makes of one stored project. *)
Let moved := fun q =>
  let q0 := if decide (proj_id q = default "" (proj_parentId d))
            then drop_child did q else q in
  let q0 := if truthy_id (proj_parentId d) then q0 else q in
  let q1 := if decide (proj_id q0 = did)
            then set_parentId (Some P) q0 else q0 in
  if decide (proj_id q1 = P) then place_child (proj_id t) did zone q1 else q1.

Lemma sibling_did_P : did <> P.
Proof. intros ->. apply Hnot. apply ancestor_parent. by exists t. Qed.

Lemma sibling_map : ps' = moved <$> ps.
Proof.
  pose proof (tree_ids_distinct ps Htree) as Hnd.
  unfold ps', edge_drop_siblings, moved.
  rewrite modify_first_guard.
  2: { rewrite modify_first_ids by done.
       destruct (truthy_id _); [by rewrite modify_first_ids|done]. }
  rewrite modify_first_guard.
  2: { destruct (truthy_id _); [by rewrite modify_first_ids|done]. }
  destruct (truthy_id (proj_parentId d)).
  - rewrite modify_first_guard by done.
    rewrite <- !list_fmap_compose. by apply list_fmap_ext.
  - rewrite <- !list_fmap_compose. by apply list_fmap_ext.
Qed.

Lemma moved_id q : proj_id (moved q) = proj_id q.
Proof.
  unfold moved. cbv zeta.
  destruct (truthy_id _); repeat (destruct (decide _)); done.
Qed.

Lemma moved_parentId q :
  proj_parentId (moved q)
  = if decide (proj_id q = did) then Some P else proj_parentId q.
Proof.
  unfold moved. cbv zeta.
  destruct (truthy_id _); repeat (destruct (decide _)); try done;
    cbn in *; congruence.
Qed.

Lemma tree_lists_dropped q :
  q ∈ ps -> did ∈ proj_children q ->
  truthy_id (proj_parentId d) = true /\
  proj_id q = default "" (proj_parentId d).
Proof.
  intros Hq Hin.
  apply (tree_children ps Htree q did Hq) in Hin as (q2 & Hq2 & Hid2 & Hpar2).
  destruct (find_project_Some _ _ _ Hd) as [Hdid Hdin].
  assert (q2 = d) as ->
    by (apply (NoDup_ids_eq ps q2 d (tree_ids_distinct ps Htree));
        [done|done|congruence]).
  rewrite Hpar2. cbn. split; [|done].
  apply negb_true_iff, String.eqb_neq. by apply (tree_ids_nonempty ps Htree).
Qed.

Lemma moved_shape q :
  q ∈ ps ->
  exists q1,
    proj_id q1 = proj_id q /\
    proj_children q1 = without did (proj_children q) /\
    moved q = if decide (proj_id q = P)
              then place_child (proj_id t) did zone q1 else q1.
Proof.
  intros Hq.
  assert (Hfixed : ~ (truthy_id (proj_parentId d) = true /\
                     proj_id q = default "" (proj_parentId d)) ->
                   proj_children q = without did (proj_children q)).
  { intros Hno. symmetry. apply without_not_elem. intros Hin.
    by apply Hno, tree_lists_dropped. }
  assert (Hstage : exists q0,
            proj_id q0 = proj_id q /\
            proj_children q0 = without did (proj_children q) /\
            (if truthy_id (proj_parentId d)
             then if decide (proj_id q = default "" (proj_parentId d))
                  then drop_child did q else q
             else q) = q0).
  { destruct (truthy_id (proj_parentId d)) eqn:Htruthy.
    - destruct (decide (proj_id q = default "" (proj_parentId d))) as [E|E].
      + by exists (drop_child did q).
      + exists q. split; [done|]. split; [|done].
        apply Hfixed. by intros [_ ?].
    - exists q. split; [done|]. split; [|done].
      apply Hfixed. by intros [? _]. }
  destruct Hstage as (q0 & Hid0 & Hch0 & Hq0).
  exists (if decide (proj_id q0 = did) then set_parentId (Some P) q0 else q0).
  split; [destruct (decide (proj_id q0 = did)); exact Hid0|].
  split; [destruct (decide (proj_id q0 = did)); exact Hch0|].
  unfold moved. cbv zeta.
  assert (Hq0' : (if truthy_id (proj_parentId d)
                  then if decide (proj_id q = default "" (proj_parentId d))
                       then drop_child did q else q
                  else q) = q0) by exact Hq0.
  destruct (truthy_id (proj_parentId d)); rewrite Hq0'.
  - destruct (decide (proj_id q0 = did)); cbn [proj_id set_parentId];
      rewrite Hid0; reflexivity.
  - destruct (decide (proj_id q0 = did)); cbn [proj_id set_parentId];
      rewrite Hid0; reflexivity.
Qed.

Lemma moved_children q c :
  q ∈ ps ->
  c ∈ proj_children (moved q) <->
  (proj_id q = P /\ c = did) \/ (c ∈ proj_children q /\ c <> did).
Proof.
  intros Hq. destruct (moved_shape q Hq) as (q1 & Hid1 & Hch1 & ->).
  destruct (decide (proj_id q = P)) as [E|E].
  - unfold place_child. cbn [set_children proj_children].
    rewrite splice_insert_perm, elem_of_cons, Hch1, without_without,
      without_elem.
    split; [intros [->|?]; [by left|by right]|].
    intros [[_ ->]|?]; [by left|by right].
  - rewrite Hch1, without_elem. split; [by right|].
    by intros [[? _]|?].
Qed.

Lemma sibling_elem q' : q' ∈ ps' <-> exists q, q ∈ ps /\ q' = moved q.
Proof.
  rewrite sibling_map, list_elem_of_fmap. split.
  - intros (q & -> & Hq). by exists q.
  - intros (q & Hq & ->). by exists q.
Qed.

Lemma sibling_NoDup : NoDup (proj_id <$> ps').
Proof.
  rewrite sibling_map, <- list_fmap_compose.
  rewrite (list_fmap_ext (proj_id ∘ moved) proj_id ps); [apply Htree|].
  intros i q _. apply moved_id.
Qed.

Lemma sibling_child_of a b :
  child_of ps' a b -> child_of ps a b \/ (a = P /\ b = did).
Proof.
  intros (p' & Hp' & Ha & Hb)%(child_of_elem _ _ _ sibling_NoDup).
  apply sibling_elem in Hp' as (p & Hp & ->).
  rewrite moved_id in Ha. subst a.
  apply (moved_children p b Hp) in Hb as [[? ->]|[Hb _]]; [by right|left].
  apply child_of_elem; [apply Htree|]. by exists p.
Qed.

Lemma sibling_descendant x y :
  descendant ps' x y ->
  descendant ps x y \/ (descendant ps x P /\ descendant ps did y).
Proof.
  induction 1 as [a|a b c Hab _ IH]; [left; apply descendant_self|].
  destruct (sibling_child_of _ _ Hab) as [Hold|[-> ->]].
  - destruct IH as [IH|[IH1 IH2]].
    + left. by apply (descendant_child ps a b c).
    + right. split; [|done]. by apply (descendant_child ps a b P).
  - right. split; [apply descendant_self|].
    by destruct IH as [IH|[_ IH]].
Qed.

Lemma sibling_not_below : ~ descendant ps did P.
Proof.
  intros Hdesc.
  destruct (descendant_ancestor ps Htree _ _ Hdesc) as [E|Hanc].
  - by apply sibling_did_P.
  - apply Hnot. apply (ancestor_step ps (proj_id t) P did); [|done].
    by exists t.
Qed.

Lemma sibling_tree : is_tree ps'.
Proof.
  destruct (find_project_Some _ _ _ Hd) as [Hdid Hdin].
  destruct (find_project_Some _ _ _ Hparent) as [HPid HPin].
  split.
  - apply sibling_NoDup.
  - intros p' (p & Hp & ->)%sibling_elem. rewrite moved_id.
    by apply (tree_ids_nonempty ps Htree).
  - intros p' c (p & Hp & ->)%sibling_elem.
    rewrite moved_id, (moved_children p c Hp). split.
    + intros [[HpP ->]|[Hc Hne]].
      * exists (moved d). split; [apply sibling_elem; by exists d|].
        rewrite moved_id, moved_parentId, decide_True by done.
        split; [done|by rewrite HpP].
      * apply (tree_children ps Htree p c Hp) in Hc as (q & Hq & Hqid & Hqpar).
        exists (moved q). split; [apply sibling_elem; by exists q|].
        rewrite moved_id, moved_parentId. split; [done|].
        rewrite decide_False; [done|]. by rewrite Hqid.
    + intros (q' & (q & Hq & ->)%sibling_elem & Hqid & Hqpar).
      rewrite moved_id in Hqid. rewrite moved_parentId in Hqpar.
      destruct (decide (proj_id q = did)) as [E|E].
      * left. injection Hqpar as <-. split; [done|]. by rewrite <- Hqid.
      * right. split; [|by rewrite <- Hqid].
        apply (tree_children ps Htree p c Hp). by exists q.
  - intros a b Hab Hba.
    destruct (sibling_descendant _ _ Hba) as [Hd1|[Hd1 Hd2]].
    + destruct (sibling_child_of _ _ Hab) as [Hold|[-> ->]].
      * by apply (tree_acyclic ps Htree a b).
      * by apply sibling_not_below.
    + apply sibling_not_below.
      destruct (sibling_child_of _ _ Hab) as [Hold|[-> ->]].
      * apply (descendant_trans ps did a P); [done|].
        by apply (descendant_child ps a b P).
      * done.
Qed.

End SiblingTree.

(** X29: a project dropped on the [top] or [bottom] edge of the row of a
    project that has a stored parent keeps the collection a tree: with rows
    rendered from the stored projects and a dropped project that is stored,
    is not the row's project and is not above it, the handler returns and
    the projects it saves form a tree again (where a drop in the center
    leaves the dropped project out of its new parent's [children]). *)
Theorem edge_drop_among_siblings_keeps_tree
    (w : World) (ps : list Project) (project droppedProject parent : Project)
    (parentId droppedProjectId : string) (zone : Zone) (fuel : nat) :
  projects_of w = Some ps ->
  is_tree ps ->
  (length ps < fuel)%nat ->
  find_project (proj_id project) ps = Some project ->
  proj_parentId project = Some parentId ->
  find_project parentId ps = Some parent ->
  find_project droppedProjectId ps = Some droppedProject ->
  droppedProjectId <> proj_id project ->
  ~ ancestor ps (proj_id project) droppedProjectId ->
  exists w' ps',
    dropProjectEdge fuel ps project zone droppedProjectId w = Some (tt, w') /\
    projects_of w' = Some ps' /\
    is_tree ps'.
Proof.
  intros Hps Htree Hlen Ht Hpar Hparent Hd Hdiff Hnot.
  assert (HP : parentId <> "").
  { destruct (find_project_Some _ _ _ Hparent) as [<- Hin].
    by apply (tree_ids_nonempty ps Htree). }
  assert (Hdne : droppedProjectId <> "").
  { destruct (find_project_Some _ _ _ Hd) as [<- Hin].
    by apply (tree_ids_nonempty ps Htree). }
  exists (put "gpm_projects"
            (of_projects
               (edge_drop_siblings (proj_id project) parentId droppedProjectId
                  zone droppedProject ps)) w),
         (edge_drop_siblings (proj_id project) parentId droppedProjectId
            zone droppedProject ps).
  split; [|split; [apply projects_of_put_projects|]].
  - unfold dropProjectEdge.
    destruct (String.eqb_spec droppedProjectId "") as [|_]; [done|].
    destruct (String.eqb_spec droppedProjectId (proj_id project)) as [|_];
      [done|].
    cbn [negb andb]. unfold bind, lift.
    rewrite (isDescendant_not_above ps _ _ fuel
               (tree_acyclic_parents ps Htree) Hlen Hdne Hnot).
    assert (Htruthy : truthy_id (Some parentId) = true).
    { cbn. apply negb_true_iff. by apply String.eqb_neq. }
    rewrite (readProjects_run _ _ Hps), Hd, Hpar, Htruthy.
    cbn iota. rewrite Htruthy.
    change (default "" (Some parentId)) with parentId.
    by rewrite writeProjects_run.
  - by apply (sibling_tree ps project droppedProject parent).
Qed.

Lemma edge_drop_among_siblings_keeps_tree_witness :
  exists w' ps',
    dropProjectEdge 4 nested_projects
      (mkProject "child" "Child" "C" "#fff" (Some "root") ["grand"] ["chat2"]
                 false None)
      bottom "grand" nested_world = Some (tt, w') /\
    projects_of w' = Some ps' /\
    is_tree ps'.
Proof.
  apply (edge_drop_among_siblings_keeps_tree nested_world nested_projects
           (mkProject "child" "Child" "C" "#fff" (Some "root") ["grand"]
                      ["chat2"] false None)
           (mkProject "grand" "Grandchild" "G" "#fff" (Some "child") []
                      ["chat3"] false None)
           (mkProject "root" "Root" "R" "#fff" None ["child"] ["chat1"]
                      false None)
           "root" "grand" bottom 4).
  - reflexivity.
  - exact nested_projects_tree.
  - cbn. lia.
  - reflexivity.
  - reflexivity.
  - reflexivity.
  - reflexivity.
  - discriminate.
  - intros Hanc. apply nested_ancestor_depth in Hanc. cbn in Hanc. lia.
Defined.

(** ** The edge drop on a root row keeps the tree *)

Lemma same_lookup ps ps' q' :
  Forall2 same_but_order ps ps' -> q' ∈ ps' ->
  exists q, q ∈ ps /\ same_but_order q q'.
Proof.
  intros Hsame Hq'. apply list_elem_of_lookup in Hq' as [i Hi].
  destruct (Forall2_lookup_r _ _ _ _ _ Hsame Hi) as (q & Hq & Hqq').
  exists q. split; [by eapply list_elem_of_lookup_2|done].
Qed.

Lemma same_lookup_l ps ps' q :
  Forall2 same_but_order ps ps' -> q ∈ ps ->
  exists q', q' ∈ ps' /\ same_but_order q q'.
Proof.
  intros Hsame Hq. apply list_elem_of_lookup in Hq as [i Hi].
  destruct (Forall2_lookup_l _ _ _ _ _ Hsame Hi) as (q' & Hq' & Hqq').
  exists q'. split; [by eapply list_elem_of_lookup_2|done].
Qed.

Lemma same_tree ps ps' :
  Forall2 same_but_order ps ps' -> is_tree ps -> is_tree ps'.
Proof.
  intros Hsame Htree.
  assert (Hnd' : NoDup (proj_id <$> ps'))
    by (rewrite (same_ids _ _ Hsame); apply Htree).
  assert (Hchild : forall a b, child_of ps' a b -> child_of ps a b).
  { intros a b (p' & Hp' & <- & Hb)%(child_of_elem _ _ _ Hnd').
    destruct (same_lookup _ _ _ Hsame Hp') as (p & Hp & Hpp').
    destruct (same_but_order_fields _ _ Hpp') as (Hid & _ & Hch & _).
    apply child_of_elem; [apply Htree|]. exists p.
    split; [done|]. split; [done|]. by rewrite <- Hch. }
  assert (Hdesc : forall a b, descendant ps' a b -> descendant ps a b).
  { induction 1 as [a|a b c Hab _ IH]; [apply descendant_self|].
    apply (descendant_child ps a b c); [by apply Hchild|done]. }
  split.
  - exact Hnd'.
  - intros p' Hp'. destruct (same_lookup _ _ _ Hsame Hp') as (p & Hp & Hpp').
    destruct (same_but_order_fields _ _ Hpp') as (-> & _).
    by apply (tree_ids_nonempty ps Htree).
  - intros p' c Hp'.
    destruct (same_lookup _ _ _ Hsame Hp') as (p & Hp & Hpp').
    destruct (same_but_order_fields _ _ Hpp') as (-> & _ & -> & _).
    rewrite (tree_children ps Htree p c Hp). split.
    + intros (q & Hq & Hqid & Hqpar).
      destruct (same_lookup_l _ _ _ Hsame Hq) as (q' & Hq' & Hqq').
      destruct (same_but_order_fields _ _ Hqq') as (Hid & Hpar & _).
      exists q'. split; [done|]. by rewrite Hid, Hpar.
    + intros (q' & Hq' & Hqid & Hqpar).
      destruct (same_lookup _ _ _ Hsame Hq') as (q & Hq & Hqq').
      destruct (same_but_order_fields _ _ Hqq') as (Hid & Hpar & _).
      exists q. split; [done|]. by rewrite <- Hid, <- Hpar.
  - intros a b Hab%Hchild Hba%Hdesc. by apply (tree_acyclic ps Htree a b).
Qed.

Section RootTree.

Variables (ps : list Project) (d : Project) (did : string).
Hypothesis Htree : is_tree ps.
Hypothesis Hd : find_project did ps = Some d.

Let ps1 := modify_first did (set_parentId None) (detach did ps).

Let lifted := fun q =>
  if decide (proj_id q = did) then set_parentId None (drop_child did q)
  else drop_child did q.

Lemma lifted_map : ps1 = lifted <$> ps.
Proof.
  unfold ps1. rewrite (detach_tree ps did d Htree Hd).
  rewrite modify_first_guard.
  - rewrite <- list_fmap_compose. apply list_fmap_ext. intros i q _.
    unfold lifted. cbn. by destruct (decide _).
  - rewrite <- list_fmap_compose. apply Htree.
Qed.

Lemma lifted_elem q' : q' ∈ ps1 <-> exists q, q ∈ ps /\ q' = lifted q.
Proof.
  rewrite lifted_map, list_elem_of_fmap. split.
  - intros (q & -> & Hq). by exists q.
  - intros (q & Hq & ->). by exists q.
Qed.

Lemma lifted_id q : proj_id (lifted q) = proj_id q.
Proof. unfold lifted. by destruct (decide _). Qed.

Lemma lifted_parentId q :
  proj_parentId (lifted q)
  = if decide (proj_id q = did) then None else proj_parentId q.
Proof. unfold lifted. by destruct (decide _). Qed.

Lemma lifted_children q c :
  c ∈ proj_children (lifted q) <-> c ∈ proj_children q /\ c <> did.
Proof.
  unfold lifted. destruct (decide _); cbn; apply without_elem.
Qed.

Lemma lifted_NoDup : NoDup (proj_id <$> ps1).
Proof.
  rewrite lifted_map, <- list_fmap_compose.
  rewrite (list_fmap_ext (proj_id ∘ lifted) proj_id ps); [apply Htree|].
  intros i q _. apply lifted_id.
Qed.

Lemma lifted_child_of a b : child_of ps1 a b -> child_of ps a b.
Proof.
  intros (p' & Hp' & Ha & Hb)%(child_of_elem _ _ _ lifted_NoDup).
  apply lifted_elem in Hp' as (p & Hp & ->).
  rewrite lifted_id in Ha. apply lifted_children in Hb as [Hb _].
  apply child_of_elem; [apply Htree|]. by exists p.
Qed.

Lemma lifted_descendant a b : descendant ps1 a b -> descendant ps a b.
Proof.
  induction 1 as [a|a b c Hab _ IH]; [apply descendant_self|].
  apply (descendant_child ps a b c); [by apply lifted_child_of|done].
Qed.

Lemma lifted_tree : is_tree ps1.
Proof.
  destruct (find_project_Some _ _ _ Hd) as [Hdid Hdin].
  split.
  - apply lifted_NoDup.
  - intros p' (p & Hp & ->)%lifted_elem. rewrite lifted_id.
    by apply (tree_ids_nonempty ps Htree).
  - intros p' c (p & Hp & ->)%lifted_elem.
    rewrite lifted_id, lifted_children. split.
    + intros [Hc Hne].
      apply (tree_children ps Htree p c Hp) in Hc as (q & Hq & Hqid & Hqpar).
      exists (lifted q). split; [apply lifted_elem; by exists q|].
      rewrite lifted_id, lifted_parentId. split; [done|].
      rewrite decide_False; [done|]. by rewrite Hqid.
    + intros (q' & (q & Hq & ->)%lifted_elem & Hqid & Hqpar).
      rewrite lifted_id in Hqid. rewrite lifted_parentId in Hqpar.
      destruct (decide (proj_id q = did)) as [E|E]; [done|].
      split; [|by rewrite <- Hqid].
      apply (tree_children ps Htree p c Hp). by exists q.
  - intros a b Hab%lifted_child_of Hba%lifted_descendant.
    by apply (tree_acyclic ps Htree a b).
Qed.

Lemma lifted_dropped :
  find_project did ps1 = Some (set_parentId None (drop_child did d)).
Proof.
  destruct (find_project_Some _ _ _ Hd) as [Hdid Hdin].
  assert (Hl : lifted d = set_parentId None (drop_child did d))
    by (unfold lifted; by rewrite decide_True).
  rewrite <- Hl. rewrite <- Hdid at 1. rewrite <- (lifted_id d).
  apply find_project_NoDup; [apply lifted_NoDup|].
  apply lifted_elem. by exists d.
Qed.

End RootTree.

(** X30: a project dropped on the [top] or [bottom] edge of the row of a
    root project, be it a root or a project taken out of a parent, keeps
    the collection a tree: with rows rendered from the stored projects, the
    handler returns, the dropped project is saved as a root, and the
    projects saved form a tree again. *)
Theorem edge_drop_at_root_keeps_tree
    (w : World) (ps : list Project) (project droppedProject : Project)
    (droppedProjectId : string) (zone : Zone) (fuel : nat) :
  projects_of w = Some ps ->
  is_tree ps ->
  (0 < fuel)%nat ->
  find_project (proj_id project) ps = Some project ->
  truthy_id (proj_parentId project) = false ->
  find_project droppedProjectId ps = Some droppedProject ->
  droppedProjectId <> proj_id project ->
  exists w' ps' p,
    dropProjectEdge fuel ps project zone droppedProjectId w = Some (tt, w') /\
    projects_of w' = Some ps' /\
    is_tree ps' /\
    find_project droppedProjectId ps' = Some p /\
    proj_parentId p = None.
Proof.
  intros Hps Htree Hfuel Ht Htroot Hd Hdiff.
  assert (Hdne : droppedProjectId <> "").
  { destruct (find_project_Some _ _ _ Hd) as [<- Hin].
    by apply (tree_ids_nonempty ps Htree). }
  set (ps1 := modify_first droppedProjectId (set_parentId None)
                (detach droppedProjectId ps)).
  pose proof (lifted_tree ps droppedProject droppedProjectId Htree Hd)
    as Htree1.
  pose proof (lifted_dropped ps droppedProject droppedProjectId Htree Hd)
    as Hd1.
  fold ps1 in Htree1, Hd1.
  pose proof (renumber_same ps1 (proj_id project) droppedProjectId zone _
                (tree_ids_distinct ps1 Htree1) Hd1 eq_refl) as Hsame.
  assert (Hrun : dropProjectEdge fuel ps project zone droppedProjectId w
                 = Some (tt, put "gpm_projects"
                               (of_projects
                                  (reorder_roots (proj_id project)
                                     droppedProjectId zone ps1)) w)).
  { unfold dropProjectEdge.
    destruct (String.eqb_spec droppedProjectId "") as [E|_];
      [by destruct (Hdne E)|].
    destruct (String.eqb_spec droppedProjectId (proj_id project)) as [E|_];
      [by destruct (Hdiff E)|].
    cbn [negb andb]. unfold bind, lift.
    assert (Hdesc : isDescendant fuel ps droppedProjectId (proj_id project)
                    = Some false).
    { destruct fuel as [|fuel]; [lia|]. cbn [isDescendant]. rewrite Ht.
      rewrite bool_decide_eq_false_2, Htroot; [done|].
      intros E. rewrite E in Htroot. cbn in Htroot.
      apply negb_false_iff, String.eqb_eq in Htroot. done. }
    rewrite Hdesc, (readProjects_run _ _ Hps), Hd, Htroot.
    cbn [truthy_id]. rewrite writeProjects_run.
    unfold ps1, detach. by rewrite Hd. }
  assert (Hfind : exists p,
            find_project droppedProjectId
              (reorder_roots (proj_id project) droppedProjectId zone ps1)
            = Some p /\ proj_parentId p = None).
  { destruct (find_project_Some _ _ _ Hd1) as [Hid1 Hin1].
    destruct (same_lookup_l _ _ _ Hsame Hin1) as (p & Hp & Hpp).
    destruct (same_but_order_fields _ _ Hpp) as (Hid & Hpar & _).
    exists p. split; [|by rewrite Hpar].
    assert (Hnd' : NoDup (proj_id <$> reorder_roots (proj_id project)
                                        droppedProjectId zone ps1))
      by (rewrite (same_ids _ _ Hsame); apply Htree1).
    pose proof (find_project_NoDup _ p Hnd' Hp) as Hf.
    by rewrite Hid, Hid1 in Hf. }
  destruct Hfind as (p & Hp & Hpar).
  eexists. eexists. exists p.
  split; [exact Hrun|].
  split; [apply projects_of_put_projects|].
  split; [by apply (same_tree ps1)|]. by split.
Qed.

Lemma edge_drop_at_root_keeps_tree_witness :
  exists w' ps' p,
    dropProjectEdge 1 nested_projects
      (mkProject "root" "Root" "R" "#fff" None ["child"] ["chat1"] false None)
      top "grand" nested_world = Some (tt, w') /\
    projects_of w' = Some ps' /\
    is_tree ps' /\
    find_project "grand" ps' = Some p /\
    proj_parentId p = None.
Proof.
  apply (edge_drop_at_root_keeps_tree nested_world nested_projects
           (mkProject "root" "Root" "R" "#fff" None ["child"] ["chat1"]
                      false None)
           (mkProject "grand" "Grandchild" "G" "#fff" (Some "child") []
                      ["chat3"] false None)
           "grand" top 1).
  - reflexivity.
  - exact nested_projects_tree.
  - lia.
  - reflexivity.
  - reflexivity.
  - reflexivity.
  - discriminate.
Defined.
